(** * evosax: ask/tell evolution strategies, embedded over the reals

    The strategies of [evosax/strategies] ([open_nes.py], [pepg_es.py],
    [persistent_es.py], [pso_es.py]) and of [evosax/v2/snes.py] are
    translated function by function.  Floating point numbers are idealised
    as real numbers (no rounding, no [nan], no [inf]); Python integers are
    [Z] or [nat], and the step counter that JAX holds is a [Z] that wraps
    around at 32 bits; one-dimensional arrays are lists and
    two-dimensional arrays are lists of rows, and what [jnp.squeeze]
    returns is an array of rank zero, one or two.  A Python exception is
    a [Raise] result. *)

From Stdlib Require Import String.
From Stdlib Require Import Reals Lra Lia List ZArith Bool.
From Stdlib Require Import Permutation Sorted.
Import ListNotations.
Open Scope R_scope.

(** ** Python results *)

Inductive PyError : Type :=
| ZeroDivisionError
| AssertionError.

Inductive result (A : Type) : Type :=
| Ok (a : A)
| Raise (e : PyError).
Arguments Ok {A} a.
Arguments Raise {A} e.

Definition bind {A B} (r : result A) (k : A -> result B) : result B :=
  match r with
  | Ok a => k a
  | Raise e => Raise e
  end.

Notation "x <- r ;; k" := (bind r (fun x => k))
  (at level 61, r at next level, right associativity).

(** [assert c] of Python. *)
Definition py_assert (c : bool) : result unit :=
  if c then Ok tt else Raise AssertionError.

(** [a / b] for a Python float [a] and a Python int [b]: it raises on a
    zero divisor. *)
Definition py_truediv (a : R) (b : Z) : result R :=
  if (b =? 0)%Z then Raise ZeroDivisionError else Ok (a / IZR b).

(** [int(r)] for a Python float [r]: truncation towards zero. *)
Definition py_int (r : R) : Z :=
  if Rle_dec 0 r then Int_part r else (- Int_part (- r))%Z.

(** [l[:n]] with Python's reading of a negative bound. *)
Definition slice_to {A} (n : Z) (l : list A) : list A :=
  if (0 <=? n)%Z then firstn (Z.to_nat n) l
  else firstn (length l - Z.to_nat (- n)) l.

(** ** The array operations the strategies use *)

Module Jnp.

Definition vec := list R.
Definition mat := list vec.

Definition zeros (n : nat) : vec := repeat 0 n.
Definition ones (n : nat) : vec := repeat 1 n.
Definition zeros2 (r c : nat) : mat := repeat (zeros c) r.

(** Element-wise operation on two arrays of one shape. *)
Fixpoint map2 {A B C} (f : A -> B -> C) (l1 : list A) (l2 : list B) : list C :=
  match l1, l2 with
  | a :: l1', b :: l2' => f a b :: map2 f l1' l2'
  | _, _ => []
  end.

Definition vadd : vec -> vec -> vec := map2 Rplus.
Definition vsub : vec -> vec -> vec := map2 Rminus.
Definition vmul : vec -> vec -> vec := map2 Rmult.
Definition vdiv : vec -> vec -> vec := map2 Rdiv.
Definition vmin : vec -> vec -> vec := map2 Rmin.
Definition vmax : vec -> vec -> vec := map2 Rmax.
Definition scale (c : R) (v : vec) : vec := map (Rmult c) v.
Definition vneg (v : vec) : vec := scale (-1) v.
Definition madd : mat -> mat -> mat := map2 vadd.

Definition sum (v : vec) : R := fold_right Rplus 0 v.
Definition mean (v : vec) : R := sum v / INR (length v).
Definition dot (u v : vec) : R := sum (vmul u v).

(** Column [j] of a matrix, and [m.T] for a matrix of [ncols] columns. *)
Definition column (j : nat) (m : mat) : vec := map (fun row => nth j row 0) m.
Definition transpose (ncols : nat) (m : mat) : mat :=
  map (fun j => column j m) (seq 0 ncols).

(** [jnp.dot(m.T, v)] and [jnp.dot(v, m)] for a matrix of [ncols] columns
    and a vector with one entry per row. *)
Definition dot_T (ncols : nat) (m : mat) (v : vec) : vec :=
  map (fun col => dot col v) (transpose ncols m).
Definition dot_vm (ncols : nat) (v : vec) (m : mat) : vec :=
  map (fun col => dot v col) (transpose ncols m).

(** [m.sum(axis=0)] and [jnp.mean(m, axis=0)]. *)
Definition sum_axis0 (ncols : nat) (m : mat) : vec := map sum (transpose ncols m).
Definition mean_axis0 (ncols : nat) (m : mat) : vec := map mean (transpose ncols m).

(** [a[idx]]: gathering along the first axis. *)
Definition take {A} (d : A) (idx : list nat) (a : list A) : list A :=
  map (fun i => nth i a d) idx.

(** [a.argsort()]: a stable sort of the indices by their keys. *)
Section Argsort.
Context {K : Type} (leb : K -> K -> bool).

Fixpoint insert (x : K * nat) (l : list (K * nat)) : list (K * nat) :=
  match l with
  | [] => [x]
  | y :: l' => if leb (fst x) (fst y) then x :: y :: l' else y :: insert x l'
  end.

Fixpoint isort (l : list (K * nat)) : list (K * nat) :=
  match l with
  | [] => []
  | x :: l' => insert x (isort l')
  end.

Definition argsort_by (keys : list K) : list nat :=
  map snd (isort (combine keys (seq 0 (length keys)))).
End Argsort.

Definition Rleb (a b : R) : bool := if Rle_dec a b then true else false.
Definition Rltb (a b : R) : bool := if Rlt_dec a b then true else false.
Definition argsort : vec -> list nat := argsort_by Rleb.

(** [jnp.argmin(v)]: the first index of a least entry.  The library
    rejects an empty array; the index is [0] there. *)
Fixpoint argmin_from (best : R) (best_i i : nat) (v : vec) : nat :=
  match v with
  | [] => best_i
  | a :: v' =>
      if Rltb a best then argmin_from a i (S i) v'
      else argmin_from best best_i (S i) v'
  end.

Definition argmin (v : vec) : nat :=
  match v with
  | [] => 0%nat
  | a :: v' => argmin_from a 0 1 v'
  end.

(** A Python bool used as a number. *)
Definition b2r (b : bool) : R := if b then 1 else 0.

(** [jax.lax.select(c, a, b)]. *)
Definition select {A} (c : bool) (a b : A) : A := if c then a else b.

(** The integers of JAX are 32-bit signed: a result outside
    [-2^31, 2^31) wraps around. *)
Definition int32 (z : Z) : Prop := (- 2 ^ 31 <= z < 2 ^ 31)%Z.
Definition wrap32 (z : Z) : Z := ((z + 2 ^ 31) mod 2 ^ 32 - 2 ^ 31)%Z.

(** An array of rank zero, one or two. *)
Inductive ndarray : Type :=
| Scalar (a : R)
| Vector (v : vec)
| Matrix (m : mat).

(** [jnp.squeeze(y)] for [y] of shape [(nrows, ncols)]: every axis of
    length one is dropped. *)
Definition squeeze (nrows ncols : nat) (y : mat) : ndarray :=
  match (nrows =? 1)%nat, (ncols =? 1)%nat with
  | true, true => Scalar (nth 0 (nth 0 y []) 0)
  | true, false => Vector (nth 0 y [])
  | false, true => Vector (column 0 y)
  | false, false => Matrix y
  end.

End Jnp.
Import Jnp.

(** ** Random streams

    [jax.random] is an external library: a stream is any pure function
    that gives, for a key and a requested shape, the entry at each index
    of the drawn array. *)

Class RandomStream : Type := {
  PRNGKey : Type;
  normal_entry : PRNGKey -> nat * nat -> nat -> nat -> R;
  uniform_entry : PRNGKey -> nat -> R -> R -> nat -> R
}.

(** [jax.random.normal(rng, (r, c))] and
    [jax.random.uniform(rng, (n,), minval=lo, maxval=hi)]. *)
Definition normal `{RandomStream} (rng : PRNGKey) (r c : nat) : mat :=
  map (fun i => map (fun j => normal_entry rng (r, c) i j) (seq 0 c)) (seq 0 r).

Definition uniform `{RandomStream} (rng : PRNGKey) (n : nat) (lo hi : R) : vec :=
  map (uniform_entry rng n lo hi) (seq 0 n).

(** [jax.random.uniform(rng, (r, c), minval=lo, maxval=hi)]: the [r * c]
    draws, row by row. *)
Definition uniform2 `{RandomStream} (rng : PRNGKey) (r c : nat) (lo hi : R) : mat :=
  map (fun i => map (fun j => uniform_entry rng (r * c) lo hi (i * c + j)) (seq 0 c))
      (seq 0 r).

(** A counter-based stream for concrete runs: entry [(i, j)] of the array
    drawn from key [k] is [k + i + j]. *)
#[export] Instance CounterStream : RandomStream := {|
  PRNGKey := nat;
  normal_entry k shape i j := INR (k + i + j);
  uniform_entry k n lo hi i := (lo + hi) / 2
|}.

(** [jnp.concatenate([z_plus, -1.0 * z_plus])]. *)
Definition antithetic (z_plus : mat) : mat := z_plus ++ map vneg z_plus.

(** ** Gradient optimizers *)

Module Optimizer.

(** Modelled from the spec: [GradientOptimizer] of [evosax/utils], which is
    not among the sources.  A rule operates on the flat parameter vector
    and on its own accumulators: [step_rule grad mean lrate acc h] returns
    the new parameter vector and the new accumulators. *)
Class GradientOptimizer : Type := {
  hyper : Type;
  accum : Type;
  default_hyper : hyper;
  initialize_accum : nat -> accum;
  step_rule : vec -> vec -> R -> accum -> hyper -> vec * accum
}.

(** Modelled from the spec: the optimizer's part of the parameter
    dictionary, [optimizer.default_params] merged with the base defaults. *)
Record OptParams `{GradientOptimizer} : Type := {
  lrate_init : R;
  lrate_decay : R;
  lrate_limit : R;
  init_min : R;
  init_max : R;
  rule : hyper
}.

(** Modelled from the spec: the shared policy of [optimizer.update],
    [lrate *= decay; lrate = max(lrate, floor)]. *)
Definition update_lrate `{GradientOptimizer} (lrate : R) (p : OptParams) : R :=
  Rmax (lrate * lrate_decay p) (lrate_limit p).

(** Modelled from the spec: the SGD rule, [delta = lrate * grad] with a
    momentum accumulator. *)
#[export] Instance SGD : GradientOptimizer := {
  hyper := R;
  accum := vec;
  default_hyper := 0;
  initialize_accum := zeros;
  step_rule grad mean lrate m momentum :=
    let m' := vadd grad (scale momentum m) in
    (vsub mean (scale lrate m'), m')
}.

(** Parameters for concrete runs with the SGD rule. *)
Definition sgd_params : @OptParams SGD :=
  @Build_OptParams SGD (1 / 100) (999 / 1000) (1 / 1000) (-1) 1 0.

End Optimizer.

(** ** Open-class NES ([strategies/open_nes.py]) *)

Module Open_NES.

Record Strategy : Type := { num_dims : nat; popsize : nat }.

(** [Open_NES.__init__]. *)
Definition init (num_dims popsize : nat) : result Strategy :=
  _ <- py_assert (Nat.even popsize) ;;
  Ok {| num_dims := num_dims; popsize := popsize |}.

Record Params : Type := {
  lrate_init : R; lrate_decay : R; lrate_limit : R;
  beta_1 : R; beta_2 : R; eps : R;
  sigma_init : R; sigma_decay : R; sigma_limit : R;
  init_min : R; init_max : R
}.

(** [params_strategy]; the initialisation range comes from the base
    class. *)
Definition params_strategy (init_min init_max : R) : Params := {|
  lrate_init := 1 / 100;
  lrate_decay := 999 / 1000;
  lrate_limit := 1 / 100;
  beta_1 := 99 / 100;
  beta_2 := 999 / 1000;
  eps := 1 / 100000000;
  sigma_init := 1 / 10;
  sigma_decay := 999 / 1000;
  sigma_limit := 1 / 10;
  init_min := init_min;
  init_max := init_max
|}.

(** The state dictionary.  [gen_counter] is the generation counter that
    the spec lists among the common fields; the base class keeps it. *)
Record State : Type := {
  mean : vec; sigma : R; lrate : R; m : vec; v : vec; gen_counter : nat
}.

Definition set_lrate (s : State) (x : R) : State :=
  {| mean := mean s; sigma := sigma s; lrate := x; m := m s; v := v s;
     gen_counter := gen_counter s |}.
Definition set_sigma (s : State) (x : R) : State :=
  {| mean := mean s; sigma := x; lrate := lrate s; m := m s; v := v s;
     gen_counter := gen_counter s |}.

Section Strategy.
Context `{RandomStream}.
(** [adam_step] of [evosax/utils] is not among the sources. *)
Variable adam_step : State -> Params -> vec -> State.
Variable self : Strategy.

Definition initialize_strategy (rng : PRNGKey) (params : Params) : State :=
  let initialization :=
    uniform rng (num_dims self) (init_min params) (init_max params) in
  {| mean := initialization;
     sigma := sigma_init params;
     lrate := lrate_init params;
     m := zeros (num_dims self);
     v := zeros (num_dims self);
     gen_counter := 0 |}.

(** The antithetic noise [z] of [ask_strategy]. *)
Definition ask_noise (rng : PRNGKey) : mat :=
  let z_plus := normal rng (popsize self / 2) (num_dims self) in
  antithetic z_plus.

Definition ask_strategy (rng : PRNGKey) (state : State) (params : Params)
  : mat * State :=
  let z := ask_noise rng in
  let x := map (fun row => vadd (mean state) (scale (sigma state) row)) z in
  (x, state).

(** [noise = (x - state["mean"]) / state["sigma"]]. *)
Definition tell_noise (x : mat) (state : State) : mat :=
  map (fun row => map (fun d => d / sigma state) (vsub row (mean state))) x.

Definition theta_grad (x : mat) (fitness : vec) (state : State) : vec :=
  let noise := tell_noise x state in
  scale (1 / (INR (popsize self) * sigma state))
        (dot_T (num_dims self) noise fitness).

Definition tell_strategy (x : mat) (fitness : vec) (state : State)
  (params : Params) : State :=
  let state := adam_step state params (theta_grad x fitness state) in
  let state := set_lrate state (lrate state * lrate_decay params) in
  let state := set_lrate state (Rmax (lrate state) (lrate_limit params)) in
  let state := set_sigma state (sigma state * sigma_decay params) in
  let state := set_sigma state (Rmax (sigma state) (sigma_limit params)) in
  state.

(** The driver's loop: one [tell] for each evaluated batch. *)
Definition tell_loop (batches : list (mat * vec)) (state : State)
  (params : Params) : State :=
  fold_left (fun s b => tell_strategy (fst b) (snd b) s params) batches state.
End Strategy.

(** Modelled from the spec: the Adam rule of the missing [adam_step],
    bias-corrected first and second moment estimates and
    [delta = lrate * m_hat / (sqrt v_hat + eps)]. *)
Definition adam_step (state : State) (params : Params) (grads : vec) : State :=
  let m' := vadd (scale (1 - beta_1 params) grads) (scale (beta_1 params) (m state)) in
  let v' := vadd (scale (1 - beta_2 params) (vmul grads grads))
                 (scale (beta_2 params) (v state)) in
  let t := S (gen_counter state) in
  let mhat := map (fun a => a / (1 - beta_1 params ^ t)) m' in
  let vhat := map (fun a => a / (1 - beta_2 params ^ t)) v' in
  let delta := map2 (fun a b => lrate state * a / (sqrt b + eps params)) mhat vhat in
  {| mean := vsub (mean state) delta; sigma := sigma state; lrate := lrate state;
     m := m'; v := v'; gen_counter := gen_counter state |}.

End Open_NES.

(** ** PEPG ([strategies/pepg_es.py]) *)

Module PEPG_ES.
Import Optimizer.

Record Strategy : Type := {
  num_dims : nat; popsize : nat; elite_ratio : R; elite_popsize : Z
}.

Definition known_optimizer (opt_name : string) : bool :=
  existsb (String.eqb opt_name) ["sgd"; "adam"; "rmsprop"; "clipup"]%string.

(** [PEPG_ES.__init__]; the optimizer object that the table
    [GradientOptimizer] returns for [opt_name] is the class instance. *)
Definition init (num_dims popsize : nat) (elite_ratio : R) (opt_name : string)
  : result Strategy :=
  let elite_popsize := py_int (INR popsize / 2 * elite_ratio) in
  _ <- py_assert (Nat.even popsize) ;;
  _ <- py_assert (known_optimizer opt_name) ;;
  Ok {| num_dims := num_dims; popsize := popsize;
        elite_ratio := elite_ratio; elite_popsize := elite_popsize |}.

Section Strategy.
Context `{RandomStream} `{GradientOptimizer}.

Record Params : Type := {
  sigma_init : R; sigma_decay : R; sigma_limit : R;
  sigma_lrate : R; sigma_max_change : R;
  opt : OptParams
}.

Definition params_strategy (default_params : OptParams) : Params := {|
  sigma_init := 10 / 100;
  sigma_decay := 999 / 1000;
  sigma_limit := 1 / 100;
  sigma_lrate := 20 / 100;
  sigma_max_change := 2 / 10;
  opt := default_params
|}.

Record State : Type := {
  mean : vec; fitness : vec; lrate : R; sigma : vec; acc : accum
}.

Definition set_sigma (s : State) (x : vec) : State :=
  {| mean := mean s; fitness := fitness s; lrate := lrate s; sigma := x;
     acc := acc s |}.

(** Modelled from the spec: [optimizer.step] and [optimizer.update] on
    the state dictionary. *)
Definition optimizer_step (theta_grad : vec) (s : State) (params : Params)
  : State :=
  let '(mean', acc') :=
    step_rule theta_grad (mean s) (lrate s) (acc s) (rule (opt params)) in
  {| mean := mean'; fitness := fitness s; lrate := lrate s; sigma := sigma s;
     acc := acc' |}.
Definition optimizer_update (s : State) (params : Params) : State :=
  {| mean := mean s; fitness := fitness s;
     lrate := update_lrate (lrate s) (opt params); sigma := sigma s;
     acc := acc s |}.

Variable self : Strategy.

Definition initialize_strategy (rng : PRNGKey) (params : Params) : State :=
  let initialization :=
    uniform rng (num_dims self) (init_min (opt params)) (init_max (opt params)) in
  {| mean := initialization;
     fitness := map (fun z => z - 200000000000) (zeros (popsize self));
     lrate := lrate_init (opt params);
     sigma := map (fun o => o * sigma_init params) (ones (num_dims self));
     acc := initialize_accum (num_dims self) |}.

Definition ask_noise (rng : PRNGKey) : mat :=
  let z_plus := normal rng (popsize self / 2) (num_dims self) in
  antithetic z_plus.

Definition ask_strategy (rng : PRNGKey) (state : State) (params : Params)
  : mat * State :=
  let z := ask_noise rng in
  let x := map (fun row => vadd (mean state) (vmul row (sigma state))) z in
  (x, state).

(** [jnp.minimum(fit_1, fit_2).argsort()[: self.elite_popsize]]. *)
Definition elite_indices (fit_1 fit_2 : vec) : list nat :=
  slice_to (elite_popsize self) (argsort (vmin fit_1 fit_2)).

Definition tell_strategy (x : mat) (fitness : vec) (state : State)
  (params : Params) : result State :=
  let half := (popsize self / 2)%nat in
  let noise := map (fun row => vdiv (vsub row (mean state)) (sigma state)) x in
  let noise_1 := firstn half noise in
  let fit_1 := firstn half fitness in
  let fit_2 := skipn half fitness in
  let elite_idx := elite_indices fit_1 fit_2 in
  let fitness_elite := take 0 elite_idx fit_1 ++ take 0 elite_idx fit_2 in
  let fit_diff := vsub (take 0 elite_idx fit_1) (take 0 elite_idx fit_2) in
  let fit_diff_noise :=
    dot_T (num_dims self) (take [] elite_idx noise_1) fit_diff in
  inv_elite <- py_truediv 1 (elite_popsize self) ;;
  let theta_grad := scale inv_elite fit_diff_noise in
  let state := optimizer_step theta_grad state params in
  let state := optimizer_update state params in
  let S := map (fun row => vdiv (vsub (vmul row row)
                                      (vmul (sigma state) (sigma state)))
                                (sigma state)) noise_1 in
  let rS := map (fun a => a / 2 - Jnp.mean fitness_elite) (vadd fit_1 fit_2) in
  let delta_sigma :=
    map (fun d => d / IZR (elite_popsize self)) (dot_vm (num_dims self) rS S) in
  let change_sigma := scale (sigma_lrate params) delta_sigma in
  let change_sigma :=
    vmin change_sigma (scale (sigma_max_change params) (sigma state)) in
  let change_sigma :=
    vmax change_sigma (scale (- sigma_max_change params) (sigma state)) in
  let state := set_sigma state (vsub (sigma state) change_sigma) in
  let state := set_sigma state (map (fun s => s * sigma_decay params) (sigma state)) in
  let state := set_sigma state (map (fun s => Rmax s (sigma_limit params)) (sigma state)) in
  Ok state.

(** The driver's loop: one [tell] for each evaluated batch; an
    exception ends it. *)
Definition tell_loop (batches : list (mat * vec)) (state : State)
  (params : Params) : result State :=
  fold_left (fun r b => s <- r ;; tell_strategy (fst b) (snd b) s params)
            batches (Ok state).
End Strategy.

End PEPG_ES.

(** ** Persistent ES ([strategies/persistent_es.py]) *)

Module Persistent_ES.
Import Optimizer.

Record Strategy : Type := { num_dims : nat; popsize : nat }.

Definition known_optimizer (opt_name : string) : bool :=
  existsb (String.eqb opt_name) ["sgd"; "adam"; "rmsprop"; "clipup"]%string.

(** [Persistent_ES.__init__]. *)
Definition init (num_dims popsize : nat) (opt_name : string) : result Strategy :=
  _ <- py_assert (Nat.even popsize) ;;
  _ <- py_assert (known_optimizer opt_name) ;;
  Ok {| num_dims := num_dims; popsize := popsize |}.

Section Strategy.
Context `{RandomStream} `{GradientOptimizer}.

Record Params : Type := {
  sigma_init : R; sigma_decay : R; sigma_limit : R;
  T : Z; K : Z;
  opt : OptParams
}.

Definition params_strategy (default_params : OptParams) : Params := {|
  sigma_init := 1 / 10;
  sigma_decay := 999 / 1000;
  sigma_limit := 1 / 10;
  T := 100;
  K := 10;
  opt := default_params
|}.

(** [lrate] and [acc] are the entries that [optimizer.initialize] merges
    into the dictionary. *)
Record State : Type := {
  mean : vec; pert_accum : mat; sigma : R; inner_step_counter : Z;
  lrate : R; acc : accum
}.

Definition set_pert_accum (s : State) (x : mat) : State :=
  {| mean := mean s; pert_accum := x; sigma := sigma s;
     inner_step_counter := inner_step_counter s; lrate := lrate s;
     acc := acc s |}.
Definition set_sigma (s : State) (x : R) : State :=
  {| mean := mean s; pert_accum := pert_accum s; sigma := x;
     inner_step_counter := inner_step_counter s; lrate := lrate s;
     acc := acc s |}.
Definition set_inner_step_counter (s : State) (x : Z) : State :=
  {| mean := mean s; pert_accum := pert_accum s; sigma := sigma s;
     inner_step_counter := x; lrate := lrate s; acc := acc s |}.

(** Modelled from the spec: [optimizer.step] and [optimizer.update] on
    the state dictionary. *)
Definition optimizer_step (theta_grad : vec) (s : State) (params : Params)
  : State :=
  let '(mean', acc') :=
    step_rule theta_grad (mean s) (lrate s) (acc s) (rule (opt params)) in
  {| mean := mean'; pert_accum := pert_accum s; sigma := sigma s;
     inner_step_counter := inner_step_counter s; lrate := lrate s;
     acc := acc' |}.
Definition optimizer_update (s : State) (params : Params) : State :=
  {| mean := mean s; pert_accum := pert_accum s; sigma := sigma s;
     inner_step_counter := inner_step_counter s;
     lrate := update_lrate (lrate s) (opt params); acc := acc s |}.

Variable self : Strategy.

Definition initialize_strategy (rng : PRNGKey) (params : Params) : State :=
  let initialization :=
    uniform rng (num_dims self) (init_min (opt params)) (init_max (opt params)) in
  {| mean := initialization;
     pert_accum := zeros2 (popsize self) (num_dims self);
     sigma := sigma_init params;
     inner_step_counter := 0;
     lrate := lrate_init (opt params);
     acc := initialize_accum (num_dims self) |}.

(** The antithetic perturbations [perts] of [ask_strategy]. *)
Definition ask_perts (rng : PRNGKey) (state : State) : mat :=
  let pos_perts :=
    map (map (fun z => z * sigma state))
        (normal rng (popsize self / 2) (num_dims self)) in
  let neg_perts := map (map Ropp) pos_perts in
  pos_perts ++ neg_perts.

(** [y] has one row per perturbation and [num_dims] columns. *)
Definition ask_strategy (rng : PRNGKey) (state : State) (params : Params)
  : ndarray * State :=
  let perts := ask_perts rng state in
  let state := set_pert_accum state (madd (pert_accum state) perts) in
  let y := map (fun row => vadd (mean state) row) perts in
  (squeeze (length y) (num_dims self) y, state).

(** The counter is a 32-bit integer of JAX once a [tell] has stored it,
    and [T] and [K] are read as 32-bit integers: the sum wraps around. *)
Definition tell_strategy (x : mat) (fitness : vec) (state : State)
  (params : Params) : State :=
  let theta_grad :=
    mean_axis0 (num_dims self)
      (map2 (fun row f => map (fun a => a * f / (sigma state) ^ 2) row)
            (pert_accum state) fitness) in
  let state := optimizer_step theta_grad state params in
  let state := optimizer_update state params in
  let state :=
    set_inner_step_counter state
      (wrap32 (inner_step_counter state + K params)) in
  let state := set_sigma state (sigma state * sigma_decay params) in
  let state := set_sigma state (Rmax (sigma state) (sigma_limit params)) in
  let reset := (T params <=? inner_step_counter state)%Z in
  let state :=
    set_inner_step_counter state (select reset 0%Z (inner_step_counter state)) in
  let state :=
    set_pert_accum state
      (select reset (zeros2 (popsize self) (num_dims self)) (pert_accum state)) in
  state.

(** The driver's calls on one run, in order. *)
Inductive call : Type :=
| Ask (rng : PRNGKey)
| Tell (x : mat) (fitness : vec).

Definition is_tell (c : call) : bool :=
  match c with Tell _ _ => true | Ask _ => false end.

Definition step (params : Params) (state : State) (c : call) : State :=
  match c with
  | Ask rng => snd (ask_strategy rng state params)
  | Tell x fitness => tell_strategy x fitness state params
  end.

Definition run (calls : list call) (state : State) (params : Params) : State :=
  fold_left (step params) calls state.
End Strategy.

End Persistent_ES.

(** ** Particle swarm ([strategies/pso_es.py]) *)

Module PSO_ES.

Record State : Type := {
  archive : mat; fitness : vec; velocity : mat;
  best_archive : mat; best_fitness : vec
}.

(** [tell]; [replace] is a boolean array that the arithmetic reads as
    zeros and ones, and [expand_dims(replace, 1)] scales whole rows. *)
Definition tell (x : mat) (fitness : vec) (state : State) : State :=
  let replace := map2 Rleb fitness (best_fitness state) in
  let best_archive' :=
    madd (map2 (fun b row => scale (b2r b) row) replace x)
         (map2 (fun b row => scale (1 - b2r b) row) replace (best_archive state)) in
  let best_fitness' :=
    vadd (map2 (fun b f => b2r b * f) replace fitness)
         (map2 (fun b f => (1 - b2r b) * f) replace (best_fitness state)) in
  {| archive := x; fitness := fitness; velocity := velocity state;
     best_archive := best_archive'; best_fitness := best_fitness' |}.

Record Strategy : Type := { num_dims : nat; popsize : nat }.

(** [PSO_ES.__init__]: the population size comes first, and nothing is
    asserted. *)
Definition init (popsize num_dims : nat) : Strategy :=
  {| num_dims := num_dims; popsize := popsize |}.

Record Params : Type := {
  inertia_coeff : R; cognitive_coeff : R; social_coeff : R;
  init_min : R; init_max : R
}.

Definition default_params : Params := {|
  inertia_coeff := 75 / 100;
  cognitive_coeff := 15 / 10;
  social_coeff := 2;
  init_min := -2;
  init_max := 2
|}.

(** [single_member_velocity]; [r1] and [r2] are the two entries of
    [jax.random.uniform(rng, (2,))]. *)
Definition single_member_velocity `{RandomStream} (rng : PRNGKey)
  (member_id : nat) (archive velocity best_archive : mat) (best_fitness : vec)
  (inertia_coeff cognitive_coeff social_coeff : R) : vec :=
  let r := uniform rng 2 0 1 in
  let r1 := nth 0 r 0 in
  let r2 := nth 1 r 0 in
  let global_best_id := argmin best_fitness in
  let global_best := nth global_best_id best_archive [] in
  let vel_new :=
    vadd (vadd (scale inertia_coeff (nth member_id velocity []))
               (scale (cognitive_coeff * r1)
                      (vsub (nth member_id best_archive [])
                            (nth member_id archive []))))
         (scale (social_coeff * r2)
                (vsub global_best (nth member_id archive []))) in
  vel_new.

Section Strategy.
Context `{RandomStream}.
(** [jax.random.split(rng, num)] is an external library call. *)
Variable split : PRNGKey -> nat -> list PRNGKey.
Variable self : Strategy.

Definition initialize (rng : PRNGKey) (params : Params) : State :=
  let archive :=
    uniform2 rng (popsize self) (num_dims self) (init_min params) (init_max params) in
  let fitness := map (fun z => z + 200000000000) (zeros (popsize self)) in
  {| archive := archive; fitness := fitness;
     velocity := zeros2 (popsize self) (num_dims self);
     best_archive := archive; best_fitness := fitness |}.

(** [ask]; [jax.vmap] runs [single_member_velocity] on each key with its
    member id, and [y] has one row per member and [num_dims] columns. *)
Definition ask (rng : PRNGKey) (state : State) (params : Params)
  : ndarray * State :=
  let rng_members := split rng (popsize self) in
  let member_ids := seq 0 (popsize self) in
  let vel :=
    map2 (fun k member_id =>
            single_member_velocity k member_id (archive state) (velocity state)
              (best_archive state) (best_fitness state)
              (inertia_coeff params) (cognitive_coeff params) (social_coeff params))
         rng_members member_ids in
  let y := madd (archive state) vel in
  (squeeze (length y) (num_dims self) y,
   {| archive := archive state; fitness := fitness state; velocity := vel;
      best_archive := best_archive state; best_fitness := best_fitness state |}).
End Strategy.

(** The driver's loop: one [tell] for each evaluated batch. *)
Definition tell_loop (batches : list (mat * vec)) (state : State) : State :=
  fold_left (fun s b => tell (fst b) (snd b) s) batches state.

End PSO_ES.

(** ** Separable NES ([v2/snes.py]) *)

Module SNES.

Record EvoState : Type := {
  mean : vec; sigma : vec; weights : vec; gen_counter : nat
}.

Record EvoParams : Type := {
  clip_min : R; clip_max : R; init_min : R; init_max : R;
  lrate_mean : R; lrate_sigma : R; sigma_init : R; temperature : R
}.

Record EvoUpdate : Type := { delta_mean : vec; delta_sigma : vec }.

(** [get_snes_weights]; the result is a column with one weight per rank. *)
Definition get_weight (popsize : nat) (i : nat) : R :=
  Rmax 0 (ln (INR popsize / 2 + 1) - ln (INR i)).

Definition get_snes_weights (popsize : nat) (use_baseline : bool) : vec :=
  let weights := map (get_weight popsize) (seq 1 popsize) in
  let weights_norm := map (fun w => w / Jnp.sum weights) weights in
  map (fun w => w - b2r use_baseline * (1 / INR popsize)) weights_norm.

Record Strategy : Type := {
  popsize : nat; num_dims : nat; strategy_sigma_init : R;
  strategy_temperature : R
}.

(** [params_strategy] for the default [param_dtype], [float32]. *)
Definition params_strategy (self : Strategy) : EvoParams := {|
  clip_min := - ((2 - / 2 ^ 23) * 2 ^ 127);
  clip_max := (2 - / 2 ^ 23) * 2 ^ 127;
  init_min := 0;
  init_max := 0;
  lrate_mean := 1;
  lrate_sigma := (3 + ln (INR (num_dims self))) / (5 * sqrt (INR (num_dims self)));
  sigma_init := strategy_sigma_init self;
  temperature := strategy_temperature self
|}.

Section Strategy.
Context `{RandomStream}.
(** [get_des_weights] of [evosax/strategies/des.py] is not among the
    sources. *)
Variable get_des_weights : nat -> R -> vec.
Variable self : Strategy.

Definition initialize_strategy (rng : PRNGKey) (params : EvoParams) : EvoState :=
  let initialization :=
    uniform rng (num_dims self) (init_min params) (init_max params) in
  let use_des_weights := Rltb 0 (temperature params) in
  let weights :=
    select use_des_weights
      (get_des_weights (popsize self) (temperature params))
      (get_snes_weights (popsize self) true) in
  {| mean := initialization;
     sigma := map (fun o => sigma_init params * o) (ones (num_dims self));
     weights := weights;
     gen_counter := 0 |}.

Definition ask_strategy (rng : PRNGKey) (state : EvoState) (params : EvoParams)
  : mat * EvoState :=
  let noise := normal rng (popsize self) (num_dims self) in
  let x := map (fun row => vadd (mean state) (vmul row (sigma state))) noise in
  (x, state).

Definition get_update_strategy (x : mat) (fitness : vec) (state : EvoState)
  (params : EvoParams) : EvoUpdate :=
  let s := map (fun row => vdiv (vsub row (mean state)) (sigma state)) x in
  let ranks := argsort fitness in
  let sorted_noise := take [] ranks s in
  let grad_mean :=
    sum_axis0 (num_dims self)
      (map2 (fun w row => scale w row) (weights state) sorted_noise) in
  let grad_sigma :=
    sum_axis0 (num_dims self)
      (map2 (fun w row => scale w (map (fun a => a ^ 2 - 1) row))
            (weights state) sorted_noise) in
  let delta_mean := vmul (scale (lrate_mean params) (sigma state)) grad_mean in
  let delta_sigma := map (fun g => exp (lrate_sigma params / 2 * g)) grad_sigma in
  {| delta_mean := delta_mean; delta_sigma := delta_sigma |}.

(** [jax.lax.pmean(a, "device")]: the mean of [a] over the devices, this
    one and its [peers]. *)
Definition pmean (peers : list vec) (a : vec) : vec :=
  mean_axis0 (num_dims self) (a :: peers).

(** [apply_update_strategy]; [peers] are the updates of the other
    devices on the axis. *)
Definition apply_update_strategy (peers : list EvoUpdate) (update : EvoUpdate)
  (state : EvoState) (params : EvoParams) : EvoState :=
  let delta_mean := pmean (map delta_mean peers) (delta_mean update) in
  let delta_sigma := pmean (map delta_sigma peers) (delta_sigma update) in
  let mean' := vadd (mean state) delta_mean in
  let sigma' := vmul (sigma state) delta_sigma in
  {| mean := mean'; sigma := sigma'; weights := weights state;
     gen_counter := gen_counter state |}.
End Strategy.

End SNES.

(** ** The formulas of the specification

    Written with explicit indices, to be compared with the array code. *)

(** The sum of [f i] for [i] below [n]. *)
Definition big_sum (n : nat) (f : nat -> R) : R := Jnp.sum (map f (seq 0 n)).

(** Entry [(i, j)] of a matrix. *)
Definition entry (m : mat) (i j : nat) : R := nth j (nth i m []) 0.

(** Open NES: [noise = (x - mean) / sigma] and the estimate
    [(1 / (P * sigma)) * noise^T * fitness]. *)
Definition nes_noise_spec (x : mat) (mean : vec) (sigma : R) (i j : nat) : R :=
  (entry x i j - nth j mean 0) / sigma.

Definition nes_gradient_spec (P D : nat) (x : mat) (fitness mean : vec)
  (sigma : R) : vec :=
  map (fun j => 1 / (INR P * sigma)
                * big_sum P (fun i => nes_noise_spec x mean sigma i j
                                      * nth i fitness 0))
      (seq 0 D).

(** Open NES: decay then floor, for [lrate] and for [sigma]. *)
Definition nes_decay_then_floor (s : Open_NES.State) (p : Open_NES.Params)
  : Open_NES.State :=
  {| Open_NES.mean := Open_NES.mean s;
     Open_NES.sigma :=
       Rmax (Open_NES.sigma s * Open_NES.sigma_decay p) (Open_NES.sigma_limit p);
     Open_NES.lrate :=
       Rmax (Open_NES.lrate s * Open_NES.lrate_decay p) (Open_NES.lrate_limit p);
     Open_NES.m := Open_NES.m s; Open_NES.v := Open_NES.v s;
     Open_NES.gen_counter := Open_NES.gen_counter s |}.

(** SNES: the noise [s = (x - mean) / sigma] with a vector [sigma], and
    the two updates. *)
Definition snes_noise_spec (x : mat) (mean sigma : vec) (i j : nat) : R :=
  (entry x i j - nth j mean 0) / nth j sigma 0.

Definition snes_delta_mean_spec (P D : nat) (lrate_mean : R)
  (sigma w : vec) (sorted_noise : nat -> nat -> R) : vec :=
  map (fun j => lrate_mean * nth j sigma 0
                * big_sum P (fun i => nth i w 0 * sorted_noise i j))
      (seq 0 D).

Definition snes_delta_sigma_spec (P D : nat) (lrate_sigma : R)
  (w : vec) (sorted_noise : nat -> nat -> R) : vec :=
  map (fun j => exp (lrate_sigma / 2
                     * big_sum P (fun i => nth i w 0 * ((sorted_noise i j) ^ 2 - 1))))
      (seq 0 D).

(** SNES: the weight of rank [i] as the claim words it, without the clamp
    at zero, and with it. *)
Definition snes_weight_unclamped (P i : nat) : R :=
  (ln (INR P / 2 + 1) - ln (INR i))
  / big_sum P (fun k => ln (INR P / 2 + 1) - ln (INR (S k)))
  - 1 / INR P.

Definition snes_weight_clamped (P i : nat) : R :=
  Rmax 0 (ln (INR P / 2 + 1) - ln (INR i))
  / big_sum P (fun k => Rmax 0 (ln (INR P / 2 + 1) - ln (INR (S k))))
  - 1 / INR P.

(** What [ask] draws, for a population [P]: the rows [z_plus] followed by
    their negations, [P] rows in all, row [P/2 + i] the negation of row
    [i], and every column of sum and of mean zero. *)
Definition antithetic_pairs (P D : nat) (z_plus z : mat) (neg : R -> R) : Prop :=
  z = z_plus ++ map (map neg) z_plus /\
  length z_plus = (P / 2)%nat /\
  length z = P /\
  (forall i j, (i < P / 2)%nat -> entry z (P / 2 + i) j = - entry z i j) /\
  sum_axis0 D z = zeros D /\
  mean_axis0 D z = zeros D.

(** An array of [P] rows and [D] columns whose second half is the
    negation of its first half. *)
Definition mirrored (P D : nat) (A : mat) : Prop :=
  exists B : mat,
    length B = (P / 2)%nat /\
    Forall (fun row => length row = D) B /\
    A = B ++ map (map Ropp) B.

(** * Properties *)

(** ** Lists and arrays *)

(** Linear arithmetic on lengths, with the array types unfolded. *)
Ltac len := unfold mat, vec in *; lia.

Section ListFacts.
Context {A B C : Type}.

Lemma map2_length (f : A -> B -> C) l1 l2 :
  length (map2 f l1 l2) = Nat.min (length l1) (length l2).
Proof.
  revert l2; induction l1 as [|a l1 IH]; intros [|b l2]; simpl; auto.
Qed.

Lemma map2_nth (f : A -> B -> C) l1 l2 i da db dc :
  (i < length l1)%nat -> (i < length l2)%nat ->
  nth i (map2 f l1 l2) dc = f (nth i l1 da) (nth i l2 db).
Proof.
  revert l2 i; induction l1 as [|a l1 IH]; intros [|b l2] [|i]; simpl;
    intros; try lia; auto.
  apply IH; lia.
Qed.

Lemma map2_map_l {A'} (f : A -> B -> C) (g : A' -> A) l1 l2 :
  map2 f (map g l1) l2 = map2 (fun a b => f (g a) b) l1 l2.
Proof.
  revert l2; induction l1 as [|a l1 IH]; intros [|b l2]; simpl; auto.
  now rewrite IH.
Qed.

Lemma map_snd_combine (l1 : list A) (l2 : list B) :
  length l1 = length l2 -> map snd (combine l1 l2) = l2.
Proof.
  revert l2; induction l1 as [|a l1 IH]; intros [|b l2]; simpl;
    intros; try discriminate; auto.
  f_equal; apply IH; lia.
Qed.
End ListFacts.

Lemma slice_to_nonneg {A} (n : Z) (l : list A) :
  (0 <= n)%Z -> slice_to n l = firstn (Z.to_nat n) l.
Proof.
  intros Hn; unfold slice_to.
  destruct (Z.leb_spec 0 n); [reflexivity | lia].
Qed.

Lemma StronglySorted_weaken {A} (P Q : A -> A -> Prop) l :
  (forall a b, P a b -> Q a b) -> StronglySorted P l -> StronglySorted Q l.
Proof.
  intros HPQ; induction 1 as [|x l Hs IH Hx]; constructor; auto.
  eapply Forall_impl; [|exact Hx]; auto.
Qed.

(** A prefix of a sorted list is below the rest of it. *)
Lemma StronglySorted_prefix {A} (P : A -> A -> Prop) l k a b :
  StronglySorted P l -> In a (firstn k l) -> In b (skipn k l) -> P a b.
Proof.
  intros Hs; revert k; induction Hs as [|x l Hs IH Hx]; intros [|k]; simpl;
    try contradiction.
  intros [<-|Ha] Hb.
  - rewrite Forall_forall in Hx; apply Hx.
    rewrite <- (firstn_skipn k l); apply in_or_app; now right.
  - eapply IH; eassumption.
Qed.

(** ** The sort behind [argsort] *)

Section ArgsortFacts.
Context {K : Type} (leb : K -> K -> bool).
Hypothesis leb_total : forall a b, leb a b = false -> leb b a = true.
Hypothesis leb_trans :
  forall a b c, leb a b = true -> leb b c = true -> leb a c = true.

Let le_key (x y : K * nat) : Prop := leb (fst x) (fst y) = true.

Lemma insert_perm x l : Permutation (insert leb x l) (x :: l).
Proof.
  induction l as [|y l IH]; simpl; auto.
  destruct (leb (fst x) (fst y)); auto.
  rewrite IH; apply perm_swap.
Qed.

Lemma isort_perm l : Permutation (isort leb l) l.
Proof.
  induction l as [|x l IH]; simpl; auto.
  rewrite insert_perm; auto.
Qed.

Lemma insert_sorted x l :
  StronglySorted le_key l -> StronglySorted le_key (insert leb x l).
Proof.
  induction 1 as [|y l Hs IH Hy]; simpl.
  - repeat constructor.
  - destruct (leb (fst x) (fst y)) eqn:E.
    + constructor; [constructor; assumption|].
      constructor; [exact E|].
      eapply Forall_impl; [|exact Hy].
      intros z Hz; unfold le_key in *; eapply leb_trans; eassumption.
    + constructor; [assumption|].
      eapply Permutation_Forall; [symmetry; apply insert_perm|].
      constructor; [apply leb_total, E | assumption].
Qed.

Lemma isort_sorted l : StronglySorted le_key (isort leb l).
Proof.
  induction l as [|x l IH]; simpl; [constructor | now apply insert_sorted].
Qed.

Lemma argsort_by_perm keys :
  Permutation (argsort_by leb keys) (seq 0 (length keys)).
Proof.
  unfold argsort_by.
  rewrite isort_perm, map_snd_combine; [reflexivity|].
  now rewrite length_seq.
Qed.

Lemma combine_seq_key (d : K) keys start x :
  In x (combine keys (seq start (length keys))) ->
  fst x = nth (snd x - start) keys d.
Proof.
  revert start; induction keys as [|k keys IH]; simpl; intros start Hin;
    [contradiction|].
  destruct Hin as [<-|Hin]; simpl.
  - now rewrite Nat.sub_diag.
  - assert (Hs : (S start <= snd x)%nat).
    { destruct x as [kx ix]; apply in_combine_r in Hin.
      apply in_seq in Hin; simpl; lia. }
    rewrite (IH _ Hin).
    replace (snd x - start)%nat with (S (snd x - S start)) by lia.
    reflexivity.
Qed.

Lemma argsort_by_sorted (d : K) keys :
  StronglySorted (fun i j => leb (nth i keys d) (nth j keys d) = true)
                 (argsort_by leb keys).
Proof.
  unfold argsort_by.
  assert (Hkey : Forall (fun x => fst x = nth (snd x) keys d)
                        (isort leb (combine keys (seq 0 (length keys))))).
  { eapply Permutation_Forall; [symmetry; apply isort_perm|].
    apply Forall_forall; intros x Hx.
    rewrite (combine_seq_key d keys 0 x Hx); now rewrite Nat.sub_0_r. }
  generalize (isort_sorted (combine keys (seq 0 (length keys)))).
  induction 1 as [|x l Hs IH Hx]; simpl; [constructor|].
  inversion Hkey as [|? ? Hx0 Hl]; subst.
  constructor; [now apply IH|].
  apply Forall_map.
  rewrite Forall_forall in *; intros y Hy.
  specialize (Hx y Hy); specialize (Hl y Hy); unfold le_key in Hx.
  now rewrite <- Hx0, <- Hl.
Qed.
End ArgsortFacts.

Lemma Rleb_le a b : Rleb a b = true <-> a <= b.
Proof. unfold Rleb; destruct (Rle_dec a b); split; intros; auto; discriminate. Qed.

Lemma Rleb_gt a b : Rleb a b = false <-> b < a.
Proof.
  unfold Rleb; destruct (Rle_dec a b); split; intros; auto; try discriminate; lra.
Qed.

Lemma argsort_perm keys : Permutation (argsort keys) (seq 0 (length keys)).
Proof. apply argsort_by_perm. Qed.

Lemma argsort_sorted keys :
  StronglySorted (fun i j => nth i keys 0 <= nth j keys 0) (argsort keys).
Proof.
  eapply StronglySorted_weaken; [|apply (argsort_by_sorted Rleb)].
  - intros i j Hij; apply Rleb_le; exact Hij.
  - intros a b E; apply Rleb_gt in E; apply Rleb_le; lra.
  - intros a b c H1 H2; apply Rleb_le in H1, H2; apply Rleb_le; lra.
Qed.

(** ** Python integers and floats *)

Lemma py_int_nonneg r : 0 <= r -> py_int r = Int_part r.
Proof. intros Hr; unfold py_int; destruct (Rle_dec 0 r); [reflexivity | lra]. Qed.

Lemma Int_part_bounds r : IZR (Int_part r) <= r < IZR (Int_part r) + 1.
Proof. destruct (base_Int_part r); lra. Qed.

Lemma Int_part_nonneg r : 0 <= r -> (0 <= Int_part r)%Z.
Proof.
  intros Hr; destruct (Int_part_bounds r) as [_ Hlt].
  assert (Hz : IZR (-1) < IZR (Int_part r)) by (simpl; lra).
  apply lt_IZR in Hz; lia.
Qed.

Lemma Int_part_le_nat r n : r <= INR n -> (Int_part r <= Z.of_nat n)%Z.
Proof.
  intros Hr; apply le_IZR; rewrite <- INR_IZR_INZ.
  destruct (Int_part_bounds r); lra.
Qed.

Lemma even_half n : Nat.even n = true -> (n = 2 * (n / 2))%nat.
Proof.
  intros He; apply Nat.even_spec in He; destruct He as [k ->].
  now rewrite Nat.mul_comm, Nat.div_mul, Nat.mul_comm by lia.
Qed.

Lemma INR_half n : Nat.even n = true -> INR n / 2 = INR (n / 2).
Proof.
  intros He; rewrite (even_half n He) at 1.
  rewrite mult_INR; simpl; lra.
Qed.

Lemma init_pepg_inv D P r name es :
  PEPG_ES.init D P r name = Ok es ->
  Nat.even P = true /\
  es = {| PEPG_ES.num_dims := D; PEPG_ES.popsize := P;
          PEPG_ES.elite_ratio := r;
          PEPG_ES.elite_popsize := py_int (INR P / 2 * r) |}.
Proof.
  unfold PEPG_ES.init.
  destruct (Nat.even P); simpl; [|discriminate].
  destruct (PEPG_ES.known_optimizer name); simpl; [|discriminate].
  intros [= <-]; auto.
Qed.

(** ** PEPG: the elite count and the elite pairs *)

(** C1.  A PEPG strategy built with an even population size [P] and an
    elite ratio [r] in [0, 1] has [elite_popsize = floor (P/2 * r)], and
    for every fitness batch of length [P] the elite indices that
    [tell_strategy] selects are [elite_popsize] distinct mirrored pairs
    whose [min(fit_1, fit_2)] is below that of every pair left out. *)
Theorem C1_pepg_elite_pairs :
  forall (D P : nat) (r : R) (name : string) (es : PEPG_ES.Strategy),
    PEPG_ES.init D P r name = Ok es ->
    0 <= r <= 1 ->
    PEPG_ES.elite_popsize es = Int_part (INR P / 2 * r) /\
    forall fitness : vec,
      length fitness = P ->
      let fit_1 := firstn (P / 2) fitness in
      let fit_2 := skipn (P / 2) fitness in
      let elite := PEPG_ES.elite_indices es fit_1 fit_2 in
      length elite = Z.to_nat (PEPG_ES.elite_popsize es) /\
      NoDup elite /\
      (forall i, In i elite -> (i < P / 2)%nat) /\
      (forall i j, In i elite -> (j < P / 2)%nat -> ~ In j elite ->
         Rmin (nth i fit_1 0) (nth i fit_2 0) <=
         Rmin (nth j fit_1 0) (nth j fit_2 0)).
Proof.
  intros D P r name es Hinit Hr.
  apply init_pepg_inv in Hinit; destruct Hinit as [Heven ->].
  assert (Hx : 0 <= INR P / 2 * r).
  { rewrite (INR_half P Heven); apply Rmult_le_pos; [apply pos_INR | lra]. }
  assert (Hle : INR P / 2 * r <= INR (P / 2)).
  { rewrite (INR_half P Heven).
    pose proof (pos_INR (P / 2)); nra. }
  split; [apply (py_int_nonneg _ Hx)|].
  intros fitness Hlen fit_1 fit_2 elite.
  cbn [PEPG_ES.elite_popsize]; rewrite (py_int_nonneg _ Hx).
  pose proof (Int_part_nonneg _ Hx) as Hk0.
  pose proof (Int_part_le_nat _ _ Hle) as HkP.
  set (k := Int_part (INR P / 2 * r)) in *.
  pose proof (even_half P Heven) as HP.
  assert (Hl1 : length fit_1 = (P / 2)%nat)
    by (unfold fit_1; rewrite length_firstn; lia).
  assert (Hl2 : length fit_2 = (P / 2)%nat)
    by (unfold fit_2; rewrite length_skipn; lia).
  assert (Hlm : length (vmin fit_1 fit_2) = (P / 2)%nat)
    by (unfold vmin; rewrite map2_length; lia).
  pose proof (argsort_perm (vmin fit_1 fit_2)) as Hperm.
  rewrite Hlm in Hperm.
  assert (Hel : elite = firstn (Z.to_nat k) (argsort (vmin fit_1 fit_2))).
  { unfold elite, PEPG_ES.elite_indices; cbn [PEPG_ES.elite_popsize].
    rewrite (py_int_nonneg _ Hx); fold k.
    now apply slice_to_nonneg. }
  assert (Hin : forall i, In i (argsort (vmin fit_1 fit_2)) <-> (i < P / 2)%nat).
  { intros i; split; intros Hi.
    - apply (Permutation_in _ Hperm) in Hi; apply in_seq in Hi; lia.
    - apply (Permutation_in _ (Permutation_sym Hperm)); apply in_seq; lia. }
  assert (Hmin : forall i, (i < P / 2)%nat ->
            nth i (vmin fit_1 fit_2) 0 = Rmin (nth i fit_1 0) (nth i fit_2 0)).
  { intros i Hi; unfold vmin; apply map2_nth; lia. }
  rewrite Hel; repeat split.
  - rewrite length_firstn, (Permutation_length Hperm), length_seq; lia.
  - apply (NoDup_app_remove_r _ (skipn (Z.to_nat k) (argsort (vmin fit_1 fit_2)))).
    rewrite firstn_skipn.
    apply (Permutation_NoDup (Permutation_sym Hperm)), seq_NoDup.
  - intros i Hi; apply Hin.
    rewrite <- (firstn_skipn (Z.to_nat k)); apply in_or_app; now left.
  - intros i j Hi Hj Hnj.
    assert (Hi' : (i < P / 2)%nat).
    { apply Hin; rewrite <- (firstn_skipn (Z.to_nat k)); apply in_or_app; now left. }
    rewrite <- (Hmin i Hi'), <- (Hmin j Hj).
    apply (StronglySorted_prefix _ _ (Z.to_nat k) i j (argsort_sorted _) Hi).
    apply Hin in Hj.
    rewrite <- (firstn_skipn (Z.to_nat k)) in Hj.
    apply in_app_or in Hj; destruct Hj; [contradiction | assumption].
Qed.

(** ** Shapes of the drawn arrays *)

Lemma normal_rows `{RandomStream} k r c : length (normal k r c) = r.
Proof. unfold normal; now rewrite length_map, length_seq. Qed.

Lemma normal_cols `{RandomStream} k r c :
  Forall (fun row => length row = c) (normal k r c).
Proof.
  unfold normal; apply Forall_map, Forall_forall; intros i _.
  now rewrite length_map, length_seq.
Qed.

Lemma uniform_length `{RandomStream} k n lo hi : length (uniform k n lo hi) = n.
Proof. unfold uniform; now rewrite length_map, length_seq. Qed.

Lemma C1_pepg_elite_pairs_witness :
  let es := {| PEPG_ES.num_dims := 1; PEPG_ES.popsize := 4;
               PEPG_ES.elite_ratio := 1 / 2;
               PEPG_ES.elite_popsize := py_int (INR 4 / 2 * (1 / 2)) |} in
  let fitness := [3; 1; 2; 0] in
  let elite := PEPG_ES.elite_indices es [3; 1] [2; 0] in
  PEPG_ES.init 1 4 (1 / 2) "sgd" = Ok es /\
  PEPG_ES.elite_popsize es = Int_part (INR 4 / 2 * (1 / 2)) /\
  length elite = Z.to_nat (PEPG_ES.elite_popsize es) /\
  NoDup elite /\
  (forall i, In i elite -> (i < 2)%nat).
Proof.
  intros es fitness elite.
  assert (Hinit : PEPG_ES.init 1 4 (1 / 2) "sgd" = Ok es) by reflexivity.
  assert (Hr : 0 <= 1 / 2 <= 1) by lra.
  destruct (C1_pepg_elite_pairs 1 4 (1 / 2) "sgd" es Hinit Hr) as [Hk Hsel].
  destruct (Hsel fitness eq_refl) as (Hlen & Hnd & Hlt & _).
  repeat split; assumption.
Defined.

(** ** PEPG with an empty elite *)

Lemma py_int_fifth : py_int (INR 4 / 2 * (1 / 10)) = 0%Z.
Proof.
  rewrite py_int_nonneg by (simpl; lra).
  symmetry; apply Int_part_spec; simpl; lra.
Qed.

Lemma tell_pepg_zero_elite `{Optimizer.GradientOptimizer} es x fitness state params :
  PEPG_ES.elite_popsize es = 0%Z ->
  PEPG_ES.tell_strategy es x fitness state params = Raise ZeroDivisionError.
Proof. intros Hk; unfold PEPG_ES.tell_strategy; now rewrite Hk. Qed.

Lemma tell_pepg_ok `{Optimizer.GradientOptimizer} es x fitness state params :
  PEPG_ES.elite_popsize es <> 0%Z ->
  exists s', PEPG_ES.tell_strategy es x fitness state params = Ok s'.
Proof.
  intros Hk; unfold PEPG_ES.tell_strategy, py_truediv.
  destruct (Z.eqb_spec (PEPG_ES.elite_popsize es) 0); [contradiction|].
  simpl; eauto.
Qed.

(** C8.  With the default elite ratio [0.1] and a population of four the
    constructor succeeds with an elite count of zero, and every [tell]
    then stops at [1.0 / self.elite_popsize] with a [ZeroDivisionError]:
    the empty elite is not handled. *)
Theorem C8_pepg_zero_elite_raises :
  forall `{Optimizer.GradientOptimizer} (x : mat) (fitness : vec)
         (state : PEPG_ES.State) (params : PEPG_ES.Params),
  exists es,
    PEPG_ES.init 2 4 (1 / 10) "sgd" = Ok es /\
    PEPG_ES.elite_popsize es = 0%Z /\
    PEPG_ES.tell_strategy es x fitness state params = Raise ZeroDivisionError.
Proof.
  intros G x fitness state params.
  eexists; split; [reflexivity|].
  split; [apply py_int_fifth|].
  apply tell_pepg_zero_elite, py_int_fifth.
Qed.

(** ** The floors of [sigma] and [lrate] *)

Lemma tell_open_nes_floor adam es x fitness state params :
  let s' := Open_NES.tell_strategy adam es x fitness state params in
  Open_NES.sigma_limit params <= Open_NES.sigma s' /\
  Open_NES.lrate_limit params <= Open_NES.lrate s'.
Proof. simpl; split; apply Rmax_r. Qed.

Lemma tell_pepg_floor `{Optimizer.GradientOptimizer} es x fitness state params s' :
  PEPG_ES.tell_strategy es x fitness state params = Ok s' ->
  Forall (fun v => PEPG_ES.sigma_limit params <= v) (PEPG_ES.sigma s') /\
  Optimizer.lrate_limit (PEPG_ES.opt params) <= PEPG_ES.lrate s'.
Proof.
  unfold PEPG_ES.tell_strategy.
  destruct (py_truediv 1 (PEPG_ES.elite_popsize es)) as [inv|e]; simpl;
    [|discriminate].
  intros [= <-]; simpl; split.
  - apply Forall_map, Forall_forall; intros v _; apply Rmax_r.
  - unfold PEPG_ES.optimizer_step.
    destruct (Optimizer.step_rule _ _ _ _ _); simpl; apply Rmax_r.
Qed.

Lemma tell_loop_pepg_ok `{Optimizer.GradientOptimizer} es batches state params :
  PEPG_ES.elite_popsize es <> 0%Z ->
  exists s', PEPG_ES.tell_loop es batches state params = Ok s'.
Proof.
  intros Hk; unfold PEPG_ES.tell_loop; revert state.
  induction batches as [|b batches IH]; intros state; simpl; [eauto|].
  destruct (tell_pepg_ok es (fst b) (snd b) state params Hk) as [s1 ->].
  apply IH.
Qed.

Lemma tell_persistent_floor `{RandomStream} `{Optimizer.GradientOptimizer}
  es x fitness state params :
  let s' := Persistent_ES.tell_strategy es x fitness state params in
  Persistent_ES.sigma_limit params <= Persistent_ES.sigma s' /\
  Optimizer.lrate_limit (Persistent_ES.opt params) <= Persistent_ES.lrate s'.
Proof.
  simpl; split; [apply Rmax_r|].
  unfold Persistent_ES.optimizer_step.
  destruct (Optimizer.step_rule _ _ _ _ _); simpl; apply Rmax_r.
Qed.

Lemma ask_persistent_frame `{RandomStream} `{Optimizer.GradientOptimizer}
  es rng state params :
  let s' := snd (Persistent_ES.ask_strategy es rng state params) in
  Persistent_ES.sigma s' = Persistent_ES.sigma state /\
  Persistent_ES.lrate s' = Persistent_ES.lrate state /\
  Persistent_ES.inner_step_counter s' = Persistent_ES.inner_step_counter state.
Proof. simpl; auto. Qed.

Lemma run_persistent_floor `{RandomStream} `{Optimizer.GradientOptimizer}
  es calls state params :
  existsb Persistent_ES.is_tell calls = true ->
  let s' := Persistent_ES.run es calls state params in
  Persistent_ES.sigma_limit params <= Persistent_ES.sigma s' /\
  Optimizer.lrate_limit (Persistent_ES.opt params) <= Persistent_ES.lrate s'.
Proof.
  unfold Persistent_ES.run.
  induction calls as [|c calls IH] using rev_ind; simpl; [discriminate|].
  rewrite existsb_app, fold_left_app; simpl.
  destruct c as [rng|x fitness]; simpl Persistent_ES.is_tell.
  - rewrite !orb_false_r; intros Ht.
    destruct (IH Ht) as [Hs Hl]; simpl; auto.
  - intros _; apply tell_persistent_floor.
Qed.

(** C3.  After one or more [tell] calls, from any state and so from an
    initialized one, [sigma] is at least [sigma_limit] (in each coordinate
    for PEPG, also after the adaptive change is subtracted) and [lrate] is
    at least [lrate_limit]: for Open NES, for PEPG, whose loop returns a
    state whenever the elite count is not zero, and for Persistent ES with
    [ask] calls in between. *)
Theorem C3_sigma_lrate_floors :
  forall `{RandomStream} `{Optimizer.GradientOptimizer},
    (forall adam es batches state params,
        batches <> [] ->
        let s' := Open_NES.tell_loop adam es batches state params in
        Open_NES.sigma_limit params <= Open_NES.sigma s' /\
        Open_NES.lrate_limit params <= Open_NES.lrate s') /\
    (forall es batches state params,
        batches <> [] ->
        (PEPG_ES.elite_popsize es <> 0%Z ->
         exists s', PEPG_ES.tell_loop es batches state params = Ok s') /\
        (forall s', PEPG_ES.tell_loop es batches state params = Ok s' ->
           Forall (fun v => PEPG_ES.sigma_limit params <= v) (PEPG_ES.sigma s') /\
           Optimizer.lrate_limit (PEPG_ES.opt params) <= PEPG_ES.lrate s')) /\
    (forall es calls state params,
        existsb Persistent_ES.is_tell calls = true ->
        let s' := Persistent_ES.run es calls state params in
        Persistent_ES.sigma_limit params <= Persistent_ES.sigma s' /\
        Optimizer.lrate_limit (Persistent_ES.opt params) <= Persistent_ES.lrate s').
Proof.
  intros RS GO; repeat apply conj.
  - intros adam es batches state params Hne.
    destruct (exists_last Hne) as (pre & b & ->).
    unfold Open_NES.tell_loop; rewrite fold_left_app; simpl.
    apply tell_open_nes_floor.
  - intros es batches state params Hne; split.
    + intros Hk; now apply tell_loop_pepg_ok.
    + destruct (exists_last Hne) as (pre & b & ->).
      unfold PEPG_ES.tell_loop; rewrite fold_left_app; simpl.
      destruct (fold_left _ pre (Ok state)) as [s|e]; simpl;
        [|discriminate].
      intros s'; apply tell_pepg_floor.
  - intros es calls state params; apply run_persistent_floor.
Qed.

Lemma C3_sigma_lrate_floors_witness :
  let nes := {| Open_NES.num_dims := 1; Open_NES.popsize := 2 |} in
  let nes_params := Open_NES.params_strategy (-1) 1 in
  let nes_state := Open_NES.initialize_strategy nes 0%nat nes_params in
  let batch := ([[1]; [-1]], [1; 1]) in
  let pepg := {| PEPG_ES.num_dims := 1; PEPG_ES.popsize := 2;
                 PEPG_ES.elite_ratio := 1; PEPG_ES.elite_popsize := 1 |} in
  let pepg_params := PEPG_ES.params_strategy Optimizer.sgd_params in
  let pepg_state := PEPG_ES.initialize_strategy pepg 0%nat pepg_params in
  let pes := {| Persistent_ES.num_dims := 1; Persistent_ES.popsize := 2 |} in
  let pes_params := Persistent_ES.params_strategy Optimizer.sgd_params in
  let pes_state := Persistent_ES.initialize_strategy pes 0%nat pes_params in
  let pes_calls := [Persistent_ES.Ask 1%nat; Persistent_ES.Tell [[1]; [-1]] [1; 1]] in
  ([batch] <> [] /\
   Open_NES.sigma_limit nes_params
     <= Open_NES.sigma (Open_NES.tell_loop Open_NES.adam_step nes [batch] nes_state nes_params)) /\
  (PEPG_ES.elite_popsize pepg <> 0%Z /\
   exists s', PEPG_ES.tell_loop pepg [batch] pepg_state pepg_params = Ok s') /\
  (existsb Persistent_ES.is_tell pes_calls = true /\
   Persistent_ES.sigma_limit pes_params
     <= Persistent_ES.sigma (Persistent_ES.run pes pes_calls pes_state pes_params)).
Proof.
  intros nes nes_params nes_state batch pepg pepg_params pepg_state
         pes pes_params pes_state pes_calls.
  destruct (@C3_sigma_lrate_floors CounterStream Optimizer.SGD)
    as (Hnes & Hpepg & Hpes).
  assert (Hne : [batch] <> []) by discriminate.
  assert (Hk : PEPG_ES.elite_popsize pepg <> 0%Z) by discriminate.
  assert (Ht : existsb Persistent_ES.is_tell pes_calls = true) by reflexivity.
  split; [split|split; split].
  - exact Hne.
  - exact (proj1 (Hnes Open_NES.adam_step nes [batch] nes_state nes_params Hne)).
  - exact Hk.
  - exact (proj1 (Hpepg pepg [batch] pepg_state pepg_params Hne) Hk).
  - exact Ht.
  - exact (proj1 (Hpes pes pes_calls pes_state pes_params Ht)).
Defined.

(** ** Sums, columns and indexed sums *)

Lemma nth_map_zero (f : R -> R) l j :
  f 0 = 0 -> nth j (map f l) 0 = f (nth j l 0).
Proof.
  intros Hf; revert j; induction l as [|a l IH]; intros [|j]; simpl; auto.
Qed.

Lemma sum_app u v : Jnp.sum (u ++ v) = Jnp.sum u + Jnp.sum v.
Proof. induction u as [|a u IH]; simpl; [lra | rewrite IH; lra]. Qed.

Lemma sum_scale c v : Jnp.sum (map (Rmult c) v) = c * Jnp.sum v.
Proof. induction v as [|a v IH]; simpl; [lra | rewrite IH; lra]. Qed.

Lemma sum_opp v : Jnp.sum (map Ropp v) = - Jnp.sum v.
Proof. induction v as [|a v IH]; simpl; [lra | rewrite IH; lra]. Qed.

Lemma column_app j m m' : column j (m ++ m') = column j m ++ column j m'.
Proof. apply map_app. Qed.

Lemma column_length j m : length (column j m) = length m.
Proof. apply length_map. Qed.

Lemma column_nth j m i : nth i (column j m) 0 = entry m i j.
Proof.
  unfold column, entry; revert i; induction m as [|row m IH]; intros [|i];
    simpl; auto; now destruct j.
Qed.

Lemma column_map_rows (f : R -> R) j m :
  f 0 = 0 -> column j (map (map f) m) = map f (column j m).
Proof.
  intros Hf; unfold column; rewrite !map_map.
  apply map_ext; intros row; now apply nth_map_zero.
Qed.

Lemma map_const {A} (f : A -> R) (c : R) l :
  (forall a, In a l -> f a = c) -> map f l = repeat c (length l).
Proof.
  induction l as [|a l IH]; simpl; intros Hc; [reflexivity|].
  rewrite Hc, IH by auto; auto.
Qed.

Lemma big_sum_S n f : big_sum (S n) f = f 0%nat + big_sum n (fun i => f (S i)).
Proof.
  unfold big_sum; simpl; f_equal.
  now rewrite <- seq_shift, map_map.
Qed.

Lemma big_sum_ext n f g :
  (forall i, (i < n)%nat -> f i = g i) -> big_sum n f = big_sum n g.
Proof.
  intros Hfg; unfold big_sum; f_equal.
  apply map_ext_in; intros i Hi; apply in_seq in Hi; apply Hfg; lia.
Qed.

Lemma sum_big_sum v : Jnp.sum v = big_sum (length v) (fun i => nth i v 0).
Proof.
  induction v as [|a v IH]; [reflexivity|].
  simpl length; rewrite big_sum_S; simpl; now rewrite IH.
Qed.

Lemma dot_big_sum n u v :
  length u = n -> length v = n ->
  dot u v = big_sum n (fun i => nth i u 0 * nth i v 0).
Proof.
  intros Hu Hv; unfold dot, vmul.
  rewrite sum_big_sum, map2_length, Hu, Hv, Nat.min_id.
  apply big_sum_ext; intros i Hi.
  apply map2_nth; lia.
Qed.

Lemma sum_axis0_zero D m :
  (forall j, Jnp.sum (column j m) = 0) -> sum_axis0 D m = zeros D.
Proof.
  intros Hz; unfold sum_axis0, transpose, zeros.
  rewrite map_map, (map_const _ 0); [now rewrite length_seq | auto].
Qed.

Lemma mean_axis0_zero D m :
  (forall j, Jnp.sum (column j m) = 0) -> mean_axis0 D m = zeros D.
Proof.
  intros Hz; unfold mean_axis0, transpose, zeros.
  rewrite map_map, (map_const _ 0); [now rewrite length_seq|].
  intros j _; unfold Jnp.mean; rewrite Hz; lra.
Qed.

Lemma mirror_entry (f : R -> R) z i j :
  f 0 = 0 -> (i < length z)%nat ->
  entry (z ++ map (map f) z) (length z + i) j = f (entry (z ++ map (map f) z) i j).
Proof.
  intros Hf Hi; unfold entry.
  rewrite app_nth2, app_nth1 by lia.
  replace (length z + i - length z)%nat with i by lia.
  rewrite (nth_indep _ [] (map f [])) by (rewrite length_map; lia).
  rewrite map_nth; now apply nth_map_zero.
Qed.

Lemma init_open_nes_inv D P es :
  Open_NES.init D P = Ok es ->
  Nat.even P = true /\ es = {| Open_NES.num_dims := D; Open_NES.popsize := P |}.
Proof.
  unfold Open_NES.init; destruct (Nat.even P); simpl; [|discriminate].
  intros [= <-]; auto.
Qed.

Lemma init_persistent_inv D P name es :
  Persistent_ES.init D P name = Ok es ->
  Nat.even P = true /\
  es = {| Persistent_ES.num_dims := D; Persistent_ES.popsize := P |}.
Proof.
  unfold Persistent_ES.init; destruct (Nat.even P); simpl; [|discriminate].
  destruct (Persistent_ES.known_optimizer name); simpl; [|discriminate].
  intros [= <-]; auto.
Qed.

(** ** Antithetic sampling *)

Lemma antithetic_pairs_intro P D z_plus (neg : R -> R) :
  Nat.even P = true -> length z_plus = (P / 2)%nat ->
  (forall a, neg a = - a) ->
  antithetic_pairs P D z_plus (z_plus ++ map (map neg) z_plus) neg.
Proof.
  intros He Hl Hneg.
  assert (Hn0 : neg 0 = 0) by (rewrite Hneg; lra).
  assert (Hcol : forall j, Jnp.sum (column j (z_plus ++ map (map neg) z_plus)) = 0).
  { intros j; rewrite column_app, sum_app, column_map_rows by assumption.
    rewrite (map_ext neg Ropp Hneg), sum_opp; lra. }
  unfold antithetic_pairs; repeat split; auto.
  - rewrite length_app, length_map.
    transitivity (P / 2 + P / 2)%nat; [f_equal; exact Hl|].
    pose proof (even_half P He); lia.
  - intros i j Hi; rewrite <- Hl in Hi |- *.
    rewrite mirror_entry by assumption; apply Hneg.
  - now apply sum_axis0_zero.
  - now apply mean_axis0_zero.
Qed.

(** C9.  For Open NES, PEPG and Persistent ES built with an even
    population [P], the noise of [ask] is the [P/2] drawn rows followed by
    their exact negations, so that its sum and its mean over the
    population are the zero vector, whatever was drawn. *)
Theorem C9_antithetic_noise_sums_to_zero :
  forall `{RandomStream} `{Optimizer.GradientOptimizer} (rng : PRNGKey),
    (forall D P es,
        Open_NES.init D P = Ok es ->
        antithetic_pairs P D (normal rng (P / 2) D)
                         (Open_NES.ask_noise es rng) (Rmult (-1))) /\
    (forall D P r name es,
        PEPG_ES.init D P r name = Ok es ->
        antithetic_pairs P D (normal rng (P / 2) D)
                         (PEPG_ES.ask_noise es rng) (Rmult (-1))) /\
    (forall D P name es (state : Persistent_ES.State),
        Persistent_ES.init D P name = Ok es ->
        antithetic_pairs P D
          (map (map (fun z => z * Persistent_ES.sigma state)) (normal rng (P / 2) D))
          (Persistent_ES.ask_perts es rng state) Ropp).
Proof.
  intros RS GO rng; repeat apply conj.
  - intros D P es Hinit.
    apply init_open_nes_inv in Hinit; destruct Hinit as [He ->].
    apply antithetic_pairs_intro; auto using normal_rows; intros; lra.
  - intros D P r name es Hinit.
    apply init_pepg_inv in Hinit; destruct Hinit as [He ->].
    apply antithetic_pairs_intro; auto using normal_rows; intros; lra.
  - intros D P name es state Hinit.
    apply init_persistent_inv in Hinit; destruct Hinit as [He ->].
    apply antithetic_pairs_intro; auto.
    rewrite length_map; apply normal_rows.
Qed.

Lemma C9_antithetic_noise_sums_to_zero_witness :
  let nes := {| Open_NES.num_dims := 1; Open_NES.popsize := 2 |} in
  let pes := {| Persistent_ES.num_dims := 1; Persistent_ES.popsize := 2 |} in
  let pes_params := Persistent_ES.params_strategy Optimizer.sgd_params in
  let pes_state := Persistent_ES.initialize_strategy pes 0%nat pes_params in
  (Open_NES.init 1 2 = Ok nes /\
   antithetic_pairs 2 1 (normal 5%nat (2 / 2) 1)
                    (Open_NES.ask_noise nes 5%nat) (Rmult (-1))) /\
  (Persistent_ES.init 1 2 "adam" = Ok pes /\
   antithetic_pairs 2 1
     (map (map (fun z => z * Persistent_ES.sigma pes_state)) (normal 5%nat (2 / 2) 1))
     (Persistent_ES.ask_perts pes 5%nat pes_state) Ropp).
Proof.
  intros nes pes pes_params pes_state.
  destruct (@C9_antithetic_noise_sums_to_zero CounterStream Optimizer.SGD 5%nat)
    as (Hnes & _ & Hpes).
  assert (H1 : Open_NES.init 1 2 = Ok nes) by reflexivity.
  assert (H2 : Persistent_ES.init 1 2 "adam" = Ok pes) by reflexivity.
  split; split.
  - exact H1.
  - exact (Hnes 1%nat 2%nat nes H1).
  - exact H2.
  - exact (Hpes 1%nat 2%nat "adam"%string pes pes_state H2).
Defined.

(** ** Open NES: the update of [tell] *)

Lemma tell_open_nes_decay adam es x fitness state params :
  Open_NES.tell_strategy adam es x fitness state params =
  nes_decay_then_floor
    (adam state params (Open_NES.theta_grad es x fitness state)) params.
Proof. reflexivity. Qed.

Lemma tell_noise_entry x (state : Open_NES.State) i j :
  (i < length x)%nat ->
  (j < length (nth i x []))%nat -> (j < length (Open_NES.mean state))%nat ->
  entry (Open_NES.tell_noise x state) i j =
  nes_noise_spec x (Open_NES.mean state) (Open_NES.sigma state) i j.
Proof.
  intros Hi Hj Hm; unfold entry, Open_NES.tell_noise, nes_noise_spec.
  rewrite (nth_indep _ [] ((fun row => map (fun d => d / Open_NES.sigma state)
                                          (vsub row (Open_NES.mean state))) []))
    by (rewrite length_map; len).
  rewrite (map_nth (fun row => map (fun d => d / Open_NES.sigma state)
                                   (vsub row (Open_NES.mean state)))).
  rewrite nth_map_zero by lra.
  unfold vsub, entry; now rewrite (map2_nth _ _ _ _ 0 0) by assumption.
Qed.

Lemma theta_grad_spec es x fitness (state : Open_NES.State) :
  length x = Open_NES.popsize es ->
  length fitness = Open_NES.popsize es ->
  Forall (fun row => length row = Open_NES.num_dims es) x ->
  length (Open_NES.mean state) = Open_NES.num_dims es ->
  Open_NES.theta_grad es x fitness state =
  nes_gradient_spec (Open_NES.popsize es) (Open_NES.num_dims es) x fitness
                    (Open_NES.mean state) (Open_NES.sigma state).
Proof.
  intros Hx Hf Hrows Hm.
  unfold Open_NES.theta_grad, nes_gradient_spec, dot_T, transpose, scale.
  rewrite !map_map; apply map_ext_in; intros j Hj; apply in_seq in Hj.
  f_equal.
  rewrite (dot_big_sum (Open_NES.popsize es));
    [|rewrite column_length; unfold Open_NES.tell_noise; now rewrite length_map
     |assumption].
  apply big_sum_ext; intros i Hi; f_equal.
  rewrite column_nth; apply tell_noise_entry; try lia.
  rewrite Forall_forall in Hrows; rewrite Hrows; [lia | apply nth_In; lia].
Qed.

Lemma unscale_row mu sigma z :
  sigma <> 0 -> length z = length mu ->
  map (fun d => d / sigma) (vsub (vadd mu (scale sigma z)) mu) = z.
Proof.
  intros Hs; revert mu; induction z as [|a z IH]; intros [|b mu]; simpl;
    intros Hl; try discriminate; auto.
  f_equal; [field; assumption | apply IH; lia].
Qed.

Lemma ask_noise_open_nes_cols `{RandomStream} es rng :
  Forall (fun row => length row = Open_NES.num_dims es) (Open_NES.ask_noise es rng).
Proof.
  unfold Open_NES.ask_noise, antithetic; apply Forall_app; split.
  - apply normal_cols.
  - apply Forall_map; eapply Forall_impl; [|apply normal_cols].
    intros row Hrow; unfold vneg, scale; now rewrite length_map.
Qed.

Lemma tell_noise_inverts_ask `{RandomStream} es rng (state : Open_NES.State) params :
  length (Open_NES.mean state) = Open_NES.num_dims es ->
  Open_NES.sigma state <> 0 ->
  Open_NES.tell_noise (fst (Open_NES.ask_strategy es rng state params)) state =
  Open_NES.ask_noise es rng.
Proof.
  intros Hm Hs; unfold Open_NES.ask_strategy, Open_NES.tell_noise; simpl.
  rewrite map_map.
  transitivity (map (fun row : vec => row) (Open_NES.ask_noise es rng));
    [|apply map_id].
  apply map_ext_in; intros row Hrow.
  apply unscale_row; [assumption|].
  pose proof (ask_noise_open_nes_cols es rng) as Hc.
  rewrite Forall_forall in Hc; rewrite (Hc row Hrow); now symmetry.
Qed.

(** C4.  On a state with a mean of [num_dims] coordinates and a non-zero
    [sigma], [tell] of Open NES on a batch of the configured shape hands
    to the Adam step the estimate [(1 / (popsize * sigma)) * noise^T *
    fitness] with [noise = (x - mean) / sigma], then decays and floors
    [lrate] and [sigma]; and on the candidates that [ask] produced from
    the same state, which [ask] returns unchanged, the reconstructed noise
    is the antithetic noise that was drawn. *)
Theorem C4_open_nes_tell :
  forall `{RandomStream}
         (adam : Open_NES.State -> Open_NES.Params -> vec -> Open_NES.State)
         (es : Open_NES.Strategy) (rng : PRNGKey)
         (state : Open_NES.State) (params : Open_NES.Params),
    length (Open_NES.mean state) = Open_NES.num_dims es ->
    Open_NES.sigma state <> 0 ->
    (forall x fitness,
        length x = Open_NES.popsize es ->
        length fitness = Open_NES.popsize es ->
        Forall (fun row => length row = Open_NES.num_dims es) x ->
        (forall i j, (i < Open_NES.popsize es)%nat ->
                     (j < Open_NES.num_dims es)%nat ->
           entry (Open_NES.tell_noise x state) i j =
           (entry x i j - nth j (Open_NES.mean state) 0) / Open_NES.sigma state) /\
        Open_NES.tell_strategy adam es x fitness state params =
        nes_decay_then_floor
          (adam state params
             (nes_gradient_spec (Open_NES.popsize es) (Open_NES.num_dims es)
                x fitness (Open_NES.mean state) (Open_NES.sigma state)))
          params) /\
    snd (Open_NES.ask_strategy es rng state params) = state /\
    Open_NES.tell_noise (fst (Open_NES.ask_strategy es rng state params)) state =
    Open_NES.ask_noise es rng.
Proof.
  intros RS adam es rng state params Hm Hs; repeat apply conj.
  - intros x fitness Hx Hf Hrows; split.
    + intros i j Hi Hj.
      apply tell_noise_entry; try len.
      rewrite Forall_forall in Hrows; rewrite Hrows; [lia | apply nth_In; len].
    + rewrite tell_open_nes_decay, theta_grad_spec by assumption; reflexivity.
  - reflexivity.
  - now apply tell_noise_inverts_ask.
Qed.

Lemma C4_open_nes_tell_witness :
  let nes := {| Open_NES.num_dims := 1; Open_NES.popsize := 2 |} in
  let params := Open_NES.params_strategy (-1) 1 in
  let state := Open_NES.initialize_strategy nes 0%nat params in
  (length (Open_NES.mean state) = Open_NES.num_dims nes /\
   Open_NES.sigma state <> 0) /\
  Open_NES.tell_noise (fst (Open_NES.ask_strategy nes 3%nat state params)) state =
  Open_NES.ask_noise nes 3%nat.
Proof.
  intros nes params state.
  assert (Hm : length (Open_NES.mean state) = Open_NES.num_dims nes) by reflexivity.
  assert (Hs : Open_NES.sigma state <> 0) by (simpl; lra).
  split; [split; assumption|].
  exact (proj2 (proj2 (@C4_open_nes_tell CounterStream Open_NES.adam_step nes
                         3%nat state params Hm Hs))).
Defined.

(** ** Open NES under its default parameters *)

Lemma tell_open_nes_defaults adam es x fitness state lo hi :
  (forall s p g, Open_NES.sigma (adam s p g) = Open_NES.sigma s) ->
  (forall s p g, Open_NES.lrate (adam s p g) = Open_NES.lrate s) ->
  Open_NES.sigma state = 1 / 10 -> Open_NES.lrate state = 1 / 100 ->
  let s' := Open_NES.tell_strategy adam es x fitness state
              (Open_NES.params_strategy lo hi) in
  Open_NES.sigma s' = 1 / 10 /\ Open_NES.lrate s' = 1 / 100.
Proof.
  intros Hsig Hlr Hs Hl; simpl.
  rewrite Hsig, Hlr, Hs, Hl; split; apply Rmax_right; lra.
Qed.

Lemma tell_loop_open_nes_defaults adam es batches state lo hi :
  (forall s p g, Open_NES.sigma (adam s p g) = Open_NES.sigma s) ->
  (forall s p g, Open_NES.lrate (adam s p g) = Open_NES.lrate s) ->
  Open_NES.sigma state = 1 / 10 -> Open_NES.lrate state = 1 / 100 ->
  let s' := Open_NES.tell_loop adam es batches state
              (Open_NES.params_strategy lo hi) in
  Open_NES.sigma s' = 1 / 10 /\ Open_NES.lrate s' = 1 / 100.
Proof.
  intros Hsig Hlr; unfold Open_NES.tell_loop; revert state.
  induction batches as [|b batches IH]; intros state Hs Hl; simpl; [auto|].
  destruct (tell_open_nes_defaults adam es (fst b) (snd b) state lo hi
              Hsig Hlr Hs Hl) as [Hs' Hl'].
  apply IH; assumption.
Qed.

(** C10.  With the default parameters of Open NES, [sigma_init] is
    [sigma_limit] (0.1) and [lrate_init] is [lrate_limit] (0.01); for an
    Adam step that leaves [sigma] and [lrate] alone, after any number of
    [tell] calls from the initialized state [sigma] and [lrate] still have
    their initial values, so no [tell] lowers [sigma]. *)
Theorem C10_open_nes_defaults_stay :
  forall `{RandomStream}
         (adam : Open_NES.State -> Open_NES.Params -> vec -> Open_NES.State)
         (es : Open_NES.Strategy) (rng : PRNGKey) (lo hi : R)
         (batches : list (mat * vec)),
    (forall s p g, Open_NES.sigma (adam s p g) = Open_NES.sigma s) ->
    (forall s p g, Open_NES.lrate (adam s p g) = Open_NES.lrate s) ->
    let params := Open_NES.params_strategy lo hi in
    let s0 := Open_NES.initialize_strategy es rng params in
    let s' := Open_NES.tell_loop adam es batches s0 params in
    (Open_NES.sigma_init params = Open_NES.sigma_limit params /\
     Open_NES.sigma_limit params = 1 / 10) /\
    (Open_NES.lrate_init params = Open_NES.lrate_limit params /\
     Open_NES.lrate_limit params = 1 / 100) /\
    Open_NES.sigma s' = Open_NES.sigma s0 /\
    Open_NES.lrate s' = Open_NES.lrate s0 /\
    (forall x fitness,
        ~ Open_NES.sigma (Open_NES.tell_strategy adam es x fitness s' params)
          < Open_NES.sigma s').
Proof.
  intros RS adam es rng lo hi batches Hsig Hlr params s0 s'.
  assert (H0 : Open_NES.sigma s0 = 1 / 10 /\ Open_NES.lrate s0 = 1 / 100)
    by (split; reflexivity).
  destruct H0 as [Hs0 Hl0].
  destruct (tell_loop_open_nes_defaults adam es batches s0 lo hi
              Hsig Hlr Hs0 Hl0) as [Hs' Hl'].
  fold params in Hs', Hl'; fold s' in Hs', Hl'.
  repeat split; try reflexivity.
  - now rewrite Hs0.
  - now rewrite Hl0.
  - intros x fitness.
    destruct (tell_open_nes_defaults adam es x fitness s' lo hi
                Hsig Hlr Hs' Hl') as [Hs'' _].
    fold params in Hs''; rewrite Hs'', Hs'; lra.
Qed.

Lemma C10_open_nes_defaults_stay_witness :
  let nes := {| Open_NES.num_dims := 2; Open_NES.popsize := 4 |} in
  let params := Open_NES.params_strategy (-1) 1 in
  let s0 := Open_NES.initialize_strategy nes 0%nat params in
  let batch := ([[1; 0]; [0; 1]; [-1; 0]; [0; -1]], [1; 1; 1; 1]) in
  Open_NES.sigma (Open_NES.tell_loop Open_NES.adam_step nes [batch; batch] s0 params)
  = Open_NES.sigma s0.
Proof.
  intros nes params s0 batch.
  assert (Hsig : forall s p g,
             Open_NES.sigma (Open_NES.adam_step s p g) = Open_NES.sigma s)
    by reflexivity.
  assert (Hlr : forall s p g,
             Open_NES.lrate (Open_NES.adam_step s p g) = Open_NES.lrate s)
    by reflexivity.
  exact (proj1 (proj2 (proj2 (@C10_open_nes_defaults_stay CounterStream
           Open_NES.adam_step nes 0%nat (-1) 1 [batch; batch] Hsig Hlr)))).
Defined.

(** ** Persistent ES: the accumulator and the inner-step counter *)

Lemma wrap32_id (z : Z) :
  (- 2 ^ 31 <= z < 2 ^ 31)%Z -> wrap32 z = z.
Proof.
  intros Hz; unfold wrap32.
  rewrite Z.mod_small; lia.
Qed.

Lemma tell_persistent_reset `{Optimizer.GradientOptimizer} es x fitness
  (state : Persistent_ES.State) params :
  let c :=
    wrap32 (Persistent_ES.inner_step_counter state + Persistent_ES.K params) in
  let reset := (Persistent_ES.T params <=? c)%Z in
  let s' := Persistent_ES.tell_strategy es x fitness state params in
  Persistent_ES.inner_step_counter s' = (if reset then 0 else c)%Z /\
  Persistent_ES.pert_accum s' =
  (if reset
   then zeros2 (Persistent_ES.popsize es) (Persistent_ES.num_dims es)
   else Persistent_ES.pert_accum state).
Proof.
  unfold Persistent_ES.tell_strategy, Persistent_ES.optimizer_step.
  destruct (Optimizer.step_rule _ _ _ _ _); simpl; auto.
Qed.

Lemma madd_entry (a b : mat) i j :
  (i < length a)%nat -> (i < length b)%nat ->
  (j < length (nth i a []))%nat -> (j < length (nth i b []))%nat ->
  entry (madd a b) i j = entry a i j + entry b i j.
Proof.
  intros Ha Hb Hja Hjb; unfold entry, madd.
  rewrite (map2_nth vadd a b i [] [] []) by assumption.
  unfold vadd; now rewrite (map2_nth Rplus _ _ j 0 0 0) by assumption.
Qed.

Lemma tells_persistent_below_T `{RandomStream} `{Optimizer.GradientOptimizer}
  es batches (state : Persistent_ES.State) params :
  (0 <= Persistent_ES.K params)%Z ->
  (Persistent_ES.T params <= 2 ^ 31)%Z ->
  (- 2 ^ 31 <= Persistent_ES.inner_step_counter state)%Z ->
  (Persistent_ES.inner_step_counter state
   + Z.of_nat (length batches) * Persistent_ES.K params < Persistent_ES.T params)%Z ->
  let calls := map (fun b => Persistent_ES.Tell (fst b) (snd b)) batches in
  let s' := Persistent_ES.run es calls state params in
  Persistent_ES.inner_step_counter s' =
  (Persistent_ES.inner_step_counter state
   + Z.of_nat (length batches) * Persistent_ES.K params)%Z /\
  Persistent_ES.pert_accum s' = Persistent_ES.pert_accum state.
Proof.
  intros HK HT; unfold Persistent_ES.run; revert state.
  induction batches as [|b batches IH]; intros state Hlo Hlt.
  - simpl; split; [lia | reflexivity].
  - cbn [map fold_left Persistent_ES.step].
    destruct (tell_persistent_reset es (fst b) (snd b) state params) as [Hc Ha].
    cbn [length] in Hlt; rewrite Nat2Z.inj_succ in Hlt.
    rewrite wrap32_id in Hc, Ha by nia.
    destruct (Z.leb_spec (Persistent_ES.T params)
                (Persistent_ES.inner_step_counter state + Persistent_ES.K params));
      [nia|].
    destruct (IH (Persistent_ES.tell_strategy es (fst b) (snd b) state params))
      as [Hc' Ha'].
    + rewrite Hc; lia.
    + rewrite Hc; nia.
    + cbn zeta in Hc', Ha'; rewrite Hc', Ha', Hc, Ha.
      cbn [length]; rewrite Nat2Z.inj_succ; split; [lia | reflexivity].
Qed.

(** C2.  With 32-bit values for the counter, [K] and [T], a [tell] of
    Persistent ES adds [K] to the inner-step counter in 32-bit arithmetic;
    when the sum as stored reaches or exceeds [T] the counter and the
    accumulator are set to zero, and otherwise the counter keeps the
    stored sum and the accumulator is left as it was.  As long as the sum
    of the counter and [K] stays within the 32-bit range it is stored as
    it is: the reset then falls in exactly those [tell] calls in which the
    counter plus [K] reaches or exceeds [T], and no [tell] before that
    resets them.  An [ask] adds its antithetic perturbations to the
    accumulator, entry by entry, and leaves the counter alone. *)
Theorem C2_persistent_accumulator_reset :
  forall `{RandomStream} `{Optimizer.GradientOptimizer}
         (es : Persistent_ES.Strategy) (state : Persistent_ES.State)
         (params : Persistent_ES.Params),
    (int32 (Persistent_ES.inner_step_counter state) ->
     int32 (Persistent_ES.K params) ->
     int32 (Persistent_ES.T params) ->
     forall x fitness,
        let c :=
          wrap32 (Persistent_ES.inner_step_counter state + Persistent_ES.K params) in
        let s' := Persistent_ES.tell_strategy es x fitness state params in
        ((Persistent_ES.T params <= c)%Z ->
         Persistent_ES.inner_step_counter s' = 0%Z /\
         Persistent_ES.pert_accum s' =
         zeros2 (Persistent_ES.popsize es) (Persistent_ES.num_dims es)) /\
        ((c < Persistent_ES.T params)%Z ->
         Persistent_ES.inner_step_counter s' = c /\
         Persistent_ES.pert_accum s' = Persistent_ES.pert_accum state)) /\
    (int32 (Persistent_ES.inner_step_counter state) ->
     int32 (Persistent_ES.K params) ->
     int32 (Persistent_ES.T params) ->
     int32 (Persistent_ES.inner_step_counter state + Persistent_ES.K params) ->
     forall x fitness,
        let c := (Persistent_ES.inner_step_counter state + Persistent_ES.K params)%Z in
        let s' := Persistent_ES.tell_strategy es x fitness state params in
        ((Persistent_ES.T params <= c)%Z ->
         Persistent_ES.inner_step_counter s' = 0%Z /\
         Persistent_ES.pert_accum s' =
         zeros2 (Persistent_ES.popsize es) (Persistent_ES.num_dims es)) /\
        ((c < Persistent_ES.T params)%Z ->
         Persistent_ES.inner_step_counter s' = c /\
         Persistent_ES.pert_accum s' = Persistent_ES.pert_accum state)) /\
    (forall batches,
        int32 (Persistent_ES.inner_step_counter state) ->
        int32 (Persistent_ES.T params) ->
        (0 <= Persistent_ES.K params)%Z ->
        (Persistent_ES.inner_step_counter state
         + Z.of_nat (length batches) * Persistent_ES.K params
         < Persistent_ES.T params)%Z ->
        let calls := map (fun b => Persistent_ES.Tell (fst b) (snd b)) batches in
        let s' := Persistent_ES.run es calls state params in
        Persistent_ES.inner_step_counter s' =
        (Persistent_ES.inner_step_counter state
         + Z.of_nat (length batches) * Persistent_ES.K params)%Z /\
        Persistent_ES.pert_accum s' = Persistent_ES.pert_accum state) /\
    (forall rng,
        let perts := Persistent_ES.ask_perts es rng state in
        let s' := snd (Persistent_ES.ask_strategy es rng state params) in
        Persistent_ES.pert_accum s' = madd (Persistent_ES.pert_accum state) perts /\
        Persistent_ES.inner_step_counter s' = Persistent_ES.inner_step_counter state /\
        (forall i j,
            (i < length (Persistent_ES.pert_accum state))%nat ->
            (i < length perts)%nat ->
            (j < length (nth i (Persistent_ES.pert_accum state) []))%nat ->
            (j < length (nth i perts []))%nat ->
            entry (Persistent_ES.pert_accum s') i j =
            entry (Persistent_ES.pert_accum state) i j + entry perts i j)).
Proof.
  intros RS GO es state params; repeat apply conj.
  - intros _ _ _ x fitness c s'.
    destruct (tell_persistent_reset es x fitness state params) as [Hc Ha].
    fold c in Hc, Ha; fold s' in Hc, Ha.
    split; intros Hcmp;
      destruct (Z.leb_spec (Persistent_ES.T params) c); try lia; auto.
  - intros _ _ _ Hrange x fitness c s'.
    destruct (tell_persistent_reset es x fitness state params) as [Hc Ha].
    rewrite wrap32_id in Hc, Ha by exact Hrange.
    fold c in Hc, Ha; fold s' in Hc, Ha.
    split; intros Hcmp;
      destruct (Z.leb_spec (Persistent_ES.T params) c); try lia; auto.
  - intros batches Hc HT HK Hlt.
    apply tells_persistent_below_T; unfold int32 in *; try assumption; lia.
  - intros rng perts s'; repeat split.
    intros i j Hi Hi' Hj Hj'; now apply madd_entry.
Qed.

Lemma C2_persistent_accumulator_reset_witness :
  let pes := {| Persistent_ES.num_dims := 1; Persistent_ES.popsize := 2 |} in
  let params := Persistent_ES.params_strategy Optimizer.sgd_params in
  let s0 := Persistent_ES.initialize_strategy pes 0%nat params in
  let batch := ([[1]; [-1]], [1; 1]) in
  let calls := map (fun b => Persistent_ES.Tell (fst b) (snd b)) [batch; batch; batch] in
  (int32 (Persistent_ES.inner_step_counter s0) /\
   int32 (Persistent_ES.T params) /\
   (0 <= Persistent_ES.K params)%Z /\
   (Persistent_ES.inner_step_counter s0 + 3 * Persistent_ES.K params
    < Persistent_ES.T params)%Z) /\
  Persistent_ES.inner_step_counter (Persistent_ES.run pes calls s0 params) = 30%Z /\
  Persistent_ES.pert_accum (Persistent_ES.run pes calls s0 params) =
  Persistent_ES.pert_accum s0.
Proof.
  intros pes params s0 batch calls.
  destruct (@C2_persistent_accumulator_reset CounterStream Optimizer.SGD
              pes s0 params) as (_ & _ & Hrun & _).
  assert (H0 : int32 (Persistent_ES.inner_step_counter s0))
    by (unfold int32; simpl; lia).
  assert (HT : int32 (Persistent_ES.T params)) by (unfold int32; simpl; lia).
  assert (HK : (0 <= Persistent_ES.K params)%Z) by (simpl; lia).
  assert (Hlt : (Persistent_ES.inner_step_counter s0
                 + Z.of_nat (length [batch; batch; batch]) * Persistent_ES.K params
                 < Persistent_ES.T params)%Z) by (simpl; lia).
  split; [split; [exact H0 | split; [exact HT | split; [exact HK | exact Hlt]]]|].
  exact (Hrun [batch; batch; batch] H0 HT HK Hlt).
Defined.

(** The claim as worded, with the reset at every [tell] whose counter plus
    [K] reaches [T], fails where the sum leaves the 32-bit range: with
    [K = 1500000000] and [T = 2000000000] the second [tell] from the
    initialized state has the counter at [1500000000]; the sum
    [3000000000] is above [T], yet it is stored as [-1294967296], which is
    below [T], and the counter is not set to zero. *)
Lemma C2_counter_wrap_counterexample :
  let pes := {| Persistent_ES.num_dims := 1; Persistent_ES.popsize := 2 |} in
  let params :=
    @Persistent_ES.Build_Params Optimizer.SGD (1 / 10) (999 / 1000) (1 / 10)
      2000000000 1500000000 Optimizer.sgd_params in
  let s0 := Persistent_ES.initialize_strategy pes 0%nat params in
  let s1 := Persistent_ES.tell_strategy pes [[1]; [-1]] [1; 1] s0 params in
  let s2 := Persistent_ES.tell_strategy pes [[1]; [-1]] [1; 1] s1 params in
  (int32 (Persistent_ES.K params) /\ int32 (Persistent_ES.T params)) /\
  Persistent_ES.inner_step_counter s1 = 1500000000%Z /\
  (Persistent_ES.T params
   <= Persistent_ES.inner_step_counter s1 + Persistent_ES.K params)%Z /\
  Persistent_ES.inner_step_counter s2 = (-1294967296)%Z /\
  Persistent_ES.inner_step_counter s2 <> 0%Z.
Proof.
  intros pes params s0 s1 s2.
  split; [unfold int32; simpl; lia|].
  assert (H1 : Persistent_ES.inner_step_counter s1 = 1500000000%Z).
  { unfold s1.
    rewrite (proj1 (tell_persistent_reset pes [[1]; [-1]] [1; 1] s0 params)).
    reflexivity. }
  assert (H2 : Persistent_ES.inner_step_counter s2 = (-1294967296)%Z).
  { unfold s2.
    rewrite (proj1 (tell_persistent_reset pes [[1]; [-1]] [1; 1] s1 params)), H1.
    reflexivity. }
  split; [exact H1|].
  split; [rewrite H1; simpl; lia|].
  split; [exact H2|].
  rewrite H2; lia.
Qed.

(** ** Particle swarm: the personal bests *)

Lemma blend_keep (u v : vec) :
  length u = length v -> vadd (scale (b2r true) u) (scale (1 - b2r true) v) = u.
Proof.
  revert v; induction u as [|a u IH]; intros [|b v]; simpl; intros Hl;
    try discriminate; auto.
  unfold vadd, scale in *; simpl; f_equal; [lra | apply IH; lia].
Qed.

Lemma blend_drop (u v : vec) :
  length u = length v -> vadd (scale (b2r false) u) (scale (1 - b2r false) v) = v.
Proof.
  revert v; induction u as [|a u IH]; intros [|b v]; simpl; intros Hl;
    try discriminate; auto.
  unfold vadd, scale in *; simpl; f_equal; [lra | apply IH; lia].
Qed.

Section PSOTell.
Variables (x : mat) (fitness : vec) (state : PSO_ES.State) (P D i : nat).
Hypothesis Hf : length fitness = P.
Hypothesis Hbf : length (PSO_ES.best_fitness state) = P.
Hypothesis Hx : length x = P.
Hypothesis Hba : length (PSO_ES.best_archive state) = P.
Hypothesis Hxrows : Forall (fun row => length row = D) x.
Hypothesis Hbarows : Forall (fun row => length row = D) (PSO_ES.best_archive state).
Hypothesis Hi : (i < P)%nat.

Let replace := map2 Rleb fitness (PSO_ES.best_fitness state).
Let s' := PSO_ES.tell x fitness state.

Lemma pso_replace_nth :
  nth i replace false =
  Rleb (nth i fitness 0) (nth i (PSO_ES.best_fitness state) 0).
Proof. apply map2_nth; len. Qed.

Lemma pso_replace_length : length replace = P.
Proof. unfold replace; rewrite map2_length; len. Qed.

Lemma pso_best_fitness_nth :
  nth i (PSO_ES.best_fitness s') 0 =
  b2r (nth i replace false) * nth i fitness 0
  + (1 - b2r (nth i replace false)) * nth i (PSO_ES.best_fitness state) 0.
Proof.
  pose proof pso_replace_length as Hr.
  unfold s', PSO_ES.tell; simpl; fold replace; unfold vadd.
  rewrite (map2_nth Rplus _ _ i 0 0 0) by (rewrite map2_length; len).
  rewrite (map2_nth _ replace fitness i false 0 0) by len.
  now rewrite (map2_nth _ replace _ i false 0 0) by len.
Qed.

Lemma pso_best_archive_nth :
  nth i (PSO_ES.best_archive s') [] =
  vadd (scale (b2r (nth i replace false)) (nth i x []))
       (scale (1 - b2r (nth i replace false))
              (nth i (PSO_ES.best_archive state) [])).
Proof.
  pose proof pso_replace_length as Hr.
  unfold s', PSO_ES.tell; simpl; fold replace; unfold madd.
  rewrite (map2_nth vadd _ _ i [] [] []) by (rewrite map2_length; len).
  rewrite (map2_nth (fun b row => scale (b2r b) row) replace x i false [] [])
    by len.
  now rewrite (map2_nth (fun b row => scale (1 - b2r b) row) replace _ i false [] [])
    by len.
Qed.

Lemma pso_rows_agree :
  length (nth i x []) = length (nth i (PSO_ES.best_archive state) []).
Proof.
  rewrite Forall_forall in Hxrows, Hbarows.
  rewrite Hxrows, Hbarows; auto; apply nth_In; len.
Qed.

Lemma pso_tell_particle :
  nth i (PSO_ES.best_fitness s') 0 <= nth i (PSO_ES.best_fitness state) 0 /\
  (nth i fitness 0 <= nth i (PSO_ES.best_fitness state) 0 ->
   nth i (PSO_ES.best_archive s') [] = nth i x [] /\
   nth i (PSO_ES.best_fitness s') 0 = nth i fitness 0) /\
  (nth i (PSO_ES.best_fitness state) 0 < nth i fitness 0 ->
   nth i (PSO_ES.best_archive s') [] = nth i (PSO_ES.best_archive state) [] /\
   nth i (PSO_ES.best_fitness s') 0 = nth i (PSO_ES.best_fitness state) 0).
Proof.
  rewrite pso_best_fitness_nth, pso_best_archive_nth, pso_replace_nth.
  pose proof pso_rows_agree as Hrows.
  destruct (Rleb (nth i fitness 0) (nth i (PSO_ES.best_fitness state) 0)) eqn:E.
  - apply Rleb_le in E; rewrite (blend_keep _ _ Hrows); simpl.
    repeat split; intros; try lra.
  - apply Rleb_gt in E; rewrite (blend_drop _ _ Hrows); simpl.
    repeat split; intros; try lra.
Qed.
End PSOTell.

(** C7.  For a swarm of [P] particles in [D] dimensions, [tell] of PSO
    replaces [archive] and [fitness] by the evaluated batch, and for every
    particle the new personal best fitness is at most the old one; the
    personal best position and fitness become the new position and fitness
    exactly when the new fitness is at most the stored best (a tie
    updates), and stay as they were otherwise. *)
Theorem C7_pso_personal_best :
  forall (x : mat) (fitness : vec) (state : PSO_ES.State) (P D : nat),
    length fitness = P ->
    length (PSO_ES.best_fitness state) = P ->
    length x = P ->
    length (PSO_ES.best_archive state) = P ->
    Forall (fun row => length row = D) x ->
    Forall (fun row => length row = D) (PSO_ES.best_archive state) ->
    let s' := PSO_ES.tell x fitness state in
    PSO_ES.archive s' = x /\
    PSO_ES.fitness s' = fitness /\
    forall i, (i < P)%nat ->
      nth i (PSO_ES.best_fitness s') 0 <= nth i (PSO_ES.best_fitness state) 0 /\
      (nth i fitness 0 <= nth i (PSO_ES.best_fitness state) 0 ->
       nth i (PSO_ES.best_archive s') [] = nth i x [] /\
       nth i (PSO_ES.best_fitness s') 0 = nth i fitness 0) /\
      (nth i (PSO_ES.best_fitness state) 0 < nth i fitness 0 ->
       nth i (PSO_ES.best_archive s') [] = nth i (PSO_ES.best_archive state) [] /\
       nth i (PSO_ES.best_fitness s') 0 = nth i (PSO_ES.best_fitness state) 0).
Proof.
  intros x fitness state P D Hf Hbf Hx Hba Hxr Hbr s'.
  split; [reflexivity|]; split; [reflexivity|].
  intros i Hi; now apply (pso_tell_particle x fitness state P D i).
Qed.

Lemma C7_pso_personal_best_witness :
  let state := {| PSO_ES.archive := [[0; 0]; [0; 0]]; PSO_ES.fitness := [2; 2];
                  PSO_ES.velocity := [[0; 0]; [0; 0]];
                  PSO_ES.best_archive := [[0; 0]; [0; 0]];
                  PSO_ES.best_fitness := [2; 2] |} in
  let x := [[1; 2]; [3; 4]] in
  let fitness := [1; 5] in
  let s' := PSO_ES.tell x fitness state in
  PSO_ES.archive s' = x /\
  nth 0 (PSO_ES.best_fitness s') 0 <= nth 0 (PSO_ES.best_fitness state) 0 /\
  nth 1 (PSO_ES.best_fitness s') 0 <= nth 1 (PSO_ES.best_fitness state) 0.
Proof.
  intros state x fitness s'.
  assert (Hx : Forall (fun row : vec => length row = 2%nat) x)
    by (repeat constructor).
  assert (Hb : Forall (fun row : vec => length row = 2%nat)
                      (PSO_ES.best_archive state))
    by (repeat constructor).
  destruct (C7_pso_personal_best x fitness state 2 2
              eq_refl eq_refl eq_refl eq_refl Hx Hb) as (Ha & _ & Hi).
  split; [exact Ha|].
  split; [exact (proj1 (Hi 0%nat (Nat.lt_0_succ 1)))
         | exact (proj1 (Hi 1%nat (Nat.lt_succ_diag_r 1)))].
Defined.

(** ** SNES: the two phases of the update *)

Lemma nth_self_seq (a : vec) :
  map (fun j => nth j a 0) (seq 0 (length a)) = a.
Proof.
  apply (nth_ext _ _ 0 0); rewrite length_map, length_seq; [reflexivity|].
  intros j Hj.
  rewrite (nth_indep _ 0 ((fun j => nth j a 0) 0%nat))
    by (rewrite length_map, length_seq; exact Hj).
  rewrite (map_nth (fun j => nth j a 0)), seq_nth by exact Hj.
  reflexivity.
Qed.

Lemma map2_seq_from {A} (f : A -> R -> R) (h : nat -> R) (l : list A) d s :
  map2 f l (map h (seq s (length l))) =
  map (fun j => f (nth (j - s) l d) (h j)) (seq s (length l)).
Proof.
  revert s; induction l as [|a l IH]; intros s; simpl; [reflexivity|].
  rewrite Nat.sub_diag; f_equal.
  rewrite IH; apply map_ext_in; intros j Hj; apply in_seq in Hj.
  replace (j - s)%nat with (S (j - S s)) by lia; reflexivity.
Qed.

Lemma map2_seq {A} (f : A -> R -> R) (h : nat -> R) (l : list A) d n :
  length l = n ->
  map2 f l (map h (seq 0 n)) = map (fun j => f (nth j l d) (h j)) (seq 0 n).
Proof.
  intros <-; rewrite (map2_seq_from f h l d 0).
  apply map_ext; intros j; now rewrite Nat.sub_0_r.
Qed.

Lemma take_nth {A} (d : A) idx a i :
  (i < length idx)%nat -> nth i (take d idx a) d = nth (nth i idx 0%nat) a d.
Proof.
  intros Hi; unfold take.
  rewrite (nth_indep _ d ((fun k => nth k a d) 0%nat)) by (now rewrite length_map).
  now rewrite (map_nth (fun k => nth k a d)).
Qed.

Lemma nth_map_in (g : R -> R) (row : vec) j :
  (j < length row)%nat -> nth j (map g row) 0 = g (nth j row 0).
Proof.
  intros Hj; rewrite (nth_indep _ 0 (g 0)) by (now rewrite length_map).
  apply map_nth.
Qed.

(** A column of the weighted rows is an indexed sum. *)
Lemma weighted_column_sum (h : vec -> vec) (g : R -> R) (w : vec) (rows : mat) P D j :
  (forall row, length row = D -> nth j (h row) 0 = g (nth j row 0)) ->
  length w = P -> length rows = P ->
  Forall (fun row => length row = D) rows ->
  Jnp.sum (column j (map2 (fun wi row => scale wi (h row)) w rows)) =
  big_sum P (fun i => nth i w 0 * g (entry rows i j)).
Proof.
  intros Hh Hw Hr Hrows.
  rewrite sum_big_sum, column_length, map2_length, Hw, Hr, Nat.min_id.
  apply big_sum_ext; intros i Hi.
  rewrite column_nth; unfold entry.
  rewrite (map2_nth (fun wi row => scale wi (h row)) w rows i 0 [] []) by len.
  unfold scale; rewrite nth_map_zero by lra.
  rewrite Hh; [reflexivity|].
  rewrite Forall_forall in Hrows; apply Hrows, nth_In; len.
Qed.

Lemma pmean_single es (a : vec) :
  length a = SNES.num_dims es -> SNES.pmean es [] a = a.
Proof.
  intros Ha; unfold SNES.pmean, mean_axis0, transpose; rewrite map_map.
  transitivity (map (fun j => nth j a 0) (seq 0 (length a)));
    [|apply nth_self_seq].
  rewrite Ha; apply map_ext; intros j; unfold Jnp.mean, column; simpl; lra.
Qed.

Section SNESUpdate.
Variables (es : SNES.Strategy) (x : mat) (fitness : vec)
          (state : SNES.EvoState) (params : SNES.EvoParams).
Let P := SNES.popsize es.
Let D := SNES.num_dims es.
Hypothesis Hx : length x = P.
Hypothesis Hf : length fitness = P.
Hypothesis Hw : length (SNES.weights state) = P.
Hypothesis Hrows : Forall (fun row => length row = D) x.
Hypothesis Hm : length (SNES.mean state) = D.
Hypothesis Hs : length (SNES.sigma state) = D.

Let s : mat :=
  map (fun row => vdiv (vsub row (SNES.mean state)) (SNES.sigma state)) x.
Let ranks := argsort fitness.
Let sorted_noise := take [] ranks s.
Let noise_of_rank (i j : nat) : R :=
  snes_noise_spec x (SNES.mean state) (SNES.sigma state) (nth i ranks 0%nat) j.

Lemma snes_ranks_perm : Permutation ranks (seq 0 P).
Proof. unfold ranks; rewrite <- Hf; apply argsort_perm. Qed.

Lemma snes_ranks_length : length ranks = P.
Proof. now rewrite (Permutation_length snes_ranks_perm), length_seq. Qed.

Lemma snes_rank_lt i : (i < P)%nat -> (nth i ranks 0 < P)%nat.
Proof.
  intros Hi.
  assert (Hin : In (nth i ranks 0%nat) ranks)
    by (apply nth_In; now rewrite snes_ranks_length).
  apply (Permutation_in _ snes_ranks_perm), in_seq in Hin; lia.
Qed.

Lemma snes_noise_rows : Forall (fun row => length row = D) s.
Proof.
  unfold s; apply Forall_map; eapply Forall_impl; [|exact Hrows].
  intros row Hrow; unfold vdiv, vsub; rewrite !map2_length; len.
Qed.

Lemma snes_noise_entry r j :
  (r < P)%nat -> (j < D)%nat ->
  entry s r j = snes_noise_spec x (SNES.mean state) (SNES.sigma state) r j.
Proof.
  intros Hr Hj; unfold entry, s, snes_noise_spec.
  set (F := fun row => vdiv (vsub row (SNES.mean state)) (SNES.sigma state)).
  rewrite (nth_indep _ [] (F [])) by (rewrite length_map; len).
  rewrite (map_nth F); unfold F, vdiv, vsub.
  assert (Hrow : length (nth r x []) = D).
  { rewrite Forall_forall in Hrows; apply Hrows, nth_In; len. }
  rewrite (map2_nth Rdiv _ _ j 0 0 0) by (rewrite ?map2_length; len).
  now rewrite (map2_nth Rminus _ _ j 0 0 0) by len.
Qed.

Lemma snes_sorted_length : length sorted_noise = P.
Proof. unfold sorted_noise, take; now rewrite length_map, snes_ranks_length. Qed.

Lemma snes_sorted_rows : Forall (fun row => length row = D) sorted_noise.
Proof.
  unfold sorted_noise, take; apply Forall_map, Forall_forall; intros r Hr.
  apply (Permutation_in _ snes_ranks_perm), in_seq in Hr.
  pose proof snes_noise_rows as Hn; rewrite Forall_forall in Hn.
  apply Hn, nth_In; unfold s; rewrite length_map; len.
Qed.

Lemma snes_sorted_entry i j :
  (i < P)%nat -> (j < D)%nat -> entry sorted_noise i j = noise_of_rank i j.
Proof.
  intros Hi Hj; unfold entry, sorted_noise.
  rewrite take_nth by (now rewrite snes_ranks_length).
  apply snes_noise_entry; [now apply snes_rank_lt | assumption].
Qed.

Lemma snes_delta_mean :
  SNES.delta_mean (SNES.get_update_strategy es x fitness state params) =
  snes_delta_mean_spec P D (SNES.lrate_mean params) (SNES.sigma state)
                       (SNES.weights state) noise_of_rank.
Proof.
  unfold SNES.get_update_strategy; cbn [SNES.delta_mean].
  fold s; fold ranks; fold sorted_noise; fold D.
  unfold snes_delta_mean_spec, vmul, scale, sum_axis0, transpose.
  rewrite map_map, map2_map_l, (map2_seq _ _ _ 0 D Hs).
  apply map_ext_in; intros j Hj; apply in_seq in Hj; f_equal.
  rewrite (weighted_column_sum (fun row => row) (fun a => a) _ _ P D j);
    auto using snes_sorted_length, snes_sorted_rows.
  apply big_sum_ext; intros i Hi; f_equal.
  apply snes_sorted_entry; lia.
Qed.

Lemma snes_delta_sigma :
  SNES.delta_sigma (SNES.get_update_strategy es x fitness state params) =
  snes_delta_sigma_spec P D (SNES.lrate_sigma params)
                        (SNES.weights state) noise_of_rank.
Proof.
  unfold SNES.get_update_strategy; cbn [SNES.delta_sigma].
  fold s; fold ranks; fold sorted_noise; fold D.
  unfold snes_delta_sigma_spec, sum_axis0, transpose.
  rewrite !map_map.
  apply map_ext_in; intros j Hj; apply in_seq in Hj; do 2 f_equal.
  rewrite (weighted_column_sum (map (fun a => a ^ 2 - 1))
                               (fun a => a ^ 2 - 1) _ _ P D j);
    auto using snes_sorted_length, snes_sorted_rows.
  - apply big_sum_ext; intros i Hi; do 2 f_equal.
    f_equal; apply snes_sorted_entry; lia.
  - intros row Hrow; apply nth_map_in; lia.
Qed.

Lemma snes_delta_lengths :
  let u := SNES.get_update_strategy es x fitness state params in
  length (SNES.delta_mean u) = D /\ length (SNES.delta_sigma u) = D.
Proof.
  intros u; unfold u; rewrite snes_delta_mean, snes_delta_sigma.
  unfold snes_delta_mean_spec, snes_delta_sigma_spec.
  now rewrite !length_map, !length_seq.
Qed.
End SNESUpdate.

(** C5.  On a batch of the configured shape, [get_update] of SNES ranks
    the noise [s = (x - mean) / sigma] by ascending fitness ([ranks] is a
    permutation of the indices along which the fitness ascends) and
    returns [delta_mean = lrate_mean * sigma * sum_i (w_i * sorted_noise_i)]
    and [delta_sigma = exp (lrate_sigma / 2 * sum_i (w_i *
    (sorted_noise_i ^ 2 - 1)))]; on a single worker [apply_update] then
    gives [mean + delta_mean] and [sigma * delta_sigma]. *)
Theorem C5_snes_update :
  forall (es : SNES.Strategy) (x : mat) (fitness : vec)
         (state : SNES.EvoState) (params : SNES.EvoParams),
    length x = SNES.popsize es ->
    length fitness = SNES.popsize es ->
    length (SNES.weights state) = SNES.popsize es ->
    Forall (fun row => length row = SNES.num_dims es) x ->
    length (SNES.mean state) = SNES.num_dims es ->
    length (SNES.sigma state) = SNES.num_dims es ->
    let ranks := argsort fitness in
    let sorted_noise i j :=
      snes_noise_spec x (SNES.mean state) (SNES.sigma state) (nth i ranks 0%nat) j in
    let u := SNES.get_update_strategy es x fitness state params in
    let s' := SNES.apply_update_strategy es [] u state params in
    Permutation ranks (seq 0 (SNES.popsize es)) /\
    StronglySorted (fun a b => nth a fitness 0 <= nth b fitness 0) ranks /\
    SNES.delta_mean u =
    snes_delta_mean_spec (SNES.popsize es) (SNES.num_dims es)
      (SNES.lrate_mean params) (SNES.sigma state) (SNES.weights state) sorted_noise /\
    SNES.delta_sigma u =
    snes_delta_sigma_spec (SNES.popsize es) (SNES.num_dims es)
      (SNES.lrate_sigma params) (SNES.weights state) sorted_noise /\
    SNES.mean s' = vadd (SNES.mean state) (SNES.delta_mean u) /\
    SNES.sigma s' = vmul (SNES.sigma state) (SNES.delta_sigma u).
Proof.
  intros es x fitness state params Hx Hf Hw Hrows Hm Hs ranks sorted_noise u s'.
  destruct (snes_delta_lengths es x fitness state params Hx Hf Hw Hrows Hm Hs)
    as [Hlm Hls].
  fold u in Hlm, Hls.
  repeat apply conj.
  - now apply snes_ranks_perm.
  - apply argsort_sorted.
  - now apply snes_delta_mean.
  - now apply snes_delta_sigma.
  - unfold s', SNES.apply_update_strategy; cbn [SNES.mean map].
    now rewrite pmean_single.
  - unfold s', SNES.apply_update_strategy; cbn [SNES.sigma map].
    now rewrite pmean_single.
Qed.

Lemma C5_snes_update_witness :
  let es := {| SNES.popsize := 2; SNES.num_dims := 1;
               SNES.strategy_sigma_init := 1; SNES.strategy_temperature := 0 |} in
  let state := {| SNES.mean := [0]; SNES.sigma := [1];
                  SNES.weights := [1 / 2; - (1 / 2)]; SNES.gen_counter := 0 |} in
  let params := SNES.params_strategy es in
  let x := [[1]; [2]] in
  let fitness := [3; 1] in
  let u := SNES.get_update_strategy es x fitness state params in
  let s' := SNES.apply_update_strategy es [] u state params in
  SNES.mean s' = vadd (SNES.mean state) (SNES.delta_mean u) /\
  SNES.sigma s' = vmul (SNES.sigma state) (SNES.delta_sigma u).
Proof.
  intros es state params x fitness u s'.
  assert (Hrows : Forall (fun row : vec => length row = SNES.num_dims es) x)
    by (repeat constructor).
  exact (proj2 (proj2 (proj2 (proj2
           (C5_snes_update es x fitness state params
              eq_refl eq_refl eq_refl Hrows eq_refl eq_refl))))).
Defined.

(** ** SNES: the recombination weights *)

Lemma sum_seq_shift (f : nat -> R) n :
  Jnp.sum (map f (seq 1 n)) = big_sum n (fun k => f (S k)).
Proof. unfold big_sum; now rewrite <- seq_shift, map_map. Qed.

Lemma get_snes_weights_nth P i :
  (1 <= i <= P)%nat ->
  nth (i - 1) (SNES.get_snes_weights P true) 0 = snes_weight_clamped P i.
Proof.
  intros Hi; unfold SNES.get_snes_weights, snes_weight_clamped.
  rewrite sum_seq_shift, !map_map.
  set (F := fun k => SNES.get_weight P k
                     / big_sum P (fun k0 => SNES.get_weight P (S k0))
                     - b2r true * (1 / INR P)).
  rewrite (nth_indep _ 0 (F 0%nat)) by (rewrite length_map, length_seq; lia).
  rewrite (map_nth F), seq_nth by lia.
  replace (1 + (i - 1))%nat with i by lia.
  unfold F, SNES.get_weight; simpl b2r; lra.
Qed.

Lemma initialize_snes_weights `{RandomStream} des es rng params :
  let s0 := SNES.initialize_strategy des es rng params in
  (SNES.temperature params <= 0 ->
   SNES.weights s0 = SNES.get_snes_weights (SNES.popsize es) true) /\
  (0 < SNES.temperature params ->
   SNES.weights s0 = des (SNES.popsize es) (SNES.temperature params)).
Proof.
  simpl; unfold Rltb.
  destruct (Rlt_dec 0 (SNES.temperature params)); simpl; split; intros; auto; lra.
Qed.

(** The weight that the clamp changes: rank four in a population of
    four. *)
Lemma ln_3_4 : ln 3 < ln 4.
Proof. apply ln_increasing; lra. Qed.

Lemma snes_weight_rank4_clamped : snes_weight_clamped 4 4 = - (1 / 4).
Proof.
  unfold snes_weight_clamped.
  replace (INR 4) with 4 by (simpl; lra).
  replace (4 / 2 + 1) with 3 by lra.
  rewrite (Rmax_left 0 (ln 3 - ln 4)) by (pose proof ln_3_4; lra).
  lra.
Qed.

Lemma snes_weight_rank4_unclamped : snes_weight_unclamped 4 4 < - (1 / 4).
Proof.
  unfold snes_weight_unclamped, big_sum; simpl.
  replace (1 + 1 + 1 + 1) with 4 by lra.
  replace (1 + 1 + 1) with 3 by lra.
  replace (4 / 2 + 1) with 3 by lra.
  replace (1 + 1) with 2 by lra.
  pose proof ln_3_4 as H34.
  assert (H23 : ln 2 < ln 3) by (apply ln_increasing; lra).
  assert (H4 : ln 4 = ln 2 + ln 2)
    by (replace 4 with (2 * 2) by lra; apply ln_mult; lra).
  rewrite ln_1.
  set (S' := ln 3 - 0 + (ln 3 - ln 2 + (ln 3 - ln 3 + (ln 3 - ln 4 + 0)))).
  assert (HS : 0 < S') by (unfold S'; lra).
  assert (Hq : (ln 3 - ln 4) / S' < 0).
  { pose proof (Rinv_0_lt_compat S' HS); unfold Rdiv; nra. }
  lra.
Qed.

(** C6, as amended.  With [temperature <= 0] the weights that
    [initialize_strategy] stores are, for each rank [i] from 1 to
    [popsize], [max(0, log(popsize/2 + 1) - log(i))] normalized to sum to
    one, minus the baseline [1/popsize]; with [temperature > 0] they are
    the temperature-weighted rank weights; and [ask] and [apply_update]
    return the weights they were given ([get_update] returns no state). *)
Theorem C6_snes_weights :
  forall `{RandomStream} (des : nat -> R -> vec) (es : SNES.Strategy)
         (rng : PRNGKey) (params : SNES.EvoParams),
    let s0 := SNES.initialize_strategy des es rng params in
    (SNES.temperature params <= 0 ->
     forall i, (1 <= i <= SNES.popsize es)%nat ->
       nth (i - 1) (SNES.weights s0) 0 = snes_weight_clamped (SNES.popsize es) i) /\
    (0 < SNES.temperature params ->
     SNES.weights s0 = des (SNES.popsize es) (SNES.temperature params)) /\
    (forall rng' state,
        SNES.weights (snd (SNES.ask_strategy es rng' state params)) =
        SNES.weights state) /\
    (forall peers update state,
        SNES.weights (SNES.apply_update_strategy es peers update state params) =
        SNES.weights state).
Proof.
  intros RS des es rng params s0.
  destruct (initialize_snes_weights des es rng params) as [Hcold Hhot].
  fold s0 in Hcold, Hhot.
  repeat apply conj; auto.
  intros Ht i Hi; rewrite (Hcold Ht); now apply get_snes_weights_nth.
Qed.

Lemma C6_snes_weights_witness :
  let es := {| SNES.popsize := 4; SNES.num_dims := 1;
               SNES.strategy_sigma_init := 1; SNES.strategy_temperature := 0 |} in
  let params := SNES.params_strategy es in
  let s0 := SNES.initialize_strategy (fun _ _ => []) es 0%nat params in
  SNES.temperature params <= 0 /\
  nth (4 - 1) (SNES.weights s0) 0 = snes_weight_clamped 4 4.
Proof.
  intros es params s0.
  assert (Ht : SNES.temperature params <= 0) by (simpl; lra).
  split; [exact Ht|].
  exact (proj1 (@C6_snes_weights CounterStream (fun _ _ => []) es 0%nat params)
               Ht 4%nat (conj (Nat.lt_0_succ 3) (Nat.le_refl 4))).
Defined.

(** C6, as first stated, fails: for rank four in a population of four the
    stored weight is [-1/4], below which the unclamped formula falls. *)
Lemma C6_unclamped_weights_counterexample :
  let es := {| SNES.popsize := 4; SNES.num_dims := 1;
               SNES.strategy_sigma_init := 1; SNES.strategy_temperature := 0 |} in
  let params := SNES.params_strategy es in
  let s0 := SNES.initialize_strategy (fun _ _ => []) es 0%nat params in
  SNES.temperature params <= 0 /\
  nth (4 - 1) (SNES.weights s0) 0 <> snes_weight_unclamped 4 4.
Proof.
  intros es params s0.
  assert (Ht : SNES.temperature params <= 0) by (simpl; lra).
  split; [exact Ht|].
  destruct (@initialize_snes_weights CounterStream (fun _ _ => []) es 0%nat params)
    as [Hcold _].
  fold s0 in Hcold; rewrite (Hcold Ht).
  change (SNES.popsize es) with 4%nat.
  rewrite (get_snes_weights_nth 4 4) by lia.
  rewrite snes_weight_rank4_clamped.
  pose proof snes_weight_rank4_unclamped; lra.
Qed.

(** * Further properties of the strategies *)

(** ** The candidates of [ask] *)

Lemma entry_map_rows (f : vec -> vec) (m : mat) i j :
  (i < length m)%nat -> entry (map f m) i j = nth j (f (nth i m [])) 0.
Proof.
  intros Hi; unfold entry.
  rewrite (nth_indep _ [] (f [])) by (rewrite length_map; len).
  now rewrite (map_nth f).
Qed.

Lemma mirror_rows_cols (f : R -> R) (z : mat) D :
  Forall (fun row => length row = D) z ->
  Forall (fun row => length row = D) (z ++ map (map f) z).
Proof.
  intros Hz; apply Forall_app; split; [assumption|].
  apply Forall_map; eapply Forall_impl; [|exact Hz].
  intros row Hrow; now rewrite length_map.
Qed.

(** Candidates built row by row from antithetic noise, each coordinate
    [mu_j + coef_j * noise], are mirrored about [mu]. *)
Lemma mirrored_candidates (shift : vec -> vec) (mu : vec) (coef : nat -> R)
  (P D : nat) (z_plus z : mat) (neg : R -> R) :
  (forall row, length row = D -> length (shift row) = D) ->
  (forall row j, length row = D -> (j < D)%nat ->
     nth j (shift row) 0 = nth j mu 0 + coef j * nth j row 0) ->
  antithetic_pairs P D z_plus z neg ->
  Forall (fun row => length row = D) z ->
  let x := map shift z in
  length x = P /\
  Forall (fun row => length row = D) x /\
  (forall i j, (i < P / 2)%nat -> (j < D)%nat ->
     entry x (P / 2 + i) j - nth j mu 0 = - (entry x i j - nth j mu 0)).
Proof.
  intros Hlen Hshift (Hz & Hzp & HzP & Hmir & _) Hcols x; unfold x.
  assert (Hrow : forall i, (i < P)%nat -> length (nth i z []) = D).
  { intros i Hi; rewrite Forall_forall in Hcols; apply Hcols, nth_In; len. }
  repeat split.
  - now rewrite length_map.
  - apply Forall_map; eapply Forall_impl; [|exact Hcols]; auto.
  - intros i j Hi Hj.
    assert (HP : (P / 2 + i < P)%nat).
    { rewrite <- HzP at 2; rewrite Hz, length_app, length_map; len. }
    rewrite !entry_map_rows by len.
    rewrite !Hshift by (auto; apply Hrow; lia).
    specialize (Hmir i j Hi); unfold entry in Hmir; rewrite Hmir; lra.
Qed.

Lemma vadd_scale_nth (mu row : vec) (sigma : R) D j :
  length mu = D -> length row = D -> (j < D)%nat ->
  nth j (vadd mu (scale sigma row)) 0 = nth j mu 0 + sigma * nth j row 0.
Proof.
  intros Hm Hr Hj; unfold vadd, scale.
  rewrite (map2_nth Rplus _ _ j 0 0 0) by (rewrite ?length_map; len).
  now rewrite nth_map_zero by lra.
Qed.

Lemma vadd_vmul_nth (mu row sigma : vec) D j :
  length mu = D -> length row = D -> length sigma = D -> (j < D)%nat ->
  nth j (vadd mu (vmul row sigma)) 0 = nth j mu 0 + nth j sigma 0 * nth j row 0.
Proof.
  intros Hm Hr Hs Hj; unfold vadd, vmul.
  rewrite (map2_nth Rplus _ _ j 0 0 0) by (rewrite ?map2_length; len).
  rewrite (map2_nth Rmult _ _ j 0 0 0) by len; lra.
Qed.

Lemma vadd_nth (mu row : vec) D j :
  length mu = D -> length row = D -> (j < D)%nat ->
  nth j (vadd mu row) 0 = nth j mu 0 + 1 * nth j row 0.
Proof.
  intros Hm Hr Hj; unfold vadd.
  rewrite (map2_nth Rplus _ _ j 0 0 0) by len; lra.
Qed.

(** X1.  For an Open NES strategy built with population [P] and dimension
    [D], on a state whose mean has [D] coordinates, [ask] returns the state
    as it is and a batch of [P] rows of [D] columns in which row
    [P/2 + i] is the mirror image of row [i] about the mean. *)
Theorem X1_open_nes_ask_batch :
  forall `{RandomStream} (D P : nat) (es : Open_NES.Strategy) (rng : PRNGKey)
         (state : Open_NES.State) (params : Open_NES.Params),
    Open_NES.init D P = Ok es ->
    length (Open_NES.mean state) = D ->
    let x := fst (Open_NES.ask_strategy es rng state params) in
    snd (Open_NES.ask_strategy es rng state params) = state /\
    length x = P /\
    Forall (fun row => length row = D) x /\
    (forall i j, (i < P / 2)%nat -> (j < D)%nat ->
       entry x (P / 2 + i) j - nth j (Open_NES.mean state) 0 =
       - (entry x i j - nth j (Open_NES.mean state) 0)).
Proof.
  intros RS D P es rng state params Hinit Hm x.
  apply init_open_nes_inv in Hinit; destruct Hinit as [He ->].
  split; [reflexivity|].
  apply (mirrored_candidates _ (Open_NES.mean state)
           (fun _ => Open_NES.sigma state) P D
           (normal rng (P / 2) D) _ (Rmult (-1))).
  - intros row Hrow; unfold vadd, scale; rewrite map2_length, length_map; len.
  - intros row j Hrow Hj; now apply (vadd_scale_nth _ _ _ D).
  - apply antithetic_pairs_intro; auto using normal_rows; intros; lra.
  - apply (mirror_rows_cols (Rmult (-1))), normal_cols.
Qed.

Lemma X1_open_nes_ask_batch_witness :
  let nes := {| Open_NES.num_dims := 1; Open_NES.popsize := 2 |} in
  let params := Open_NES.params_strategy (-1) 1 in
  let state := Open_NES.initialize_strategy nes 0%nat params in
  (Open_NES.init 1 2 = Ok nes /\ length (Open_NES.mean state) = 1%nat) /\
  length (fst (Open_NES.ask_strategy nes 3%nat state params)) = 2%nat.
Proof.
  intros nes params state.
  assert (Hi : Open_NES.init 1 2 = Ok nes) by reflexivity.
  assert (Hm : length (Open_NES.mean state) = 1%nat) by reflexivity.
  split; [split; assumption|].
  exact (proj1 (proj2 (@X1_open_nes_ask_batch CounterStream 1 2 nes 3%nat
                         state params Hi Hm))).
Defined.

(** X2.  For a PEPG strategy built with population [P] and dimension [D],
    on a state whose mean and sigma have [D] coordinates, [ask] returns the
    state as it is and a batch of [P] rows of [D] columns in which row
    [P/2 + i] is the mirror image of row [i] about the mean. *)
Theorem X2_pepg_ask_batch :
  forall `{RandomStream} `{Optimizer.GradientOptimizer} (D P : nat) (r : R)
         (name : string) (es : PEPG_ES.Strategy) (rng : PRNGKey)
         (state : PEPG_ES.State) (params : PEPG_ES.Params),
    PEPG_ES.init D P r name = Ok es ->
    length (PEPG_ES.mean state) = D ->
    length (PEPG_ES.sigma state) = D ->
    let x := fst (PEPG_ES.ask_strategy es rng state params) in
    snd (PEPG_ES.ask_strategy es rng state params) = state /\
    length x = P /\
    Forall (fun row => length row = D) x /\
    (forall i j, (i < P / 2)%nat -> (j < D)%nat ->
       entry x (P / 2 + i) j - nth j (PEPG_ES.mean state) 0 =
       - (entry x i j - nth j (PEPG_ES.mean state) 0)).
Proof.
  intros RS GO D P r name es rng state params Hinit Hm Hs x.
  apply init_pepg_inv in Hinit; destruct Hinit as [He ->].
  split; [reflexivity|].
  apply (mirrored_candidates _ (PEPG_ES.mean state)
           (fun j => nth j (PEPG_ES.sigma state) 0) P D
           (normal rng (P / 2) D) _ (Rmult (-1))).
  - intros row Hrow; unfold vadd, vmul; rewrite !map2_length; len.
  - intros row j Hrow Hj; now apply (vadd_vmul_nth _ _ _ D).
  - apply antithetic_pairs_intro; auto using normal_rows; intros; lra.
  - apply (mirror_rows_cols (Rmult (-1))), normal_cols.
Qed.

Lemma X2_pepg_ask_batch_witness :
  let pepg := {| PEPG_ES.num_dims := 1; PEPG_ES.popsize := 2;
                 PEPG_ES.elite_ratio := 1;
                 PEPG_ES.elite_popsize := py_int (INR 2 / 2 * 1) |} in
  let params := PEPG_ES.params_strategy Optimizer.sgd_params in
  let state := PEPG_ES.initialize_strategy pepg 0%nat params in
  (PEPG_ES.init 1 2 1 "sgd" = Ok pepg /\
   length (PEPG_ES.mean state) = 1%nat /\ length (PEPG_ES.sigma state) = 1%nat) /\
  length (fst (PEPG_ES.ask_strategy pepg 3%nat state params)) = 2%nat.
Proof.
  intros pepg params state.
  assert (Hi : PEPG_ES.init 1 2 1 "sgd" = Ok pepg) by reflexivity.
  assert (Hm : length (PEPG_ES.mean state) = 1%nat) by reflexivity.
  assert (Hs : length (PEPG_ES.sigma state) = 1%nat) by reflexivity.
  split; [repeat split; assumption|].
  exact (proj1 (proj2 (@X2_pepg_ask_batch CounterStream Optimizer.SGD 1 2 1
                         "sgd"%string pepg 3%nat state params Hi Hm Hs))).
Defined.

Lemma ask_perts_structure `{RandomStream} `{Optimizer.GradientOptimizer}
  es rng (state : Persistent_ES.State) :
  let pos := map (map (fun z => z * Persistent_ES.sigma state))
                 (normal rng (Persistent_ES.popsize es / 2) (Persistent_ES.num_dims es)) in
  Persistent_ES.ask_perts es rng state = pos ++ map (map Ropp) pos /\
  length pos = (Persistent_ES.popsize es / 2)%nat /\
  Forall (fun row => length row = Persistent_ES.num_dims es) pos.
Proof.
  intros pos; repeat split.
  - unfold pos; rewrite length_map; apply normal_rows.
  - unfold pos; apply Forall_map; eapply Forall_impl; [|apply normal_cols].
    intros row Hrow; now rewrite length_map.
Qed.

Lemma even_not_one (P : nat) : Nat.even P = true -> (P =? 1)%nat = false.
Proof.
  intros He; apply Nat.eqb_neq; intros ->; discriminate.
Qed.

(** X3.  For a Persistent ES strategy built with population [P] and
    dimension [D], on a state whose mean has [D] coordinates, [ask] changes
    nothing in the state but the accumulator, and what it returns is the
    squeezed form of a batch of [P] rows of [D] columns in which row
    [P/2 + i] is the mirror image of row [i] about the mean: the batch
    itself when [D] is not [1], and its one column as a flat array of [P]
    entries when [D] is [1]. *)
Theorem X3_persistent_ask_batch :
  forall `{RandomStream} `{Optimizer.GradientOptimizer} (D P : nat)
         (name : string) (es : Persistent_ES.Strategy) (rng : PRNGKey)
         (state : Persistent_ES.State) (params : Persistent_ES.Params),
    Persistent_ES.init D P name = Ok es ->
    length (Persistent_ES.mean state) = D ->
    let s' := snd (Persistent_ES.ask_strategy es rng state params) in
    (Persistent_ES.mean s' = Persistent_ES.mean state /\
     Persistent_ES.sigma s' = Persistent_ES.sigma state /\
     Persistent_ES.lrate s' = Persistent_ES.lrate state /\
     Persistent_ES.acc s' = Persistent_ES.acc state /\
     Persistent_ES.inner_step_counter s' = Persistent_ES.inner_step_counter state) /\
    exists y : mat,
      length y = P /\
      Forall (fun row => length row = D) y /\
      (forall i j, (i < P / 2)%nat -> (j < D)%nat ->
         entry y (P / 2 + i) j - nth j (Persistent_ES.mean state) 0 =
         - (entry y i j - nth j (Persistent_ES.mean state) 0)) /\
      fst (Persistent_ES.ask_strategy es rng state params) = squeeze P D y /\
      (D <> 1%nat ->
       fst (Persistent_ES.ask_strategy es rng state params) = Matrix y) /\
      (D = 1%nat ->
       fst (Persistent_ES.ask_strategy es rng state params) = Vector (column 0 y) /\
       length (column 0 y) = P).
Proof.
  intros RS GO D P name es rng state params Hinit Hm s'.
  apply init_persistent_inv in Hinit; destruct Hinit as [He ->].
  split; [repeat split|].
  destruct (ask_perts_structure
              {| Persistent_ES.num_dims := D; Persistent_ES.popsize := P |}
              rng state) as (Hp & Hl & Hc).
  cbn [Persistent_ES.popsize Persistent_ES.num_dims] in Hp, Hl, Hc.
  destruct (mirrored_candidates (fun row => vadd (Persistent_ES.mean state) row)
              (Persistent_ES.mean state) (fun _ => 1) P D
              (map (map (fun z => z * Persistent_ES.sigma state))
                   (normal rng (P / 2) D))
              (Persistent_ES.ask_perts
                 {| Persistent_ES.num_dims := D; Persistent_ES.popsize := P |}
                 rng state) Ropp) as (Hlen & Hcols & Hmir).
  - intros row Hrow; unfold vadd; rewrite map2_length; len.
  - intros row j Hrow Hj; now apply (vadd_nth _ _ D).
  - rewrite Hp; apply antithetic_pairs_intro; auto.
  - rewrite Hp; now apply mirror_rows_cols.
  - set (y := map (fun row => vadd (Persistent_ES.mean state) row)
                  (Persistent_ES.ask_perts
                     {| Persistent_ES.num_dims := D; Persistent_ES.popsize := P |}
                     rng state)) in *.
    assert (Hfst : fst (Persistent_ES.ask_strategy
                          {| Persistent_ES.num_dims := D; Persistent_ES.popsize := P |}
                          rng state params) = squeeze P D y).
    { unfold Persistent_ES.ask_strategy.
      cbn [fst Persistent_ES.mean Persistent_ES.set_pert_accum
           Persistent_ES.num_dims].
      fold y; now rewrite Hlen. }
    exists y; repeat apply conj; try assumption.
    + intros HD; rewrite Hfst; unfold squeeze.
      rewrite (even_not_one P He).
      apply Nat.eqb_neq in HD; now rewrite HD.
    + intros ->; split.
      * rewrite Hfst; unfold squeeze.
        now rewrite (even_not_one P He).
      * unfold column; now rewrite length_map.
Qed.

Lemma X3_persistent_ask_batch_witness :
  let pes := {| Persistent_ES.num_dims := 2; Persistent_ES.popsize := 2 |} in
  let params := Persistent_ES.params_strategy Optimizer.sgd_params in
  let state := Persistent_ES.initialize_strategy pes 0%nat params in
  (Persistent_ES.init 2 2 "adam" = Ok pes /\
   length (Persistent_ES.mean state) = 2%nat) /\
  exists y : mat,
    length y = 2%nat /\
    Forall (fun row => length row = 2%nat) y /\
    fst (Persistent_ES.ask_strategy pes 3%nat state params) = Matrix y.
Proof.
  intros pes params state.
  assert (Hi : Persistent_ES.init 2 2 "adam" = Ok pes) by reflexivity.
  assert (Hm : length (Persistent_ES.mean state) = 2%nat) by reflexivity.
  split; [split; assumption|].
  destruct (@X3_persistent_ask_batch CounterStream Optimizer.SGD 2 2
              "adam"%string pes 3%nat state params Hi Hm)
    as (_ & y & Hl & Hc & _ & _ & Hmat & _).
  exists y; repeat split; [exact Hl | exact Hc | apply Hmat; discriminate].
Defined.

(** ** Persistent ES: what the accumulator keeps *)

Lemma fold_left_invariant {S C : Type} (f : S -> C -> S) (I : S -> Prop) :
  (forall s c, I s -> I (f s c)) ->
  forall l s, I s -> I (fold_left f l s).
Proof.
  intros Hstep l; induction l as [|c l IH]; intros s Hs; simpl; auto.
Qed.

Lemma map2_app_same {A B C} (f : A -> B -> C) l1 l1' l2 l2' :
  length l1 = length l2 ->
  map2 f (l1 ++ l1') (l2 ++ l2') = map2 f l1 l2 ++ map2 f l1' l2'.
Proof.
  revert l2; induction l1 as [|a l1 IH]; intros [|b l2]; simpl;
    intros Hl; try discriminate; auto.
  f_equal; apply IH; lia.
Qed.

Lemma vadd_opp (u v : vec) :
  vadd (map Ropp u) (map Ropp v) = map Ropp (vadd u v).
Proof.
  revert v; induction u as [|a u IH]; intros [|b v]; simpl; auto.
  unfold vadd in *; simpl; f_equal; [lra | apply IH].
Qed.

Lemma madd_opp (a b : mat) :
  madd (map (map Ropp) a) (map (map Ropp) b) = map (map Ropp) (madd a b).
Proof.
  revert b; induction a as [|u a IH]; intros [|v b]; simpl; auto.
  unfold madd in *; simpl; f_equal; [apply vadd_opp | apply IH].
Qed.

Lemma madd_cols (a b : mat) D :
  Forall (fun row => length row = D) a ->
  Forall (fun row => length row = D) b ->
  Forall (fun row => length row = D) (madd a b).
Proof.
  intros Ha; revert b; induction Ha as [|u a Hu Ha IH]; intros b Hb;
    [constructor|].
  destruct Hb as [|v b Hv Hb]; [constructor|].
  unfold madd in *; simpl; constructor; [|now apply IH].
  unfold vadd; rewrite map2_length; len.
Qed.

Lemma mirrored_zeros P D : Nat.even P = true -> mirrored P D (zeros2 P D).
Proof.
  intros He; exists (zeros2 (P / 2) D); unfold zeros2; repeat split.
  - apply repeat_length.
  - apply Forall_forall; intros row Hrow; apply repeat_spec in Hrow; subst.
    apply repeat_length.
  - rewrite map_repeat.
    replace (map Ropp (zeros D)) with (zeros D)
      by (unfold zeros; now rewrite map_repeat, Ropp_0).
    rewrite <- repeat_app; f_equal.
    pose proof (even_half P He); lia.
Qed.

Lemma mirrored_madd P D A B :
  mirrored P D A -> mirrored P D B -> mirrored P D (madd A B).
Proof.
  intros (a & Hla & Hca & ->) (b & Hlb & Hcb & ->).
  exists (madd a b); repeat split.
  - unfold madd; rewrite map2_length; len.
  - now apply madd_cols.
  - unfold madd at 1; rewrite map2_app_same by len.
    fold (madd a b); f_equal; apply madd_opp.
Qed.

Lemma mirrored_facts P D A :
  Nat.even P = true -> mirrored P D A ->
  length A = P /\
  Forall (fun row => length row = D) A /\
  (forall i j, (i < P / 2)%nat -> entry A (P / 2 + i) j = - entry A i j) /\
  (forall j, Jnp.sum (column j A) = 0).
Proof.
  intros He (B & Hl & Hc & ->).
  destruct (antithetic_pairs_intro P D B Ropp He Hl (fun a => eq_refl))
    as (_ & _ & HP & Hmir & _).
  repeat split; auto.
  - now apply mirror_rows_cols.
  - intros j; rewrite column_app, sum_app, column_map_rows by lra.
    rewrite sum_opp; lra.
Qed.

Lemma step_persistent_mirrored `{RandomStream} `{Optimizer.GradientOptimizer}
  es params (s : Persistent_ES.State) c :
  Nat.even (Persistent_ES.popsize es) = true ->
  mirrored (Persistent_ES.popsize es) (Persistent_ES.num_dims es)
           (Persistent_ES.pert_accum s) ->
  mirrored (Persistent_ES.popsize es) (Persistent_ES.num_dims es)
           (Persistent_ES.pert_accum (Persistent_ES.step es params s c)).
Proof.
  intros He Hs; destruct c as [rng|x fitness]; cbn [Persistent_ES.step].
  - unfold Persistent_ES.ask_strategy; cbn [snd Persistent_ES.pert_accum
                                              Persistent_ES.set_pert_accum].
    apply mirrored_madd; [assumption|].
    destruct (ask_perts_structure es rng s) as (Hp & Hl & Hc).
    rewrite Hp; eexists; repeat split; eassumption.
  - destruct (tell_persistent_reset es x fitness s params) as [_ Ha].
    rewrite Ha; destruct (_ <=? _)%Z; [now apply mirrored_zeros | assumption].
Qed.

Lemma run_persistent_mirrored `{RandomStream} `{Optimizer.GradientOptimizer}
  es params rng calls :
  Nat.even (Persistent_ES.popsize es) = true ->
  mirrored (Persistent_ES.popsize es) (Persistent_ES.num_dims es)
    (Persistent_ES.pert_accum
       (Persistent_ES.run es calls
          (Persistent_ES.initialize_strategy es rng params) params)).
Proof.
  intros He; unfold Persistent_ES.run.
  apply (fold_left_invariant (Persistent_ES.step es params)
           (fun s => mirrored (Persistent_ES.popsize es) (Persistent_ES.num_dims es)
                              (Persistent_ES.pert_accum s))).
  - intros s c; now apply step_persistent_mirrored.
  - now apply mirrored_zeros.
Qed.

(** X4.  Along any sequence of [ask] and [tell] calls from the initialized
    state of a Persistent ES strategy, the accumulator has [P] rows of [D]
    columns, row [P/2 + i] is the negation of row [i], and every column
    sums to zero. *)
Theorem X4_persistent_accumulator_mirrored :
  forall `{RandomStream} `{Optimizer.GradientOptimizer} (D P : nat)
         (name : string) (es : Persistent_ES.Strategy) (rng : PRNGKey)
         (params : Persistent_ES.Params) (calls : list Persistent_ES.call),
    Persistent_ES.init D P name = Ok es ->
    let s := Persistent_ES.run es calls
               (Persistent_ES.initialize_strategy es rng params) params in
    length (Persistent_ES.pert_accum s) = P /\
    Forall (fun row => length row = D) (Persistent_ES.pert_accum s) /\
    (forall i j, (i < P / 2)%nat ->
       entry (Persistent_ES.pert_accum s) (P / 2 + i) j =
       - entry (Persistent_ES.pert_accum s) i j) /\
    sum_axis0 D (Persistent_ES.pert_accum s) = zeros D.
Proof.
  intros RS GO D P name es rng params calls Hinit s.
  apply init_persistent_inv in Hinit; destruct Hinit as [He ->].
  destruct (mirrored_facts P D (Persistent_ES.pert_accum s) He
              (run_persistent_mirrored
                 {| Persistent_ES.num_dims := D; Persistent_ES.popsize := P |}
                 params rng calls He))
    as (Hl & Hc & Hm & Hz).
  repeat split; auto.
  now apply sum_axis0_zero.
Qed.

Lemma X4_persistent_accumulator_mirrored_witness :
  let pes := {| Persistent_ES.num_dims := 1; Persistent_ES.popsize := 2 |} in
  let params := Persistent_ES.params_strategy Optimizer.sgd_params in
  let calls := [Persistent_ES.Ask 1%nat; Persistent_ES.Ask 2%nat] in
  let s := Persistent_ES.run pes calls
             (Persistent_ES.initialize_strategy pes 0%nat params) params in
  Persistent_ES.init 1 2 "adam" = Ok pes /\
  length (Persistent_ES.pert_accum s) = 2%nat.
Proof.
  intros pes params calls s.
  assert (Hi : Persistent_ES.init 1 2 "adam" = Ok pes) by reflexivity.
  split; [exact Hi|].
  exact (proj1 (@X4_persistent_accumulator_mirrored CounterStream Optimizer.SGD
                  1 2 "adam"%string pes 0%nat params calls Hi)).
Defined.

Lemma map2_repeat {A B C} (g : A -> B -> C) (l : list A) (c : B) n :
  length l = n -> map2 g l (repeat c n) = map (fun a => g a c) l.
Proof.
  intros <-; induction l as [|a l IH]; simpl; [reflexivity | now rewrite IH].
Qed.

Lemma sum_map_linear (h : R -> R) (k : R) (v : vec) :
  (forall a, h a = k * a) -> Jnp.sum (map h v) = k * Jnp.sum v.
Proof.
  intros Hh; rewrite (map_ext h (Rmult k) Hh); apply sum_scale.
Qed.

Lemma persistent_gradient_equal_fitness P D (A : mat) (sigma c : R) :
  Nat.even P = true -> mirrored P D A ->
  mean_axis0 D
    (map2 (fun row f => map (fun a => a * f / sigma ^ 2) row) A (repeat c P))
  = zeros D.
Proof.
  intros He HA.
  destruct (mirrored_facts P D A He HA) as (Hl & _ & _ & Hz).
  rewrite (map2_repeat _ A c P Hl).
  apply mean_axis0_zero; intros j.
  rewrite (column_map_rows (fun a => a * c / sigma ^ 2)) by (unfold Rdiv; lra).
  rewrite (sum_map_linear _ (c / sigma ^ 2)), Hz by (intros; unfold Rdiv; lra).
  lra.
Qed.

(** X5.  In any state that [ask] and [tell] calls reach from the
    initialized state of a Persistent ES strategy, a [tell] whose fitness
    values are all equal hands the optimizer the zero gradient: the new
    mean and accumulators are those of an optimizer step on the zero
    vector. *)
Theorem X5_persistent_equal_fitness_zero_gradient :
  forall `{RandomStream} `{Optimizer.GradientOptimizer} (D P : nat)
         (name : string) (es : Persistent_ES.Strategy) (rng : PRNGKey)
         (params : Persistent_ES.Params) (calls : list Persistent_ES.call)
         (x : mat) (c : R),
    Persistent_ES.init D P name = Ok es ->
    let s := Persistent_ES.run es calls
               (Persistent_ES.initialize_strategy es rng params) params in
    let s' := Persistent_ES.tell_strategy es x (repeat c P) s params in
    (Persistent_ES.mean s', Persistent_ES.acc s') =
    Optimizer.step_rule (zeros D) (Persistent_ES.mean s) (Persistent_ES.lrate s)
      (Persistent_ES.acc s) (Optimizer.rule (Persistent_ES.opt params)).
Proof.
  intros RS GO D P name es rng params calls x c Hinit s s'.
  apply init_persistent_inv in Hinit; destruct Hinit as [He ->].
  unfold s', Persistent_ES.tell_strategy.
  cbn [Persistent_ES.popsize Persistent_ES.num_dims].
  rewrite (persistent_gradient_equal_fitness P D _ _ c He
             (run_persistent_mirrored
                {| Persistent_ES.num_dims := D; Persistent_ES.popsize := P |}
                params rng calls He)).
  unfold Persistent_ES.optimizer_step.
  destruct (Optimizer.step_rule _ _ _ _ _); reflexivity.
Qed.

Lemma X5_persistent_equal_fitness_zero_gradient_witness :
  let pes := {| Persistent_ES.num_dims := 1; Persistent_ES.popsize := 2 |} in
  let params := Persistent_ES.params_strategy Optimizer.sgd_params in
  let s := Persistent_ES.run pes [Persistent_ES.Ask 1%nat]
             (Persistent_ES.initialize_strategy pes 0%nat params) params in
  let s' := Persistent_ES.tell_strategy pes [[1]; [-1]] (repeat 7 2) s params in
  Persistent_ES.init 1 2 "adam" = Ok pes /\
  (Persistent_ES.mean s', Persistent_ES.acc s') =
  Optimizer.step_rule (zeros 1) (Persistent_ES.mean s) (Persistent_ES.lrate s)
    (Persistent_ES.acc s) (Optimizer.rule (Persistent_ES.opt params)).
Proof.
  intros pes params s s'.
  assert (Hi : Persistent_ES.init 1 2 "adam" = Ok pes) by reflexivity.
  split; [exact Hi|].
  exact (@X5_persistent_equal_fitness_zero_gradient CounterStream Optimizer.SGD
           1 2 "adam"%string pes 0%nat params [Persistent_ES.Ask 1%nat]
           [[1]; [-1]] 7 Hi).
Defined.

(** ** Persistent ES: the inner-step counter *)

Lemma step_persistent_counter `{RandomStream} `{Optimizer.GradientOptimizer}
  es params (s : Persistent_ES.State) c :
  Persistent_ES.inner_step_counter (Persistent_ES.step es params s c) =
  (if Persistent_ES.is_tell c
   then if (Persistent_ES.T params
            <=? wrap32 (Persistent_ES.inner_step_counter s + Persistent_ES.K params))
        then 0
        else wrap32 (Persistent_ES.inner_step_counter s + Persistent_ES.K params)
   else Persistent_ES.inner_step_counter s)%Z.
Proof.
  destruct c as [rng|x fitness]; cbn [Persistent_ES.step Persistent_ES.is_tell].
  - reflexivity.
  - apply tell_persistent_reset.
Qed.

Lemma run_persistent_snoc `{RandomStream} `{Optimizer.GradientOptimizer}
  es params calls c (s : Persistent_ES.State) :
  Persistent_ES.run es (calls ++ [c]) s params =
  Persistent_ES.step es params (Persistent_ES.run es calls s params) c.
Proof. unfold Persistent_ES.run; now rewrite fold_left_app. Qed.

(** X6.  With [K >= 0], [T > 0] and [T + K <= 2^31], so that the counter
    plus [K] never leaves the 32-bit range, along any sequence of [ask]
    and [tell] calls from the initialized state of a Persistent ES
    strategy the inner-step counter stays in the range from [0] up to,
    not including, [T]. *)
Theorem X6_persistent_counter_range :
  forall `{RandomStream} `{Optimizer.GradientOptimizer}
         (es : Persistent_ES.Strategy) (rng : PRNGKey)
         (params : Persistent_ES.Params) (calls : list Persistent_ES.call),
    (0 <= Persistent_ES.K params)%Z ->
    (0 < Persistent_ES.T params)%Z ->
    (Persistent_ES.T params + Persistent_ES.K params <= 2 ^ 31)%Z ->
    let s := Persistent_ES.run es calls
               (Persistent_ES.initialize_strategy es rng params) params in
    (0 <= Persistent_ES.inner_step_counter s < Persistent_ES.T params)%Z.
Proof.
  intros RS GO es rng params calls HK HT Hfit s; unfold s, Persistent_ES.run.
  apply (fold_left_invariant (Persistent_ES.step es params)
           (fun s => (0 <= Persistent_ES.inner_step_counter s
                      < Persistent_ES.T params)%Z)).
  - intros s0 c Hs0; rewrite step_persistent_counter.
    destruct (Persistent_ES.is_tell c); [|assumption].
    rewrite wrap32_id by lia.
    destruct (Z.leb_spec (Persistent_ES.T params)
                (Persistent_ES.inner_step_counter s0 + Persistent_ES.K params)); lia.
  - simpl; lia.
Qed.

Lemma X6_persistent_counter_range_witness :
  let pes := {| Persistent_ES.num_dims := 1; Persistent_ES.popsize := 2 |} in
  let params := Persistent_ES.params_strategy Optimizer.sgd_params in
  let calls := [Persistent_ES.Ask 1%nat; Persistent_ES.Tell [[1]; [-1]] [1; 1]] in
  let s := Persistent_ES.run pes calls
             (Persistent_ES.initialize_strategy pes 0%nat params) params in
  ((0 <= Persistent_ES.K params)%Z /\ (0 < Persistent_ES.T params)%Z /\
   (Persistent_ES.T params + Persistent_ES.K params <= 2 ^ 31)%Z) /\
  (0 <= Persistent_ES.inner_step_counter s < Persistent_ES.T params)%Z.
Proof.
  intros pes params calls s.
  assert (HK : (0 <= Persistent_ES.K params)%Z) by (simpl; lia).
  assert (HT : (0 < Persistent_ES.T params)%Z) by (simpl; lia).
  assert (Hfit : (Persistent_ES.T params + Persistent_ES.K params <= 2 ^ 31)%Z)
    by (simpl; lia).
  split; [repeat split; assumption|].
  exact (@X6_persistent_counter_range CounterStream Optimizer.SGD pes 0%nat
           params calls HK HT Hfit).
Defined.

Lemma succ_mod_times (n q K : Z) :
  (0 < K)%Z -> (0 < q)%Z -> (0 <= n)%Z ->
  (if (q * K <=? (n mod q) * K + K)%Z then 0 else (n mod q) * K + K)%Z
  = (((n + 1) mod q) * K)%Z.
Proof.
  intros HK Hq Hn.
  pose proof (Z.mod_pos_bound n q Hq) as Hr.
  rewrite <- (Zplus_mod_idemp_l n 1 q).
  destruct (Z.eq_dec (n mod q + 1) q) as [E|E].
  - rewrite E, Z_mod_same_full.
    destruct (Z.leb_spec (q * K) (n mod q * K + K)); nia.
  - rewrite (Z.mod_small (n mod q + 1) q) by lia.
    destruct (Z.leb_spec (q * K) (n mod q * K + K)); nia.
Qed.

(** X7.  When [T] is [q] times [K], with [K > 0] and [q > 0], and [T] is
    a 32-bit value, the inner-step counter after any sequence of calls
    from the initialized state is [K] times the number of [tell] calls
    taken modulo [q]: the reset falls on every [q]-th [tell] and on no
    other. *)
Theorem X7_persistent_counter_period :
  forall `{RandomStream} `{Optimizer.GradientOptimizer}
         (es : Persistent_ES.Strategy) (rng : PRNGKey)
         (params : Persistent_ES.Params) (calls : list Persistent_ES.call)
         (q : Z),
    (0 < Persistent_ES.K params)%Z ->
    (0 < q)%Z ->
    Persistent_ES.T params = (q * Persistent_ES.K params)%Z ->
    (Persistent_ES.T params < 2 ^ 31)%Z ->
    let s := Persistent_ES.run es calls
               (Persistent_ES.initialize_strategy es rng params) params in
    let tells := Z.of_nat (length (filter Persistent_ES.is_tell calls)) in
    Persistent_ES.inner_step_counter s = ((tells mod q) * Persistent_ES.K params)%Z.
Proof.
  intros RS GO es rng params calls q HK Hq HT H32.
  induction calls as [|c calls IH] using rev_ind; intros s tells.
  - unfold s, tells.
    change (0 = (0 mod q) * Persistent_ES.K params)%Z.
    now rewrite Zmod_0_l.
  - unfold s, tells.
    rewrite run_persistent_snoc, step_persistent_counter, filter_app, length_app.
    cbn zeta in IH; rewrite IH; cbn [filter].
    destruct (Persistent_ES.is_tell c); cbn [length].
    + pose proof (Z.mod_pos_bound
                    (Z.of_nat (length (filter Persistent_ES.is_tell calls))) q Hq)
        as Hr.
      rewrite wrap32_id by nia.
      rewrite HT, succ_mod_times by lia.
      do 2 f_equal; lia.
    + now rewrite Nat.add_0_r.
Qed.

Lemma X7_persistent_counter_period_witness :
  let pes := {| Persistent_ES.num_dims := 1; Persistent_ES.popsize := 2 |} in
  let params := Persistent_ES.params_strategy Optimizer.sgd_params in
  let tell := Persistent_ES.Tell [[1]; [-1]] [1; 1] in
  let calls := [tell; Persistent_ES.Ask 1%nat; tell; tell] in
  let s := Persistent_ES.run pes calls
             (Persistent_ES.initialize_strategy pes 0%nat params) params in
  ((0 < Persistent_ES.K params)%Z /\ (0 < 10)%Z /\
   Persistent_ES.T params = (10 * Persistent_ES.K params)%Z /\
   (Persistent_ES.T params < 2 ^ 31)%Z) /\
  Persistent_ES.inner_step_counter s = 30%Z.
Proof.
  intros pes params tell calls s.
  assert (HK : (0 < Persistent_ES.K params)%Z) by (simpl; lia).
  assert (Hq : (0 < 10)%Z) by lia.
  assert (HT : Persistent_ES.T params = (10 * Persistent_ES.K params)%Z)
    by reflexivity.
  assert (H32 : (Persistent_ES.T params < 2 ^ 31)%Z) by (simpl; lia).
  split; [repeat split; assumption|].
  exact (@X7_persistent_counter_period CounterStream Optimizer.SGD pes 0%nat
           params calls 10%Z HK Hq HT H32).
Defined.

(** ** The decay schedule of [sigma] and [lrate] *)

Lemma decay_floor_absorb (a d l : R) :
  0 <= d <= 1 -> 0 <= l -> Rmax (Rmax a l * d) l = Rmax (a * d) l.
Proof.
  intros Hd Hl; unfold Rmax.
  repeat destruct (Rle_dec _ _); nra.
Qed.

Lemma decay_floor_iter (a d l : R) (n : nat) :
  0 <= d <= 1 -> 0 <= l ->
  Nat.iter n (fun v => Rmax (v * d) l) (Rmax a l) = Rmax (a * d ^ n) l.
Proof.
  intros Hd Hl; induction n as [|n IH]; simpl.
  - now rewrite Rmult_1_r.
  - rewrite IH, decay_floor_absorb by assumption.
    f_equal; lra.
Qed.

Lemma decay_floor_closed (a d l : R) (n : nat) :
  0 <= d <= 1 -> 0 <= l ->
  Nat.iter (S n) (fun v => Rmax (v * d) l) a = Rmax (a * d ^ S n) l.
Proof.
  intros Hd Hl; rewrite Nat.iter_succ_r, decay_floor_iter by assumption.
  f_equal; simpl; lra.
Qed.

Lemma decay_floor_below (v d l : R) :
  0 <= d <= 1 -> 0 <= l -> l <= v -> Rmax (v * d) l <= v.
Proof. intros Hd Hl Hv; apply Rmax_lub; nra. Qed.

Lemma tell_loop_open_nes_iter adam es batches state params :
  (forall s p g, Open_NES.sigma (adam s p g) = Open_NES.sigma s) ->
  (forall s p g, Open_NES.lrate (adam s p g) = Open_NES.lrate s) ->
  let s' := Open_NES.tell_loop adam es batches state params in
  Open_NES.sigma s' =
  Nat.iter (length batches)
    (fun v => Rmax (v * Open_NES.sigma_decay params) (Open_NES.sigma_limit params))
    (Open_NES.sigma state) /\
  Open_NES.lrate s' =
  Nat.iter (length batches)
    (fun v => Rmax (v * Open_NES.lrate_decay params) (Open_NES.lrate_limit params))
    (Open_NES.lrate state).
Proof.
  intros Hsig Hlr; unfold Open_NES.tell_loop; revert state.
  induction batches as [|b batches IH]; intros state; [split; reflexivity|].
  cbn [fold_left length]; rewrite !Nat.iter_succ_r.
  destruct (IH (Open_NES.tell_strategy adam es (fst b) (snd b) state params))
    as [Hs Hl].
  rewrite Hs, Hl; simpl; now rewrite Hsig, Hlr.
Qed.

(** X8.  For Open NES with decay factors in [0, 1], non-negative floors
    and an Adam step that leaves [sigma] and [lrate] alone, after [n >= 1]
    [tell] calls [sigma] is [max(sigma_0 * sigma_decay^n, sigma_limit)] and
    [lrate] is [max(lrate_0 * lrate_decay^n, lrate_limit)], and a further
    [tell] raises neither. *)
Theorem X8_open_nes_decay_schedule :
  forall (adam : Open_NES.State -> Open_NES.Params -> vec -> Open_NES.State)
         (es : Open_NES.Strategy) (batches : list (mat * vec))
         (state : Open_NES.State) (params : Open_NES.Params),
    (forall s p g, Open_NES.sigma (adam s p g) = Open_NES.sigma s) ->
    (forall s p g, Open_NES.lrate (adam s p g) = Open_NES.lrate s) ->
    0 <= Open_NES.sigma_decay params <= 1 -> 0 <= Open_NES.sigma_limit params ->
    0 <= Open_NES.lrate_decay params <= 1 -> 0 <= Open_NES.lrate_limit params ->
    batches <> [] ->
    let n := length batches in
    let s' := Open_NES.tell_loop adam es batches state params in
    Open_NES.sigma s' =
    Rmax (Open_NES.sigma state * Open_NES.sigma_decay params ^ n)
         (Open_NES.sigma_limit params) /\
    Open_NES.lrate s' =
    Rmax (Open_NES.lrate state * Open_NES.lrate_decay params ^ n)
         (Open_NES.lrate_limit params) /\
    (forall x fitness,
        let s'' := Open_NES.tell_strategy adam es x fitness s' params in
        Open_NES.sigma s'' <= Open_NES.sigma s' /\
        Open_NES.lrate s'' <= Open_NES.lrate s').
Proof.
  intros adam es batches state params Hsig Hlr Hsd Hsl Hld Hll Hne n s'.
  destruct (tell_loop_open_nes_iter adam es batches state params Hsig Hlr)
    as [Hs Hl].
  fold s' in Hs, Hl; fold n in Hs, Hl.
  assert (Hn : exists k, n = S k).
  { unfold n; destruct batches; [contradiction | simpl; eauto]. }
  destruct Hn as [k Hk]; rewrite Hk in Hs, Hl |- *.
  rewrite decay_floor_closed in Hs, Hl by assumption.
  repeat split; try assumption.
  - simpl; rewrite Hsig; apply decay_floor_below; auto.
    rewrite Hs; apply Rmax_r.
  - simpl; rewrite Hlr; apply decay_floor_below; auto.
    rewrite Hl; apply Rmax_r.
Qed.

Lemma X8_open_nes_decay_schedule_witness :
  let nes := {| Open_NES.num_dims := 1; Open_NES.popsize := 2 |} in
  let params :=
    {| Open_NES.lrate_init := 1; Open_NES.lrate_decay := 1 / 2;
       Open_NES.lrate_limit := 1 / 100; Open_NES.beta_1 := 99 / 100;
       Open_NES.beta_2 := 999 / 1000; Open_NES.eps := 1 / 100000000;
       Open_NES.sigma_init := 1; Open_NES.sigma_decay := 1 / 2;
       Open_NES.sigma_limit := 1 / 100; Open_NES.init_min := -1;
       Open_NES.init_max := 1 |} in
  let state := Open_NES.initialize_strategy nes 0%nat params in
  let batch := ([[1]; [-1]], [1; 1]) in
  Open_NES.sigma (Open_NES.tell_loop Open_NES.adam_step nes [batch; batch] state params)
  = Rmax (1 * (1 / 2) ^ 2) (1 / 100).
Proof.
  intros nes params state batch.
  assert (Hsig : forall s p g,
             Open_NES.sigma (Open_NES.adam_step s p g) = Open_NES.sigma s)
    by reflexivity.
  assert (Hlr : forall s p g,
             Open_NES.lrate (Open_NES.adam_step s p g) = Open_NES.lrate s)
    by reflexivity.
  assert (Hd : 0 <= 1 / 2 <= 1) by lra.
  assert (Hl : 0 <= 1 / 100) by lra.
  assert (Hne : [batch; batch] <> []) by discriminate.
  exact (proj1 (X8_open_nes_decay_schedule Open_NES.adam_step nes [batch; batch]
                  state params Hsig Hlr Hd Hl Hd Hl Hne)).
Defined.

Lemma tell_persistent_sigma `{Optimizer.GradientOptimizer}
  es x fitness (state : Persistent_ES.State) params :
  Persistent_ES.sigma (Persistent_ES.tell_strategy es x fitness state params) =
  Rmax (Persistent_ES.sigma state * Persistent_ES.sigma_decay params)
       (Persistent_ES.sigma_limit params).
Proof.
  unfold Persistent_ES.tell_strategy, Persistent_ES.optimizer_step.
  destruct (Optimizer.step_rule _ _ _ _ _); reflexivity.
Qed.

Lemma run_persistent_sigma_iter `{RandomStream} `{Optimizer.GradientOptimizer}
  es calls (state : Persistent_ES.State) params :
  Persistent_ES.sigma (Persistent_ES.run es calls state params) =
  Nat.iter (length (filter Persistent_ES.is_tell calls))
    (fun v => Rmax (v * Persistent_ES.sigma_decay params)
                   (Persistent_ES.sigma_limit params))
    (Persistent_ES.sigma state).
Proof.
  unfold Persistent_ES.run; revert state.
  induction calls as [|c calls IH]; intros state; [reflexivity|].
  cbn [fold_left filter]; rewrite IH.
  destruct c as [rng|x fitness];
    cbn [Persistent_ES.is_tell length Persistent_ES.step].
  - reflexivity.
  - now rewrite Nat.iter_succ_r, tell_persistent_sigma.
Qed.

(** X9.  For Persistent ES with [sigma_decay] in [0, 1] and a non-negative
    [sigma_limit], after a sequence of calls with [n >= 1] [tell] calls
    among them [sigma] is [max(sigma_0 * sigma_decay^n, sigma_limit)]:
    [ask] calls do not enter the schedule. *)
Theorem X9_persistent_sigma_schedule :
  forall `{RandomStream} `{Optimizer.GradientOptimizer}
         (es : Persistent_ES.Strategy) (calls : list Persistent_ES.call)
         (state : Persistent_ES.State) (params : Persistent_ES.Params),
    0 <= Persistent_ES.sigma_decay params <= 1 ->
    0 <= Persistent_ES.sigma_limit params ->
    existsb Persistent_ES.is_tell calls = true ->
    let n := length (filter Persistent_ES.is_tell calls) in
    Persistent_ES.sigma (Persistent_ES.run es calls state params) =
    Rmax (Persistent_ES.sigma state * Persistent_ES.sigma_decay params ^ n)
         (Persistent_ES.sigma_limit params).
Proof.
  intros RS GO es calls state params Hd Hl Ht n.
  rewrite run_persistent_sigma_iter; fold n.
  assert (Hn : exists k, n = S k).
  { unfold n; apply existsb_exists in Ht; destruct Ht as (c & Hin & Hc).
    assert (Hf : In c (filter Persistent_ES.is_tell calls))
      by (apply filter_In; auto).
    destruct (filter Persistent_ES.is_tell calls); [contradiction | simpl; eauto]. }
  destruct Hn as [k ->]; now apply decay_floor_closed.
Qed.

Lemma X9_persistent_sigma_schedule_witness :
  let pes := {| Persistent_ES.num_dims := 1; Persistent_ES.popsize := 2 |} in
  let params := Persistent_ES.params_strategy Optimizer.sgd_params in
  let state := Persistent_ES.initialize_strategy pes 0%nat params in
  let calls := [Persistent_ES.Ask 1%nat; Persistent_ES.Tell [[1]; [-1]] [1; 1]] in
  Persistent_ES.sigma (Persistent_ES.run pes calls state params) =
  Rmax (1 / 10 * (999 / 1000) ^ 1) (1 / 10).
Proof.
  intros pes params state calls.
  assert (Hd : 0 <= Persistent_ES.sigma_decay params <= 1) by (simpl; lra).
  assert (Hl : 0 <= Persistent_ES.sigma_limit params) by (simpl; lra).
  assert (Ht : existsb Persistent_ES.is_tell calls = true) by reflexivity.
  exact (@X9_persistent_sigma_schedule CounterStream Optimizer.SGD pes calls
           state params Hd Hl Ht).
Defined.

(** ** Gradient estimates on symmetric fitness *)

Lemma dot_app (a b f g : vec) :
  length a = length f -> dot (a ++ b) (f ++ g) = dot a f + dot b g.
Proof.
  intros Hl; unfold dot, vmul; now rewrite map2_app_same, sum_app.
Qed.

Lemma dot_scale_l (k : R) (a f : vec) :
  dot (map (Rmult k) a) f = k * dot a f.
Proof.
  unfold dot, vmul; revert f; induction a as [|u a IH]; intros [|v f]; simpl;
    try lra.
  rewrite IH; lra.
Qed.

Lemma dot_T_antithetic D (z : mat) (f : vec) :
  length z = length f -> dot_T D (antithetic z) (f ++ f) = zeros D.
Proof.
  intros Hl; unfold dot_T, transpose, zeros.
  rewrite map_map, (map_const _ 0); [now rewrite length_seq|].
  intros j _; unfold antithetic, vneg, scale.
  rewrite column_app, dot_app by (now rewrite column_length).
  rewrite column_map_rows, dot_scale_l by lra; lra.
Qed.

Lemma scale_zeros (c : R) D : scale c (zeros D) = zeros D.
Proof.
  unfold scale, zeros; rewrite map_repeat; f_equal; lra.
Qed.

(** X10.  When [tell] of Open NES receives the batch that [ask] produced
    from the same state (mean of [D] coordinates, [sigma] not zero) and the
    two members of every mirrored pair have the same fitness, the gradient
    estimate is the zero vector, and that is what the Adam step is
    given. *)
Theorem X10_open_nes_symmetric_fitness :
  forall `{RandomStream}
         (adam : Open_NES.State -> Open_NES.Params -> vec -> Open_NES.State)
         (D P : nat) (es : Open_NES.Strategy) (rng : PRNGKey)
         (state : Open_NES.State) (params : Open_NES.Params) (f : vec),
    Open_NES.init D P = Ok es ->
    length (Open_NES.mean state) = D ->
    Open_NES.sigma state <> 0 ->
    length f = (P / 2)%nat ->
    let x := fst (Open_NES.ask_strategy es rng state params) in
    Open_NES.theta_grad es x (f ++ f) state = zeros D /\
    Open_NES.tell_strategy adam es x (f ++ f) state params =
    nes_decay_then_floor (adam state params (zeros D)) params.
Proof.
  intros RS adam D P es rng state params f Hinit Hm Hs Hf x.
  apply init_open_nes_inv in Hinit; destruct Hinit as [He ->].
  assert (Hg : Open_NES.theta_grad
                 {| Open_NES.num_dims := D; Open_NES.popsize := P |}
                 x (f ++ f) state = zeros D).
  { unfold Open_NES.theta_grad, x.
    rewrite tell_noise_inverts_ask by assumption.
    unfold Open_NES.ask_noise; cbn [Open_NES.popsize Open_NES.num_dims].
    rewrite dot_T_antithetic by (rewrite normal_rows; len).
    apply scale_zeros. }
  split; [exact Hg|].
  now rewrite tell_open_nes_decay, Hg.
Qed.

Lemma X10_open_nes_symmetric_fitness_witness :
  let nes := {| Open_NES.num_dims := 1; Open_NES.popsize := 2 |} in
  let params := Open_NES.params_strategy (-1) 1 in
  let state := Open_NES.initialize_strategy nes 0%nat params in
  let x := fst (Open_NES.ask_strategy nes 3%nat state params) in
  Open_NES.theta_grad nes x ([5] ++ [5]) state = zeros 1.
Proof.
  intros nes params state x.
  assert (Hi : Open_NES.init 1 2 = Ok nes) by reflexivity.
  assert (Hm : length (Open_NES.mean state) = 1%nat) by reflexivity.
  assert (Hs : Open_NES.sigma state <> 0) by (simpl; lra).
  assert (Hf : length [5] = (2 / 2)%nat) by reflexivity.
  exact (proj1 (@X10_open_nes_symmetric_fitness CounterStream Open_NES.adam_step
                  1 2 nes 3%nat state params [5] Hi Hm Hs Hf)).
Defined.

(** ** PEPG: when [tell] runs, and how far it moves [sigma] *)

Lemma Int_part_zero_iff (x : R) : 0 <= x -> (Int_part x = 0%Z <-> x < 1).
Proof.
  intros Hx; pose proof (Int_part_bounds x) as Hb; split; intros H0.
  - rewrite H0 in Hb; simpl in Hb; lra.
  - symmetry; apply Int_part_spec; simpl; lra.
Qed.

(** X11.  For a PEPG strategy built with an even population [P],
    dimension [D] and an elite ratio [r >= 0], on a state whose mean and
    sigma have [D] coordinates, [tell] on a batch of [P] rows of [D]
    columns with [P] fitness values raises [ZeroDivisionError] when
    [P * r < 2], and returns a state when [P * r >= 2]. *)
Theorem X11_pepg_tell_runs_iff :
  forall `{Optimizer.GradientOptimizer} (D P : nat) (r : R) (name : string)
         (es : PEPG_ES.Strategy) (x : mat) (fitness : vec)
         (state : PEPG_ES.State) (params : PEPG_ES.Params),
    PEPG_ES.init D P r name = Ok es ->
    0 <= r ->
    length x = P ->
    Forall (fun row => length row = D) x ->
    length fitness = P ->
    length (PEPG_ES.mean state) = D ->
    length (PEPG_ES.sigma state) = D ->
    (INR P * r < 2 ->
     PEPG_ES.tell_strategy es x fitness state params = Raise ZeroDivisionError) /\
    (2 <= INR P * r ->
     exists s', PEPG_ES.tell_strategy es x fitness state params = Ok s').
Proof.
  intros GO D P r name es x fitness state params Hinit Hr _ _ _ _ _.
  apply init_pepg_inv in Hinit; destruct Hinit as [He ->].
  assert (Hx : 0 <= INR P / 2 * r).
  { pose proof (pos_INR P); apply Rmult_le_pos; lra. }
  pose proof (Int_part_zero_iff _ Hx) as Hz.
  split; intros HP.
  - apply tell_pepg_zero_elite; cbn [PEPG_ES.elite_popsize].
    rewrite py_int_nonneg by assumption; apply Hz; lra.
  - apply tell_pepg_ok; cbn [PEPG_ES.elite_popsize].
    rewrite py_int_nonneg by assumption; intros H0; apply Hz in H0; lra.
Qed.

Lemma X11_pepg_tell_runs_iff_witness :
  let pepg := {| PEPG_ES.num_dims := 1; PEPG_ES.popsize := 4;
                 PEPG_ES.elite_ratio := 1 / 2;
                 PEPG_ES.elite_popsize := py_int (INR 4 / 2 * (1 / 2)) |} in
  let params := PEPG_ES.params_strategy Optimizer.sgd_params in
  let state := PEPG_ES.initialize_strategy pepg 0%nat params in
  let x := [[1]; [2]; [-1]; [-2]] in
  let fitness := [1; 2; 3; 4] in
  (PEPG_ES.init 1 4 (1 / 2) "sgd" = Ok pepg /\ 0 <= 1 / 2 /\
   length x = 4%nat /\ Forall (fun row : vec => length row = 1%nat) x /\
   length fitness = 4%nat /\
   length (PEPG_ES.mean state) = 1%nat /\
   length (PEPG_ES.sigma state) = 1%nat /\
   2 <= INR 4 * (1 / 2)) /\
  exists s', PEPG_ES.tell_strategy pepg x fitness state params = Ok s'.
Proof.
  intros pepg params state x fitness.
  assert (Hi : PEPG_ES.init 1 4 (1 / 2) "sgd" = Ok pepg) by reflexivity.
  assert (Hr : 0 <= 1 / 2) by lra.
  assert (Hx : length x = 4%nat) by reflexivity.
  assert (Hrows : Forall (fun row : vec => length row = 1%nat) x)
    by (repeat constructor).
  assert (Hf : length fitness = 4%nat) by reflexivity.
  assert (Hm : length (PEPG_ES.mean state) = 1%nat) by reflexivity.
  assert (Hs : length (PEPG_ES.sigma state) = 1%nat) by reflexivity.
  assert (HP : 2 <= INR 4 * (1 / 2)) by (simpl; lra).
  split; [repeat split; assumption|].
  exact (proj2 (@X11_pepg_tell_runs_iff Optimizer.SGD 1 4 (1 / 2) "sgd"%string
                  pepg x fitness state params Hi Hr Hx Hrows Hf Hm Hs) HP).
Defined.

Lemma clip_change_bounds (raw c s : R) :
  0 <= c -> 0 <= s ->
  - (c * s) <= Rmax (Rmin raw (c * s)) (- c * s) <= c * s.
Proof.
  intros Hc Hs; split.
  - replace (- (c * s)) with (- c * s) by lra; apply Rmax_r.
  - apply Rmax_lub; [apply Rmin_r | nra].
Qed.

Lemma Rmax_le_compat_l (a b l : R) : a <= b -> Rmax a l <= Rmax b l.
Proof. intros Hab; unfold Rmax; repeat destruct (Rle_dec _ _); lra. Qed.

Lemma dot_vm_length D v m : length (dot_vm D v m) = D.
Proof. unfold dot_vm, transpose; now rewrite !length_map, length_seq. Qed.

Lemma tell_pepg_sigma_shape `{Optimizer.GradientOptimizer} es x fitness
  (state : PEPG_ES.State) params s' :
  PEPG_ES.tell_strategy es x fitness state params = Ok s' ->
  length (PEPG_ES.sigma state) = PEPG_ES.num_dims es ->
  exists delta : vec,
    length delta = PEPG_ES.num_dims es /\
    let change :=
      vmax (vmin (scale (PEPG_ES.sigma_lrate params) delta)
                 (scale (PEPG_ES.sigma_max_change params) (PEPG_ES.sigma state)))
           (scale (- PEPG_ES.sigma_max_change params) (PEPG_ES.sigma state)) in
    length change = PEPG_ES.num_dims es /\
    PEPG_ES.sigma s' =
    map (fun s => Rmax s (PEPG_ES.sigma_limit params))
        (map (fun s => s * PEPG_ES.sigma_decay params)
             (vsub (PEPG_ES.sigma state) change)).
Proof.
  unfold PEPG_ES.tell_strategy.
  destruct (py_truediv 1 (PEPG_ES.elite_popsize es)) as [inv|e];
    [|discriminate].
  cbn [bind]; unfold PEPG_ES.optimizer_step.
  destruct (Optimizer.step_rule _ _ _ _ _) as [mean' acc'].
  cbn [PEPG_ES.optimizer_update PEPG_ES.set_sigma PEPG_ES.sigma PEPG_ES.mean
       PEPG_ES.fitness PEPG_ES.lrate PEPG_ES.acc].
  intros [= <-] Hs; cbn [PEPG_ES.sigma].
  eexists; split; [|split; [|reflexivity]].
  - now rewrite length_map, dot_vm_length.
  - unfold vmax, vmin, scale.
    rewrite !map2_length, !length_map, dot_vm_length; len.
Qed.

Lemma tell_pepg_sigma_nth `{Optimizer.GradientOptimizer} es x fitness
  (state : PEPG_ES.State) params s' j :
  PEPG_ES.tell_strategy es x fitness state params = Ok s' ->
  length (PEPG_ES.sigma state) = PEPG_ES.num_dims es ->
  (j < PEPG_ES.num_dims es)%nat ->
  exists raw,
    nth j (PEPG_ES.sigma s') 0 =
    Rmax ((nth j (PEPG_ES.sigma state) 0
           - Rmax (Rmin raw (PEPG_ES.sigma_max_change params
                             * nth j (PEPG_ES.sigma state) 0))
                  (- PEPG_ES.sigma_max_change params
                   * nth j (PEPG_ES.sigma state) 0))
          * PEPG_ES.sigma_decay params)
         (PEPG_ES.sigma_limit params).
Proof.
  intros Htell Hs Hj.
  destruct (tell_pepg_sigma_shape es x fitness state params s' Htell Hs)
    as (delta & Hd & Hc & ->).
  exists (PEPG_ES.sigma_lrate params * nth j delta 0).
  assert (Hsub : length (vsub (PEPG_ES.sigma state)
                   (vmax (vmin (scale (PEPG_ES.sigma_lrate params) delta)
                               (scale (PEPG_ES.sigma_max_change params)
                                      (PEPG_ES.sigma state)))
                         (scale (- PEPG_ES.sigma_max_change params)
                                (PEPG_ES.sigma state))))
                 = PEPG_ES.num_dims es)
    by (unfold vsub; rewrite map2_length; len).
  rewrite !nth_map_in by (rewrite ?length_map; len).
  unfold vsub; rewrite (map2_nth Rminus _ _ j 0 0 0) by len.
  unfold vmax, vmin, scale.
  rewrite (map2_nth Rmax _ _ j 0 0 0)
    by (rewrite ?map2_length, ?length_map; len).
  rewrite (map2_nth Rmin _ _ j 0 0 0) by (rewrite ?length_map; len).
  now rewrite !nth_map_zero by lra.
Qed.

(** X12.  When [tell] of PEPG returns a state, [sigma] keeps its [D]
    coordinates, and with [sigma_max_change >= 0] and [sigma_decay >= 0] a
    non-negative coordinate [sigma_j] moves to a value between
    [max((1 - sigma_max_change) * sigma_j * sigma_decay, sigma_limit)] and
    [max((1 + sigma_max_change) * sigma_j * sigma_decay, sigma_limit)]:
    the adaptive change is clipped to the configured fraction. *)
Theorem X12_pepg_sigma_change_clipped :
  forall `{Optimizer.GradientOptimizer} (es : PEPG_ES.Strategy) (x : mat)
         (fitness : vec) (state s' : PEPG_ES.State) (params : PEPG_ES.Params),
    PEPG_ES.tell_strategy es x fitness state params = Ok s' ->
    length (PEPG_ES.sigma state) = PEPG_ES.num_dims es ->
    0 <= PEPG_ES.sigma_max_change params ->
    0 <= PEPG_ES.sigma_decay params ->
    length (PEPG_ES.sigma s') = PEPG_ES.num_dims es /\
    forall j, (j < PEPG_ES.num_dims es)%nat ->
      0 <= nth j (PEPG_ES.sigma state) 0 ->
      Rmax ((1 - PEPG_ES.sigma_max_change params) * nth j (PEPG_ES.sigma state) 0
            * PEPG_ES.sigma_decay params) (PEPG_ES.sigma_limit params)
      <= nth j (PEPG_ES.sigma s') 0
      <= Rmax ((1 + PEPG_ES.sigma_max_change params) * nth j (PEPG_ES.sigma state) 0
               * PEPG_ES.sigma_decay params) (PEPG_ES.sigma_limit params).
Proof.
  intros GO es x fitness state s' params Htell Hs Hc Hd; split.
  - destruct (tell_pepg_sigma_shape es x fitness state params s' Htell Hs)
      as (delta & Hdl & Hcl & ->).
    rewrite !length_map; unfold vsub; rewrite map2_length; len.
  - intros j Hj Hsj.
    destruct (tell_pepg_sigma_nth es x fitness state params s' j Htell Hs Hj)
      as (raw & ->).
    pose proof (clip_change_bounds raw (PEPG_ES.sigma_max_change params)
                  (nth j (PEPG_ES.sigma state) 0) Hc Hsj) as Hb.
    split; apply Rmax_le_compat_l; nra.
Qed.

Lemma X12_pepg_sigma_change_clipped_witness :
  let pepg := {| PEPG_ES.num_dims := 1; PEPG_ES.popsize := 2;
                 PEPG_ES.elite_ratio := 1; PEPG_ES.elite_popsize := 1 |} in
  let params := PEPG_ES.params_strategy Optimizer.sgd_params in
  let state := PEPG_ES.initialize_strategy pepg 0%nat params in
  exists s',
    PEPG_ES.tell_strategy pepg [[1]; [-1]] [1; 2] state params = Ok s' /\
    length (PEPG_ES.sigma s') = 1%nat.
Proof.
  intros pepg params state.
  assert (Hk : PEPG_ES.elite_popsize pepg <> 0%Z) by discriminate.
  destruct (@tell_pepg_ok Optimizer.SGD pepg [[1]; [-1]] [1; 2] state params Hk)
    as [s' Hs'].
  assert (Hc : 0 <= PEPG_ES.sigma_max_change params) by (simpl; lra).
  assert (Hd : 0 <= PEPG_ES.sigma_decay params) by (simpl; lra).
  exists s'; split; [exact Hs'|].
  exact (proj1 (@X12_pepg_sigma_change_clipped Optimizer.SGD pepg [[1]; [-1]]
                  [1; 2] state s' params Hs' eq_refl Hc Hd)).
Defined.

Lemma firstn_double {A} (f : list A) h :
  length f = h -> firstn h (f ++ f) = f.
Proof.
  intros <-; rewrite firstn_app, firstn_all, Nat.sub_diag; simpl.
  apply app_nil_r.
Qed.

Lemma skipn_double {A} (f : list A) h :
  length f = h -> skipn h (f ++ f) = f.
Proof.
  intros <-; rewrite skipn_app, skipn_all, Nat.sub_diag; reflexivity.
Qed.

Lemma vsub_self (u : vec) : vsub u u = zeros (length u).
Proof.
  unfold vsub, zeros; induction u as [|a u IH]; simpl; [reflexivity|].
  rewrite IH; f_equal; lra.
Qed.

Lemma dot_zeros (col : vec) n : dot col (zeros n) = 0.
Proof.
  unfold dot, vmul, zeros; revert n; induction col as [|a col IH];
    intros [|n]; simpl; try reflexivity.
  rewrite IH; lra.
Qed.

Lemma dot_T_zeros D (m : mat) n : dot_T D m (zeros n) = zeros D.
Proof.
  unfold dot_T, transpose; rewrite map_map, (map_const _ 0).
  - unfold zeros; now rewrite length_seq.
  - intros j _; apply dot_zeros.
Qed.

(** X13.  When [tell] of PEPG runs (the elite count is not zero) on a
    fitness vector in which the two members of every mirrored pair have
    the same value, the mean gradient is the zero vector: the new mean and
    accumulators are those of an optimizer step on the zero vector,
    whatever the candidates are. *)
Theorem X13_pepg_symmetric_fitness :
  forall `{Optimizer.GradientOptimizer} (D P : nat) (r : R) (name : string)
         (es : PEPG_ES.Strategy) (x : mat) (f : vec)
         (state : PEPG_ES.State) (params : PEPG_ES.Params),
    PEPG_ES.init D P r name = Ok es ->
    PEPG_ES.elite_popsize es <> 0%Z ->
    length f = (P / 2)%nat ->
    exists s',
      PEPG_ES.tell_strategy es x (f ++ f) state params = Ok s' /\
      (PEPG_ES.mean s', PEPG_ES.acc s') =
      Optimizer.step_rule (zeros D) (PEPG_ES.mean state) (PEPG_ES.lrate state)
        (PEPG_ES.acc state) (Optimizer.rule (PEPG_ES.opt params)).
Proof.
  intros GO D P r name es x f state params Hinit Hk Hf.
  apply init_pepg_inv in Hinit; destruct Hinit as [He Hes].
  unfold PEPG_ES.tell_strategy, py_truediv.
  destruct (Z.eqb_spec (PEPG_ES.elite_popsize es) 0); [contradiction|].
  cbn [bind]; rewrite Hes; cbn [PEPG_ES.popsize PEPG_ES.num_dims].
  rewrite (firstn_double f _ Hf), (skipn_double f _ Hf).
  rewrite vsub_self, dot_T_zeros, scale_zeros.
  unfold PEPG_ES.optimizer_step.
  destruct (Optimizer.step_rule _ _ _ _ _) as [mean' acc'].
  eexists; split; reflexivity.
Qed.

Lemma X13_pepg_symmetric_fitness_witness :
  let pepg := {| PEPG_ES.num_dims := 1; PEPG_ES.popsize := 2;
                 PEPG_ES.elite_ratio := 1;
                 PEPG_ES.elite_popsize := py_int (INR 2 / 2 * 1) |} in
  let params := PEPG_ES.params_strategy Optimizer.sgd_params in
  let state := PEPG_ES.initialize_strategy pepg 0%nat params in
  (PEPG_ES.init 1 2 1 "sgd" = Ok pepg /\ PEPG_ES.elite_popsize pepg <> 0%Z) /\
  exists s',
    PEPG_ES.tell_strategy pepg [[1]; [-1]] ([3] ++ [3]) state params = Ok s' /\
    (PEPG_ES.mean s', PEPG_ES.acc s') =
    Optimizer.step_rule (zeros 1) (PEPG_ES.mean state) (PEPG_ES.lrate state)
      (PEPG_ES.acc state) (Optimizer.rule (PEPG_ES.opt params)).
Proof.
  intros pepg params state.
  assert (Hi : PEPG_ES.init 1 2 1 "sgd" = Ok pepg) by reflexivity.
  assert (Hk : PEPG_ES.elite_popsize pepg <> 0%Z).
  { cbn [PEPG_ES.elite_popsize pepg].
    rewrite py_int_nonneg by (simpl; lra).
    replace (INR 2 / 2 * 1) with (INR 1) by (simpl; lra).
    rewrite Int_part_INR; discriminate. }
  split; [split; assumption|].
  exact (@X13_pepg_symmetric_fitness Optimizer.SGD 1 2 1 "sgd"%string pepg
           [[1]; [-1]] [3] state params Hi Hk eq_refl).
Defined.

(** ** Particle swarm: personal bests over a run *)

Lemma blend_min (f b : vec) :
  vadd (map2 (fun r a => b2r r * a) (map2 Rleb f b) f)
       (map2 (fun r a => (1 - b2r r) * a) (map2 Rleb f b) b)
  = vmin f b.
Proof.
  unfold vadd, vmin; revert b; induction f as [|a f IH]; intros [|c b]; simpl;
    try reflexivity.
  rewrite IH; f_equal.
  unfold Rleb, Rmin; destruct (Rle_dec a c); simpl; lra.
Qed.

Lemma tell_pso_best_fitness x fitness state :
  PSO_ES.best_fitness (PSO_ES.tell x fitness state) =
  vmin fitness (PSO_ES.best_fitness state).
Proof. apply blend_min. Qed.

Lemma vmin_length (f b : vec) P :
  length f = P -> length b = P -> length (vmin f b) = P.
Proof. intros Hf Hb; unfold vmin; rewrite map2_length; len. Qed.

Lemma vmin_nth (f b : vec) P i :
  length f = P -> length b = P -> (i < P)%nat ->
  nth i (vmin f b) 0 = Rmin (nth i f 0) (nth i b 0).
Proof. intros Hf Hb Hi; unfold vmin; apply map2_nth; len. Qed.

Lemma tell_loop_pso_snoc batches b state :
  PSO_ES.tell_loop (batches ++ [b]) state =
  PSO_ES.tell (fst b) (snd b) (PSO_ES.tell_loop batches state).
Proof. unfold PSO_ES.tell_loop; now rewrite fold_left_app. Qed.

(** X14.  Over any sequence of [tell] calls of PSO with fitness vectors of
    length [P], each particle's personal best fitness is the least of its
    initial value and all the fitness values told for it: it is at most
    each of them, and it is one of them. *)
Theorem X14_pso_best_fitness_running_min :
  forall (batches : list (mat * vec)) (state : PSO_ES.State) (P : nat),
    length (PSO_ES.best_fitness state) = P ->
    Forall (fun b => length (snd b) = P) batches ->
    let s' := PSO_ES.tell_loop batches state in
    length (PSO_ES.best_fitness s') = P /\
    forall i, (i < P)%nat ->
      nth i (PSO_ES.best_fitness s') 0 <= nth i (PSO_ES.best_fitness state) 0 /\
      (forall b, In b batches ->
         nth i (PSO_ES.best_fitness s') 0 <= nth i (snd b) 0) /\
      (nth i (PSO_ES.best_fitness s') 0 = nth i (PSO_ES.best_fitness state) 0 \/
       exists b, In b batches /\
         nth i (PSO_ES.best_fitness s') 0 = nth i (snd b) 0).
Proof.
  intros batches state P Hb0.
  induction batches as [|b batches IH] using rev_ind; intros Hall s'.
  - unfold s'; simpl; split; [assumption|].
    intros i Hi; repeat split; [lra | intros b [] | now left].
  - apply Forall_app in Hall; destruct Hall as [Hall Hb].
    apply Forall_inv in Hb; rename Hb into Hbl.
    destruct (IH Hall) as [Hlen Hrun]; clear IH.
    unfold s'; rewrite tell_loop_pso_snoc, tell_pso_best_fitness.
    split; [now apply vmin_length|].
    intros i Hi; rewrite (vmin_nth _ _ P) by assumption.
    destruct (Hrun i Hi) as (Hle & Hall' & Hone).
    set (prev := nth i (PSO_ES.best_fitness (PSO_ES.tell_loop batches state)) 0) in *.
    pose proof (Rmin_l (nth i (snd b) 0) prev) as Hl.
    pose proof (Rmin_r (nth i (snd b) 0) prev) as Hr.
    repeat split.
    + lra.
    + intros b' Hin; apply in_app_or in Hin; destruct Hin as [Hin|[<-|[]]].
      * specialize (Hall' b' Hin); lra.
      * exact Hl.
    + unfold Rmin; destruct (Rle_dec (nth i (snd b) 0) prev).
      * right; exists b; split; [apply in_or_app; right; now left | reflexivity].
      * destruct Hone as [Hone|(b' & Hin & Hone)]; [now left|].
        right; exists b'; split; [apply in_or_app; now left | assumption].
Qed.

Lemma X14_pso_best_fitness_running_min_witness :
  let state := {| PSO_ES.archive := [[0]; [0]]; PSO_ES.fitness := [9; 9];
                  PSO_ES.velocity := [[0]; [0]];
                  PSO_ES.best_archive := [[0]; [0]];
                  PSO_ES.best_fitness := [9; 9] |} in
  let batches := [([[1]; [2]], [5; 7]); ([[3]; [4]], [6; 2])] in
  length (PSO_ES.best_fitness (PSO_ES.tell_loop batches state)) = 2%nat.
Proof.
  intros state batches.
  assert (Hall : Forall (fun b : mat * vec => length (snd b) = 2%nat) batches)
    by (repeat constructor).
  exact (proj1 (X14_pso_best_fitness_running_min batches state 2 eq_refl Hall)).
Defined.

Lemma list_eq_nth {A} (d : A) (l1 l2 : list A) n :
  length l1 = n -> length l2 = n ->
  (forall i, (i < n)%nat -> nth i l1 d = nth i l2 d) -> l1 = l2.
Proof.
  intros H1 H2 Hnth; apply (nth_ext _ _ d d); [congruence|].
  intros i Hi; apply Hnth; lia.
Qed.

Lemma uniform2_shape `{RandomStream} rng r c lo hi :
  length (uniform2 rng r c lo hi) = r /\
  Forall (fun row => length row = c) (uniform2 rng r c lo hi).
Proof.
  unfold uniform2; split; [now rewrite length_map, length_seq|].
  apply Forall_map, Forall_forall; intros i _.
  now rewrite length_map, length_seq.
Qed.

Lemma tell_pso_best_archive_length x fitness state P :
  length fitness = P -> length (PSO_ES.best_fitness state) = P ->
  length x = P -> length (PSO_ES.best_archive state) = P ->
  length (PSO_ES.best_archive (PSO_ES.tell x fitness state)) = P.
Proof.
  intros Hf Hb Hx Ha; unfold PSO_ES.tell; cbn [PSO_ES.best_archive].
  unfold madd; rewrite !map2_length; len.
Qed.

(** X15.  The first [tell] after [initialize] adopts the whole batch as
    personal bests: for a batch of [popsize] rows of [num_dims] columns
    whose fitness values are all at most the initial [20e10], afterwards
    [best_archive] is the batch and [best_fitness] is its fitness. *)
Theorem X15_pso_first_tell_adopts_batch :
  forall `{RandomStream} (es : PSO_ES.Strategy) (rng : PRNGKey)
         (params : PSO_ES.Params) (x : mat) (fitness : vec),
    length x = PSO_ES.popsize es ->
    Forall (fun row => length row = PSO_ES.num_dims es) x ->
    length fitness = PSO_ES.popsize es ->
    Forall (fun v => v <= 200000000000) fitness ->
    let s' := PSO_ES.tell x fitness (PSO_ES.initialize es rng params) in
    PSO_ES.best_archive s' = x /\ PSO_ES.best_fitness s' = fitness.
Proof.
  intros RS es rng params x fitness Hx Hrows Hf Hle s'.
  set (s0 := PSO_ES.initialize es rng params) in *.
  set (P := PSO_ES.popsize es) in *.
  destruct (uniform2_shape rng P (PSO_ES.num_dims es)
              (PSO_ES.init_min params) (PSO_ES.init_max params)) as [Hal Har].
  assert (Hbf : length (PSO_ES.best_fitness s0) = P)
    by (simpl; unfold zeros; now rewrite length_map, repeat_length).
  assert (Hba : length (PSO_ES.best_archive s0) = P) by exact Hal.
  assert (Hstep : forall i, (i < P)%nat ->
            nth i (PSO_ES.best_archive s') [] = nth i x [] /\
            nth i (PSO_ES.best_fitness s') 0 = nth i fitness 0).
  { intros i Hi.
    apply (pso_tell_particle x fitness s0 P (PSO_ES.num_dims es) i
             Hf Hbf Hx Hba Hrows Har Hi).
    simpl; rewrite nth_map_in by (unfold zeros; rewrite repeat_length; exact Hi).
    unfold zeros; rewrite nth_repeat.
    rewrite Forall_forall in Hle.
    assert (Hv : nth i fitness 0 <= 200000000000) by (apply Hle, nth_In; len).
    lra. }
  split.
  - apply (list_eq_nth [] _ _ P); auto.
    + now apply tell_pso_best_archive_length.
    + intros i Hi; apply Hstep, Hi.
  - apply (list_eq_nth 0 _ _ P); auto.
    + unfold s'; rewrite tell_pso_best_fitness; now apply vmin_length.
    + intros i Hi; apply Hstep, Hi.
Qed.

Lemma X15_pso_first_tell_adopts_batch_witness :
  let es := PSO_ES.init 2 1 in
  let x := [[1]; [2]] in
  let fitness := [5; 7] in
  let s' := PSO_ES.tell x fitness (PSO_ES.initialize es 0%nat PSO_ES.default_params) in
  PSO_ES.best_archive s' = x /\ PSO_ES.best_fitness s' = fitness.
Proof.
  intros es x fitness s'.
  assert (Hrows : Forall (fun row : vec => length row = PSO_ES.num_dims es) x)
    by (repeat constructor).
  assert (Hle : Forall (fun v => v <= 200000000000) fitness)
    by (repeat constructor; lra).
  exact (@X15_pso_first_tell_adopts_batch CounterStream es 0%nat
           PSO_ES.default_params x fitness eq_refl Hrows eq_refl Hle).
Defined.

(** ** Particle swarm: the velocities of [ask] *)

Lemma vadd_zeros_r (a : vec) D : length a = D -> vadd a (zeros D) = a.
Proof.
  intros <-; unfold vadd, zeros; induction a as [|u a IH]; simpl;
    [reflexivity|].
  rewrite IH; f_equal; lra.
Qed.

Lemma zeros_length D : length (zeros D) = D.
Proof. apply repeat_length. Qed.

Lemma ask_pso_member `{RandomStream} split es rng state params i :
  length (split rng (PSO_ES.popsize es)) = PSO_ES.popsize es ->
  length (PSO_ES.archive state) = PSO_ES.popsize es ->
  (i < PSO_ES.popsize es)%nat ->
  let vel_i :=
    PSO_ES.single_member_velocity (nth i (split rng (PSO_ES.popsize es)) rng) i
      (PSO_ES.archive state) (PSO_ES.velocity state) (PSO_ES.best_archive state)
      (PSO_ES.best_fitness state) (PSO_ES.inertia_coeff params)
      (PSO_ES.cognitive_coeff params) (PSO_ES.social_coeff params) in
  let s' := snd (PSO_ES.ask split es rng state params) in
  let y := madd (PSO_ES.archive state) (PSO_ES.velocity s') in
  nth i (PSO_ES.velocity s') [] = vel_i /\
  length y = PSO_ES.popsize es /\
  nth i y [] = vadd (nth i (PSO_ES.archive state) []) vel_i /\
  fst (PSO_ES.ask split es rng state params) =
  squeeze (PSO_ES.popsize es) (PSO_ES.num_dims es) y.
Proof.
  intros Hsplit Harch Hi vel_i s' y; unfold y, s'.
  unfold PSO_ES.ask; cbn [fst snd PSO_ES.velocity].
  set (vel := map2 _ (split rng (PSO_ES.popsize es)) (seq 0 (PSO_ES.popsize es))).
  assert (Hv : nth i vel [] = vel_i).
  { unfold vel.
    rewrite (map2_nth (C:=vec) _ _ _ i rng 0%nat [])
      by (rewrite ?length_seq; len).
    now rewrite seq_nth by exact Hi. }
  assert (Hvl : length vel = PSO_ES.popsize es)
    by (unfold vel; rewrite map2_length, length_seq; len).
  assert (Hyl : length (madd (PSO_ES.archive state) vel) = PSO_ES.popsize es)
    by (unfold madd; rewrite map2_length; len).
  split; [exact Hv|].
  split; [exact Hyl|].
  split.
  - unfold madd; rewrite (map2_nth vadd _ _ i [] [] []) by len.
    now rewrite Hv.
  - now rewrite Hyl.
Qed.

(** X16.  In [ask] of PSO a particle with zero velocity that sits at its
    personal best, when that is also the global best position, stays where
    it is and keeps zero velocity, whatever is drawn; and [ask] changes
    nothing in the state but the velocities.  What [ask] returns is the
    squeezed form of the batch of new positions: the batch itself when
    neither the population nor the dimension is [1], a flat array with one
    entry per particle when only the dimension is [1], the one row when
    only the population is [1], and a single number when both are [1]. *)
Theorem X16_pso_particle_at_rest :
  forall `{RandomStream} (split : PRNGKey -> nat -> list PRNGKey)
         (es : PSO_ES.Strategy) (rng : PRNGKey) (state : PSO_ES.State)
         (params : PSO_ES.Params) (i : nat) (a : vec),
    length (split rng (PSO_ES.popsize es)) = PSO_ES.popsize es ->
    length (PSO_ES.archive state) = PSO_ES.popsize es ->
    (i < PSO_ES.popsize es)%nat ->
    length a = PSO_ES.num_dims es ->
    nth i (PSO_ES.archive state) [] = a ->
    nth i (PSO_ES.best_archive state) [] = a ->
    nth (argmin (PSO_ES.best_fitness state)) (PSO_ES.best_archive state) [] = a ->
    nth i (PSO_ES.velocity state) [] = zeros (PSO_ES.num_dims es) ->
    let out := fst (PSO_ES.ask split es rng state params) in
    let s' := snd (PSO_ES.ask split es rng state params) in
    (nth i (PSO_ES.velocity s') [] = zeros (PSO_ES.num_dims es) /\
     PSO_ES.archive s' = PSO_ES.archive state /\
     PSO_ES.fitness s' = PSO_ES.fitness state /\
     PSO_ES.best_archive s' = PSO_ES.best_archive state /\
     PSO_ES.best_fitness s' = PSO_ES.best_fitness state) /\
    exists y : mat,
      length y = PSO_ES.popsize es /\
      nth i y [] = a /\
      out = squeeze (PSO_ES.popsize es) (PSO_ES.num_dims es) y /\
      (PSO_ES.popsize es <> 1%nat -> PSO_ES.num_dims es <> 1%nat ->
       out = Matrix y) /\
      (PSO_ES.popsize es <> 1%nat -> PSO_ES.num_dims es = 1%nat ->
       out = Vector (column 0 y) /\ nth i (column 0 y) 0 = nth 0 a 0) /\
      (PSO_ES.popsize es = 1%nat -> PSO_ES.num_dims es <> 1%nat ->
       out = Vector a) /\
      (PSO_ES.popsize es = 1%nat -> PSO_ES.num_dims es = 1%nat ->
       out = Scalar (nth 0 a 0)).
Proof.
  intros RS split es rng state params i a Hsplit Harch Hi Ha Hx Hp Hg Hv out s'.
  destruct (ask_pso_member split es rng state params i Hsplit Harch Hi)
    as (Hvel & Hlen & Hy & Hout).
  assert (Hrest : PSO_ES.single_member_velocity
                    (nth i (split rng (PSO_ES.popsize es)) rng) i
                    (PSO_ES.archive state) (PSO_ES.velocity state)
                    (PSO_ES.best_archive state) (PSO_ES.best_fitness state)
                    (PSO_ES.inertia_coeff params) (PSO_ES.cognitive_coeff params)
                    (PSO_ES.social_coeff params)
                  = zeros (PSO_ES.num_dims es)).
  { unfold PSO_ES.single_member_velocity.
    rewrite Hx, Hp, Hg, Hv, vsub_self, Ha, !scale_zeros.
    now rewrite !(vadd_zeros_r (zeros (PSO_ES.num_dims es)))
      by apply zeros_length. }
  rewrite Hrest, Hx, (vadd_zeros_r a _ Ha) in Hy.
  fold s' in Hvel, Hlen, Hy, Hout; fold out in Hout.
  split.
  { split; [now rewrite Hvel, Hrest|]; repeat split. }
  exists (madd (PSO_ES.archive state) (PSO_ES.velocity s')).
  split; [exact Hlen|].
  split; [exact Hy|].
  split; [exact Hout|].
  rewrite Hout; unfold squeeze.
  split; [|split; [|split]].
  - intros HP HD; apply Nat.eqb_neq in HP, HD; now rewrite HP, HD.
  - intros HP HD; apply Nat.eqb_neq in HP; rewrite HP, HD.
    split; [reflexivity|].
    rewrite column_nth; unfold entry; now rewrite Hy.
  - intros HP HD; apply Nat.eqb_neq in HD; rewrite HD, HP.
    assert (i = 0)%nat as Hi0 by lia.
    rewrite Hi0 in Hy; cbn [Nat.eqb]; now rewrite Hy.
  - intros HP HD; rewrite HP, HD.
    assert (i = 0)%nat as Hi0 by lia.
    rewrite Hi0 in Hy; cbn [Nat.eqb]; now rewrite Hy.
Qed.

Lemma X16_pso_particle_at_rest_witness :
  let es := PSO_ES.init 2 1 in
  let state := {| PSO_ES.archive := [[3]; [4]]; PSO_ES.fitness := [1; 2];
                  PSO_ES.velocity := [[0]; [5]];
                  PSO_ES.best_archive := [[3]; [6]];
                  PSO_ES.best_fitness := [1; 2] |} in
  let split := fun (k n : nat) => seq k n in
  exists v : vec,
    fst (PSO_ES.ask split es 0%nat state PSO_ES.default_params) = Vector v /\
    nth 0 v 0 = 3.
Proof.
  intros es state split.
  assert (Hg : nth (argmin (PSO_ES.best_fitness state))
                   (PSO_ES.best_archive state) [] = [3]).
  { simpl; unfold Rltb; destruct (Rlt_dec 2 1); [lra | reflexivity]. }
  destruct (@X16_pso_particle_at_rest CounterStream split es 0%nat state
              PSO_ES.default_params 0%nat [3]
              eq_refl eq_refl (Nat.lt_0_succ 1) eq_refl eq_refl eq_refl
              Hg eq_refl) as (_ & y & _ & _ & _ & _ & Hvec & _).
  exists (column 0 y).
  apply Hvec; [discriminate | reflexivity].
Defined.

Lemma argmin_from_spec (v pre : vec) (best : R) (bi : nat) :
  (bi < length pre)%nat ->
  nth bi pre 0 = best ->
  (forall k, (k < length pre)%nat -> best <= nth k pre 0) ->
  (forall k, (k < bi)%nat -> best < nth k pre 0) ->
  let r := argmin_from best bi (length pre) v in
  (r < length (pre ++ v))%nat /\
  (forall k, (k < length (pre ++ v))%nat ->
     nth r (pre ++ v) 0 <= nth k (pre ++ v) 0) /\
  (forall k, (k < r)%nat -> nth r (pre ++ v) 0 < nth k (pre ++ v) 0).
Proof.
  revert pre best bi; induction v as [|a v IH]; intros pre best bi Hbi Hb Hmin Hfirst.
  - simpl; rewrite app_nil_r, Hb; repeat split; auto.
  - cbn [argmin_from].
    replace (pre ++ a :: v) with ((pre ++ [a]) ++ v)
      by (now rewrite <- app_assoc).
    replace (S (length pre)) with (length (pre ++ [a]))
      by (rewrite length_app; simpl; lia).
    assert (Hnth : forall k, (k < length pre)%nat ->
              nth k (pre ++ [a]) 0 = nth k pre 0)
      by (intros k Hk; now apply app_nth1).
    assert (Hlast : nth (length pre) (pre ++ [a]) 0 = a)
      by (rewrite app_nth2, Nat.sub_diag by lia; reflexivity).
    unfold Rltb; destruct (Rlt_dec a best) as [Hlt|Hge]; apply IH.
    + rewrite length_app; simpl; lia.
    + exact Hlast.
    + intros k Hk; rewrite length_app in Hk; simpl in Hk.
      destruct (Nat.eq_dec k (length pre)) as [->|Hne]; [rewrite Hlast; lra|].
      rewrite Hnth by lia; specialize (Hmin k ltac:(lia)); lra.
    + intros k Hk; rewrite Hnth by lia; specialize (Hmin k Hk); lra.
    + rewrite length_app; simpl; lia.
    + now rewrite Hnth.
    + intros k Hk; rewrite length_app in Hk; simpl in Hk.
      destruct (Nat.eq_dec k (length pre)) as [->|Hne]; [rewrite Hlast; lra|].
      rewrite Hnth by lia; apply Hmin; lia.
    + intros k Hk; rewrite Hnth by lia; now apply Hfirst.
Qed.

Lemma argmin_spec (v : vec) :
  v <> [] ->
  (argmin v < length v)%nat /\
  (forall k, (k < length v)%nat -> nth (argmin v) v 0 <= nth k v 0) /\
  (forall k, (k < argmin v)%nat -> nth (argmin v) v 0 < nth k v 0).
Proof.
  destruct v as [|a v]; [congruence | intros _].
  apply (argmin_from_spec v [a] a 0); simpl; auto; try lia.
  intros [|k] Hk; [lra | lia].
Qed.

(** X17.  In [single_member_velocity] the social term pulls towards the
    personal best position of the first particle whose best fitness is
    least: for a swarm that is not empty the index [g] used is in range,
    no particle has a lower [best_fitness], every earlier particle has a
    higher one, and the new velocity is [inertia * v_i + cognitive * r1 *
    (p_i - x_i) + social * r2 * (p_g - x_i)]. *)
Theorem X17_pso_velocity_global_best :
  forall `{RandomStream} (rng : PRNGKey) (i : nat)
         (archive velocity best_archive : mat) (best_fitness : vec) (w c1 c2 : R),
    best_fitness <> [] ->
    let g := argmin best_fitness in
    let r := uniform rng 2 0 1 in
    (g < length best_fitness)%nat /\
    (forall k, (k < length best_fitness)%nat ->
       nth g best_fitness 0 <= nth k best_fitness 0) /\
    (forall k, (k < g)%nat -> nth g best_fitness 0 < nth k best_fitness 0) /\
    PSO_ES.single_member_velocity rng i archive velocity best_archive
      best_fitness w c1 c2 =
    vadd (vadd (scale w (nth i velocity []))
               (scale (c1 * nth 0 r 0)
                      (vsub (nth i best_archive []) (nth i archive []))))
         (scale (c2 * nth 1 r 0)
                (vsub (nth g best_archive []) (nth i archive []))).
Proof.
  intros RS rng i archive velocity best_archive best_fitness w c1 c2 Hne g r.
  destruct (argmin_spec best_fitness Hne) as (Hlt & Hmin & Hfirst).
  repeat split; auto.
Qed.

Lemma X17_pso_velocity_global_best_witness :
  let best_fitness := [3; 1; 1] in
  (argmin best_fitness < length best_fitness)%nat /\
  (forall k, (k < argmin best_fitness)%nat ->
     nth (argmin best_fitness) best_fitness 0 < nth k best_fitness 0).
Proof.
  intros best_fitness.
  assert (Hne : best_fitness <> []) by discriminate.
  destruct (@X17_pso_velocity_global_best CounterStream 0%nat 0%nat
              [[0]; [0]; [0]] [[0]; [0]; [0]] [[0]; [0]; [0]] best_fitness
              1 1 1 Hne) as (Hlt & _ & Hfirst & _).
  split; assumption.
Defined.

(** ** SNES: the shape of the recombination weights *)

Lemma Rmax_le_compat_l' (a b : R) : a <= b -> Rmax 0 a <= Rmax 0 b.
Proof. intros Hab; unfold Rmax; repeat destruct (Rle_dec _ _); lra. Qed.

Lemma ln_monotone (a b : R) : 0 < a -> a <= b -> ln a <= ln b.
Proof.
  intros Ha [Hlt|<-]; [left; now apply ln_increasing | right; reflexivity].
Qed.

Lemma sum_nonneg (v : vec) : Forall (fun a => 0 <= a) v -> 0 <= Jnp.sum v.
Proof.
  induction 1 as [|a v Ha Hv IH]; simpl; lra.
Qed.

Lemma sum_shift (c : R) (v : vec) :
  Jnp.sum (map (fun w => w - c) v) = Jnp.sum v - c * INR (length v).
Proof.
  induction v as [|a v IH]; [simpl; lra|].
  cbn [map Jnp.sum fold_right length]; fold (Jnp.sum (map (fun w => w - c) v)).
  fold (Jnp.sum v); rewrite IH, S_INR; lra.
Qed.

Lemma snes_raw_weights_positive (P : nat) :
  (1 <= P)%nat ->
  0 < Jnp.sum (map (SNES.get_weight P) (seq 1 P)).
Proof.
  intros HP; destruct P as [|P]; [lia|].
  cbn [seq map Jnp.sum fold_right].
  assert (Hrest : 0 <= fold_right Rplus 0 (map (SNES.get_weight (S P)) (seq 2 P))).
  { apply sum_nonneg, Forall_map, Forall_forall; intros i _; apply Rmax_l. }
  assert (Hfirst : 0 < SNES.get_weight (S P) 1).
  { unfold SNES.get_weight.
    replace (INR 1) with 1 by reflexivity; rewrite ln_1.
    pose proof (pos_INR P) as HP0.
    assert (Hl : 0 < ln (INR (S P) / 2 + 1)).
    { rewrite <- ln_1; apply ln_increasing; [lra|]; rewrite S_INR; lra. }
    eapply Rlt_le_trans; [exact Hl|].
    rewrite Rminus_0_r; apply Rmax_r. }
  lra.
Qed.

(** X18.  For a population of at least one, the weights of
    [get_snes_weights] sum to zero with the baseline and to one without
    it. *)
Theorem X18_snes_weights_sum :
  forall (P : nat),
    (1 <= P)%nat ->
    length (SNES.get_snes_weights P true) = P /\
    Jnp.sum (SNES.get_snes_weights P true) = 0 /\
    Jnp.sum (SNES.get_snes_weights P false) = 1.
Proof.
  intros P HP; pose proof (snes_raw_weights_positive P HP) as HS.
  assert (HP0 : 0 < INR P) by (apply lt_0_INR; lia).
  unfold SNES.get_snes_weights.
  set (ws := map (SNES.get_weight P) (seq 1 P)) in *.
  assert (Hnorm : Jnp.sum (map (fun w => w / Jnp.sum ws) ws) = 1).
  { rewrite (sum_map_linear _ (/ Jnp.sum ws)) by (intros; unfold Rdiv; lra).
    field; lra. }
  assert (Hlen : length (map (fun w => w / Jnp.sum ws) ws) = P)
    by (unfold ws; now rewrite !length_map, length_seq).
  repeat split.
  - now rewrite length_map.
  - rewrite sum_shift, Hnorm, Hlen; simpl b2r; field; lra.
  - rewrite sum_shift, Hnorm, Hlen; simpl b2r; lra.
Qed.

Lemma X18_snes_weights_sum_witness :
  Jnp.sum (SNES.get_snes_weights 4 true) = 0.
Proof.
  assert (HP : (1 <= 4)%nat) by lia.
  exact (proj1 (proj2 (X18_snes_weights_sum 4 HP))).
Defined.

(** X19.  The weights of [get_snes_weights] do not increase with the rank:
    a better rank never weighs less than a worse one. *)
Theorem X19_snes_weights_monotone :
  forall (P i k : nat) (use_baseline : bool),
    (1 <= i)%nat -> (i <= k)%nat -> (k <= P)%nat ->
    nth (k - 1) (SNES.get_snes_weights P use_baseline) 0
    <= nth (i - 1) (SNES.get_snes_weights P use_baseline) 0.
Proof.
  intros P i k use_baseline Hi Hik HkP.
  pose proof (snes_raw_weights_positive P ltac:(lia)) as HS.
  unfold SNES.get_snes_weights.
  set (ws := map (SNES.get_weight P) (seq 1 P)) in *.
  rewrite !map_map.
  set (F := fun n => SNES.get_weight P n / Jnp.sum ws
                     - b2r use_baseline * (1 / INR P)).
  assert (Hnth : forall n, (1 <= n <= P)%nat ->
            nth (n - 1) (map (fun x => SNES.get_weight P x / Jnp.sum ws
                                       - b2r use_baseline * (1 / INR P))
                             (seq 1 P)) 0 = F n).
  { intros n Hn.
    rewrite (nth_indep _ 0 (F 0%nat)) by (rewrite length_map, length_seq; lia).
    rewrite (map_nth F), seq_nth by lia.
    now replace (1 + (n - 1))%nat with n by lia. }
  unfold ws; rewrite map_map, !Hnth by lia; fold ws; unfold F.
  assert (Hw : SNES.get_weight P k <= SNES.get_weight P i).
  { unfold SNES.get_weight; apply Rmax_le_compat_l'.
    assert (Hln : ln (INR i) <= ln (INR k)).
    { apply ln_monotone; [apply lt_0_INR; lia | apply le_INR; lia]. }
    lra. }
  pose proof (Rinv_0_lt_compat _ HS) as Hinv.
  unfold Rdiv; nra.
Qed.

Lemma X19_snes_weights_monotone_witness :
  nth (4 - 1) (SNES.get_snes_weights 4 true) 0
  <= nth (1 - 1) (SNES.get_snes_weights 4 true) 0.
Proof.
  assert (H1 : (1 <= 1)%nat) by lia.
  assert (H2 : (1 <= 4)%nat) by lia.
  assert (H3 : (4 <= 4)%nat) by lia.
  exact (X19_snes_weights_monotone 4 1 4 true H1 H2 H3).
Defined.

(** ** SNES: what the update keeps *)

Lemma sum_perm (u v : vec) : Permutation u v -> Jnp.sum u = Jnp.sum v.
Proof.
  induction 1 as [|a u v Hp IH|a b u|u v w Huv IHuv Hvw IHvw]; simpl; lra.
Qed.

Lemma mean_axis0_perm D (m m' : mat) :
  Permutation m m' -> mean_axis0 D m = mean_axis0 D m'.
Proof.
  intros Hp; unfold mean_axis0, transpose; rewrite !map_map.
  apply map_ext; intros j; unfold Jnp.mean.
  rewrite (sum_perm (column j m) (column j m'))
    by (unfold column; now apply Permutation_map).
  f_equal; f_equal; rewrite !column_length.
  apply (Permutation_length Hp).
Qed.

(** X20.  Workers that hold the same state and reduce over the same
    updates reach the same next state: [apply_update] gives the same
    result when this worker's update and those of its peers are
    exchanged or reordered. *)
Theorem X20_snes_workers_agree :
  forall (es : SNES.Strategy) (peers peers' : list SNES.EvoUpdate)
         (u u' : SNES.EvoUpdate) (state : SNES.EvoState) (params : SNES.EvoParams),
    Permutation (u :: peers) (u' :: peers') ->
    SNES.apply_update_strategy es peers u state params =
    SNES.apply_update_strategy es peers' u' state params.
Proof.
  intros es peers peers' u u' state params Hp.
  unfold SNES.apply_update_strategy, SNES.pmean.
  change (SNES.delta_mean u :: map SNES.delta_mean peers)
    with (map SNES.delta_mean (u :: peers)).
  change (SNES.delta_sigma u :: map SNES.delta_sigma peers)
    with (map SNES.delta_sigma (u :: peers)).
  change (SNES.delta_mean u' :: map SNES.delta_mean peers')
    with (map SNES.delta_mean (u' :: peers')).
  change (SNES.delta_sigma u' :: map SNES.delta_sigma peers')
    with (map SNES.delta_sigma (u' :: peers')).
  now rewrite (mean_axis0_perm _ _ _ (Permutation_map SNES.delta_mean Hp)),
              (mean_axis0_perm _ _ _ (Permutation_map SNES.delta_sigma Hp)).
Qed.

Lemma X20_snes_workers_agree_witness :
  let es := {| SNES.popsize := 2; SNES.num_dims := 1;
               SNES.strategy_sigma_init := 1; SNES.strategy_temperature := 0 |} in
  let state := {| SNES.mean := [0]; SNES.sigma := [1];
                  SNES.weights := [1 / 2; - (1 / 2)]; SNES.gen_counter := 0 |} in
  let ua := {| SNES.delta_mean := [1]; SNES.delta_sigma := [2] |} in
  let ub := {| SNES.delta_mean := [3]; SNES.delta_sigma := [4] |} in
  SNES.apply_update_strategy es [ub] ua state (SNES.params_strategy es) =
  SNES.apply_update_strategy es [ua] ub state (SNES.params_strategy es).
Proof.
  intros es state ua ub.
  exact (X20_snes_workers_agree es [ub] [ua] ua ub state (SNES.params_strategy es)
           (perm_swap ub ua [])).
Defined.

Lemma get_update_delta_sigma_positive es x fitness state params :
  let u := SNES.get_update_strategy es x fitness state params in
  length (SNES.delta_sigma u) = SNES.num_dims es /\
  Forall (fun d => 0 < d) (SNES.delta_sigma u).
Proof.
  unfold SNES.get_update_strategy; cbn [SNES.delta_sigma]; split.
  - unfold sum_axis0, transpose; now rewrite !length_map, length_seq.
  - apply Forall_map, Forall_forall; intros g _; apply exp_pos.
Qed.

Lemma sum_positive (v : vec) :
  v <> [] -> Forall (fun a => 0 < a) v -> 0 < Jnp.sum v.
Proof.
  intros Hne Hv; destruct Hv as [|a v Ha Hv]; [congruence|].
  simpl; assert (0 <= Jnp.sum v)
    by (apply sum_nonneg; eapply Forall_impl; [|exact Hv]; intros; simpl in *; lra).
  unfold Jnp.sum in *; lra.
Qed.

Lemma mean_axis0_positive D (m : mat) j :
  m <> [] -> (j < D)%nat ->
  Forall (fun row => length row = D /\ Forall (fun d => 0 < d) row) m ->
  0 < nth j (mean_axis0 D m) 0.
Proof.
  intros Hne Hj Hm; unfold mean_axis0, transpose; rewrite map_map.
  set (F := fun k => Jnp.mean (column k m)).
  rewrite (nth_indep _ 0 (F 0%nat)) by (rewrite length_map, length_seq; exact Hj).
  rewrite (map_nth F), seq_nth by exact Hj; unfold F, Jnp.mean; simpl plus.
  assert (Hcol : Forall (fun a => 0 < a) (column j m)).
  { unfold column; apply Forall_map; eapply Forall_impl; [|exact Hm].
    intros row [Hl Hpos]; rewrite Forall_forall in Hpos.
    apply Hpos, nth_In; len. }
  assert (Hne' : column j m <> [])
    by (destruct m; [congruence | discriminate]).
  pose proof (sum_positive _ Hne' Hcol).
  apply Rdiv_lt_0_compat; [assumption|].
  apply lt_0_INR; destruct (column j m); [congruence | simpl; lia].
Qed.

(** X21.  [sigma] stays positive under the SNES update: if every
    coordinate of [sigma] is positive and the state's [sigma] has
    [num_dims] coordinates, then after [apply_update] on the update that
    [get_update] computed, reduced with any peer updates that [get_update]
    computed, [sigma] again has [num_dims] positive coordinates. *)
Theorem X21_snes_sigma_stays_positive :
  forall (es : SNES.Strategy) (x : mat) (fitness : vec)
         (peer_inputs : list (mat * vec * SNES.EvoState))
         (state : SNES.EvoState) (params : SNES.EvoParams),
    length (SNES.sigma state) = SNES.num_dims es ->
    Forall (fun s => 0 < s) (SNES.sigma state) ->
    let u := SNES.get_update_strategy es x fitness state params in
    let peers :=
      map (fun b => SNES.get_update_strategy es (fst (fst b)) (snd (fst b))
                      (snd b) params) peer_inputs in
    let s' := SNES.apply_update_strategy es peers u state params in
    length (SNES.sigma s') = SNES.num_dims es /\
    Forall (fun s => 0 < s) (SNES.sigma s').
Proof.
  intros es x fitness peer_inputs state params Hl Hpos u peers s'.
  set (D := SNES.num_dims es) in *.
  set (deltas := SNES.delta_sigma u :: map SNES.delta_sigma peers).
  assert (Hd : Forall (fun row => length row = D /\ Forall (fun d => 0 < d) row)
                      deltas).
  { unfold deltas; constructor;
      [apply get_update_delta_sigma_positive|].
    unfold peers; rewrite map_map; apply Forall_map, Forall_forall.
    intros b _; apply get_update_delta_sigma_positive. }
  assert (Hml : length (mean_axis0 D deltas) = D)
    by (unfold mean_axis0, transpose; now rewrite !length_map, length_seq).
  assert (Hsl : length (SNES.sigma s') = D).
  { unfold s', SNES.apply_update_strategy, SNES.pmean; cbn [SNES.sigma].
    fold D; fold deltas; unfold vmul; rewrite map2_length; len. }
  split; [exact Hsl|].
  apply Forall_forall; intros v Hv.
  apply (In_nth _ _ 0) in Hv; destruct Hv as (j & Hj & <-).
  rewrite Hsl in Hj.
  unfold s', SNES.apply_update_strategy, SNES.pmean; cbn [SNES.sigma].
  fold D; fold deltas; unfold vmul.
  rewrite (map2_nth Rmult _ _ j 0 0 0) by len.
  apply Rmult_lt_0_compat.
  - rewrite Forall_forall in Hpos; apply Hpos, nth_In; len.
  - apply mean_axis0_positive; [discriminate | exact Hj | exact Hd].
Qed.

Lemma X21_snes_sigma_stays_positive_witness :
  let es := {| SNES.popsize := 2; SNES.num_dims := 1;
               SNES.strategy_sigma_init := 1; SNES.strategy_temperature := 0 |} in
  let state := {| SNES.mean := [0]; SNES.sigma := [1];
                  SNES.weights := [1 / 2; - (1 / 2)]; SNES.gen_counter := 0 |} in
  let params := SNES.params_strategy es in
  let u := SNES.get_update_strategy es [[1]; [2]] [3; 1] state params in
  Forall (fun s => 0 < s)
         (SNES.sigma (SNES.apply_update_strategy es [] u state params)).
Proof.
  intros es state params u.
  assert (Hpos : Forall (fun s => 0 < s) (SNES.sigma state))
    by (repeat constructor; lra).
  exact (proj2 (X21_snes_sigma_stays_positive es [[1]; [2]] [3; 1] [] state
                  params eq_refl Hpos)).
Defined.

Lemma snes_ask_entry `{RandomStream} es rng (state : SNES.EvoState) params r j :
  length (SNES.mean state) = SNES.num_dims es ->
  length (SNES.sigma state) = SNES.num_dims es ->
  (r < SNES.popsize es)%nat -> (j < SNES.num_dims es)%nat ->
  entry (fst (SNES.ask_strategy es rng state params)) r j =
  nth j (SNES.mean state) 0
  + nth j (SNES.sigma state) 0
    * entry (normal rng (SNES.popsize es) (SNES.num_dims es)) r j.
Proof.
  intros Hm Hs Hr Hj; unfold SNES.ask_strategy; cbn [fst].
  rewrite entry_map_rows by (now rewrite normal_rows).
  apply (vadd_vmul_nth _ _ _ (SNES.num_dims es)); auto.
  pose proof (normal_cols rng (SNES.popsize es) (SNES.num_dims es)) as Hc.
  rewrite Forall_forall in Hc; apply Hc, nth_In; now rewrite normal_rows.
Qed.

Lemma snes_ask_shape `{RandomStream} es rng (state : SNES.EvoState) params :
  length (SNES.mean state) = SNES.num_dims es ->
  length (SNES.sigma state) = SNES.num_dims es ->
  let x := fst (SNES.ask_strategy es rng state params) in
  length x = SNES.popsize es /\
  Forall (fun row => length row = SNES.num_dims es) x.
Proof.
  intros Hm Hs; unfold SNES.ask_strategy; cbn [fst]; split.
  - now rewrite length_map, normal_rows.
  - apply Forall_map; eapply Forall_impl; [|apply normal_cols].
    intros row Hrow; unfold vadd, vmul; rewrite !map2_length; len.
Qed.

(** X22.  [ask] followed by [get_update] on the same SNES state, whose
    [sigma] has no zero coordinate: the batch has [popsize] rows of
    [num_dims] columns, and the two deltas are computed from the drawn
    noise rows themselves, ordered by ascending fitness. *)
Theorem X22_snes_update_from_drawn_noise :
  forall `{RandomStream} (es : SNES.Strategy) (rng : PRNGKey) (fitness : vec)
         (state : SNES.EvoState) (params : SNES.EvoParams),
    length fitness = SNES.popsize es ->
    length (SNES.weights state) = SNES.popsize es ->
    length (SNES.mean state) = SNES.num_dims es ->
    length (SNES.sigma state) = SNES.num_dims es ->
    Forall (fun s => s <> 0) (SNES.sigma state) ->
    let x := fst (SNES.ask_strategy es rng state params) in
    let noise := normal rng (SNES.popsize es) (SNES.num_dims es) in
    let ranks := argsort fitness in
    let sorted_noise i j := entry noise (nth i ranks 0%nat) j in
    let u := SNES.get_update_strategy es x fitness state params in
    snd (SNES.ask_strategy es rng state params) = state /\
    length x = SNES.popsize es /\
    Forall (fun row => length row = SNES.num_dims es) x /\
    SNES.delta_mean u =
    snes_delta_mean_spec (SNES.popsize es) (SNES.num_dims es)
      (SNES.lrate_mean params) (SNES.sigma state) (SNES.weights state) sorted_noise /\
    SNES.delta_sigma u =
    snes_delta_sigma_spec (SNES.popsize es) (SNES.num_dims es)
      (SNES.lrate_sigma params) (SNES.weights state) sorted_noise.
Proof.
  intros RS es rng fitness state params Hf Hw Hm Hs Hnz x noise ranks sorted_noise u.
  destruct (snes_ask_shape es rng state params Hm Hs) as [Hx Hrows].
  fold x in Hx, Hrows.
  assert (Hnoise : forall i j, (i < SNES.popsize es)%nat ->
            (j < SNES.num_dims es)%nat ->
            snes_noise_spec x (SNES.mean state) (SNES.sigma state)
                            (nth i ranks 0%nat) j = sorted_noise i j).
  { intros i j Hi Hj; unfold snes_noise_spec, sorted_noise, x.
    rewrite snes_ask_entry; auto;
      [|now apply (snes_rank_lt es x fitness state Hx Hf Hw Hm Hs)].
    fold noise.
    assert (Hsj : nth j (SNES.sigma state) 0 <> 0).
    { rewrite Forall_forall in Hnz; apply Hnz, nth_In; len. }
    field; exact Hsj. }
  split; [reflexivity|]; split; [exact Hx|]; split; [exact Hrows|]; split.
  - unfold u; rewrite snes_delta_mean by assumption.
    unfold snes_delta_mean_spec; apply map_ext_in; intros j Hj.
    apply in_seq in Hj; f_equal.
    apply big_sum_ext; intros i Hi; f_equal; apply Hnoise; lia.
  - unfold u; rewrite snes_delta_sigma by assumption.
    unfold snes_delta_sigma_spec; apply map_ext_in; intros j Hj.
    apply in_seq in Hj; do 2 f_equal.
    apply big_sum_ext; intros i Hi; do 3 f_equal; apply Hnoise; lia.
Qed.

Lemma X22_snes_update_from_drawn_noise_witness :
  let es := {| SNES.popsize := 2; SNES.num_dims := 1;
               SNES.strategy_sigma_init := 1; SNES.strategy_temperature := 0 |} in
  let state := {| SNES.mean := [0]; SNES.sigma := [1];
                  SNES.weights := [1 / 2; - (1 / 2)]; SNES.gen_counter := 0 |} in
  let params := SNES.params_strategy es in
  length (fst (SNES.ask_strategy es 3%nat state params)) = 2%nat.
Proof.
  intros es state params.
  assert (Hnz : Forall (fun s => s <> 0) (SNES.sigma state))
    by (repeat constructor; lra).
  exact (proj1 (proj2 (@X22_snes_update_from_drawn_noise CounterStream es 3%nat
                         [3; 1] state params eq_refl eq_refl eq_refl eq_refl Hnz))).
Defined.

(** ** PEPG: what a run of [tell] calls keeps *)

Lemma tell_pepg_fitness `{Optimizer.GradientOptimizer} es x fitness
  (state : PEPG_ES.State) params s' :
  PEPG_ES.tell_strategy es x fitness state params = Ok s' ->
  PEPG_ES.fitness s' = PEPG_ES.fitness state.
Proof.
  unfold PEPG_ES.tell_strategy.
  destruct (py_truediv 1 (PEPG_ES.elite_popsize es)) as [inv|e];
    [|discriminate].
  cbn [bind]; unfold PEPG_ES.optimizer_step.
  destruct (Optimizer.step_rule _ _ _ _ _) as [mean' acc'].
  now intros [= <-].
Qed.

Lemma tell_pepg_sigma_length `{Optimizer.GradientOptimizer} es x fitness
  (state : PEPG_ES.State) params s' :
  PEPG_ES.tell_strategy es x fitness state params = Ok s' ->
  length (PEPG_ES.sigma state) = PEPG_ES.num_dims es ->
  length (PEPG_ES.sigma s') = PEPG_ES.num_dims es.
Proof.
  intros Htell Hs.
  destruct (tell_pepg_sigma_shape es x fitness state params s' Htell Hs)
    as (delta & Hdl & Hcl & ->).
  rewrite !length_map; unfold vsub; rewrite map2_length; len.
Qed.

(** X23.  From the initialized state of a PEPG strategy, every run of
    [tell] calls that returns a state leaves [sigma] with [num_dims]
    coordinates and leaves the [fitness] field as [initialize_strategy]
    set it: [tell] never stores the fitness it is given. *)
Theorem X23_pepg_run_keeps_shape :
  forall `{RandomStream} `{Optimizer.GradientOptimizer} (es : PEPG_ES.Strategy)
         (rng : PRNGKey) (params : PEPG_ES.Params)
         (batches : list (mat * vec)) (s' : PEPG_ES.State),
    let s0 := PEPG_ES.initialize_strategy es rng params in
    PEPG_ES.tell_loop es batches s0 params = Ok s' ->
    length (PEPG_ES.sigma s') = PEPG_ES.num_dims es /\
    PEPG_ES.fitness s' = PEPG_ES.fitness s0 /\
    PEPG_ES.fitness s' =
    map (fun z => z - 200000000000) (zeros (PEPG_ES.popsize es)).
Proof.
  intros RS GO es rng params batches s' s0.
  assert (H0 : length (PEPG_ES.sigma s0) = PEPG_ES.num_dims es)
    by (simpl; unfold ones; now rewrite length_map, repeat_length).
  assert (Hgen : forall s,
            length (PEPG_ES.sigma s) = PEPG_ES.num_dims es ->
            PEPG_ES.tell_loop es batches s params = Ok s' ->
            length (PEPG_ES.sigma s') = PEPG_ES.num_dims es /\
            PEPG_ES.fitness s' = PEPG_ES.fitness s).
  { unfold PEPG_ES.tell_loop; induction batches as [|b batches IH]; intros s Hs.
    - simpl; now intros [= <-].
    - cbn [fold_left bind].
      destruct (PEPG_ES.tell_strategy es (fst b) (snd b) s params) as [s1|e] eqn:E.
      + intros Hrun; destruct (IH s1) as [Hl Hf]; auto.
        * eapply tell_pepg_sigma_length; eassumption.
        * split; [exact Hl|].
          rewrite Hf; eapply tell_pepg_fitness; eassumption.
      + intros Hrun; exfalso; revert Hrun.
        clear; induction batches as [|b' batches IH']; simpl;
          [discriminate | exact IH']. }
  intros Hrun; destruct (Hgen s0 H0 Hrun) as [Hl Hf].
  repeat split; auto.
Qed.

Lemma X23_pepg_run_keeps_shape_witness :
  let pepg := {| PEPG_ES.num_dims := 1; PEPG_ES.popsize := 2;
                 PEPG_ES.elite_ratio := 1; PEPG_ES.elite_popsize := 1 |} in
  let params := PEPG_ES.params_strategy Optimizer.sgd_params in
  let s0 := PEPG_ES.initialize_strategy pepg 0%nat params in
  exists s',
    PEPG_ES.tell_loop pepg [([[1]; [-1]], [1; 2])] s0 params = Ok s' /\
    length (PEPG_ES.sigma s') = 1%nat.
Proof.
  intros pepg params s0.
  assert (Hk : PEPG_ES.elite_popsize pepg <> 0%Z) by discriminate.
  destruct (@tell_loop_pepg_ok Optimizer.SGD pepg [([[1]; [-1]], [1; 2])] s0
              params Hk) as [s' Hs'].
  exists s'; split; [exact Hs'|].
  exact (proj1 (@X23_pepg_run_keeps_shape CounterStream Optimizer.SGD pepg 0%nat
                  params [([[1]; [-1]], [1; 2])] s' Hs')).
Defined.

(** ** The constructors *)

Lemma known_optimizer_iff name :
  PEPG_ES.known_optimizer name = true <->
  In name ["sgd"; "adam"; "rmsprop"; "clipup"]%string.
Proof.
  unfold PEPG_ES.known_optimizer; rewrite existsb_exists; split.
  - intros (n & Hin & Heq); apply String.eqb_eq in Heq; now subst.
  - intros Hin; exists name; split; [assumption | apply String.eqb_refl].
Qed.

Lemma even_cases P :
  (Nat.even P = true /\ Nat.Even P /\ ~ Nat.Odd P) \/
  (Nat.even P = false /\ Nat.Odd P /\ ~ Nat.Even P).
Proof.
  destruct (Nat.even P) eqn:EP.
  - left; repeat split; [now apply Nat.even_spec|].
    intros HO; apply Nat.odd_spec in HO.
    rewrite <- Nat.negb_even, EP in HO; discriminate.
  - right; repeat split.
    + apply Nat.odd_spec; now rewrite <- Nat.negb_even, EP.
    + intros HE; apply Nat.even_spec in HE; congruence.
Qed.

Lemma known_cases name :
  let names := ["sgd"; "adam"; "rmsprop"; "clipup"]%string in
  (PEPG_ES.known_optimizer name = true /\ In name names) \/
  (PEPG_ES.known_optimizer name = false /\ ~ In name names).
Proof.
  intros names; pose proof (known_optimizer_iff name) as Hk; fold names in Hk.
  destruct (PEPG_ES.known_optimizer name).
  - left; split; [reflexivity | now apply Hk].
  - right; split; [reflexivity|]; intros Hin; apply Hk in Hin; discriminate.
Qed.

(** X24.  The constructors of the antithetic strategies accept exactly the
    even population sizes, and for PEPG and Persistent ES exactly the
    optimizer names [sgd], [adam], [rmsprop] and [clipup]; everything else
    raises [AssertionError].  An odd population is rejected before the
    optimizer name is looked at. *)
Theorem X24_constructors_assert :
  forall (D P : nat) (r : R) (name : string),
    let names := ["sgd"; "adam"; "rmsprop"; "clipup"]%string in
    ((exists es, Open_NES.init D P = Ok es) <-> Nat.Even P) /\
    (Nat.Odd P -> Open_NES.init D P = Raise AssertionError) /\
    ((exists es, PEPG_ES.init D P r name = Ok es) <-> Nat.Even P /\ In name names) /\
    (Nat.Odd P \/ ~ In name names ->
     PEPG_ES.init D P r name = Raise AssertionError) /\
    ((exists es, Persistent_ES.init D P name = Ok es)
     <-> Nat.Even P /\ In name names) /\
    (Nat.Odd P \/ ~ In name names ->
     Persistent_ES.init D P name = Raise AssertionError).
Proof.
  intros D P r name names.
  destruct (even_cases P) as [(EP & HE & HO)|(EP & HO & HE)];
    destruct (known_cases name) as [(EK & Hin)|(EK & Hin)];
    fold names in Hin;
    unfold Open_NES.init, PEPG_ES.init, Persistent_ES.init;
    change (Persistent_ES.known_optimizer name)
      with (PEPG_ES.known_optimizer name);
    rewrite EP, EK; simpl;
    repeat split; intros;
    try (match goal with
         | H : exists _, _ |- _ => destruct H as [? H]; discriminate H
         end);
    try (eexists; reflexivity); try reflexivity; try tauto;
    try (exfalso; apply Hin; unfold names; simpl; tauto).
Qed.

Lemma X24_constructors_assert_witness :
  Nat.Odd 3 /\ Open_NES.init 1 3 = Raise AssertionError /\
  PEPG_ES.init 1 4 (1 / 10) "newton" = Raise AssertionError.
Proof.
  assert (HO : Nat.Odd 3) by (exists 1%nat; reflexivity).
  assert (Hname : ~ In "newton"%string ["sgd"; "adam"; "rmsprop"; "clipup"]%string).
  { simpl; intros [H|[H|[H|[H|[]]]]]; discriminate H. }
  destruct (X24_constructors_assert 1 3 (1 / 10) "newton") as (_ & Hnes & _).
  destruct (X24_constructors_assert 1 4 (1 / 10) "newton") as (_ & _ & _ & Hpepg & _).
  split; [exact HO|].
  split; [exact (Hnes HO) | exact (Hpepg (or_intror Hname))].
Defined.
